(** * VariablesValueSelector: the dashboard variable resolution engine

    A shallow embedding of the script of
    [web/src/components/dashboards/VariablesValueSelector.vue]:
    the variable records, the reconciliation of a previous selection with a
    fresh option list, the promise-based loader with its cancellation handles,
    and the entry points that start a resolution cycle.

    JavaScript objects keyed by variable name are finite maps, the variable
    array is a list updated by index, and every suspension point of the
    asynchronous loader ([await], [then], [catch]) is an event of a
    transition system over one explicit component state.  The system covers
    the lifetime of one configuration list: [variablesData.values] keeps its
    objects, so an executor that resumes writes to the variable it started
    with. *)

From Stdlib Require Import String Ascii ZArith.
From stdpp Require Import base option list gmap strings.

Local Open Scope string_scope.

(** ** JavaScript values held by a variable *)

(** A selected value is a scalar or an array of scalars.  Option values
    produced by the loader are strings ([zo_sql_key.toString()]). *)
Inductive scalar :=
  | SUndefined
  | SNull
  | SStr (s : string).

Inductive jsvalue :=
  | VScalar (x : scalar)
  | VArray (xs : list scalar).

Global Instance scalar_eq_dec : EqDecision scalar.
Proof. solve_decision. Defined.

Global Instance jsvalue_eq_dec : EqDecision jsvalue.
Proof. solve_decision. Defined.

(** [if (x)] on a scalar: [undefined], [null] and the empty string are falsy. *)
Definition scalar_truthy (x : scalar) : bool :=
  match x with
  | SStr s => negb (String.eqb s "")
  | _ => false
  end.

(** [if (x)] on a value: every array, even an empty one, is truthy. *)
Definition truthy (x : jsvalue) : bool :=
  match x with
  | VScalar a => scalar_truthy a
  | VArray _ => true
  end.

(** [String(x)], as applied by [String.prototype.replace] to its second
    argument and by template literals. *)
Definition scalar_to_string (x : scalar) : string :=
  match x with
  | SUndefined => "undefined"
  | SNull => "null"
  | SStr s => s
  end.

(** ** Variables *)

Inductive VariableType :=
  | query_values
  | constant
  | textbox
  | custom
  | dynamic_filters
  | other_type.

Global Instance VariableType_eq_dec : EqDecision VariableType.
Proof. solve_decision. Defined.

(** [selectAllValueForMultiSelect]: the strings ["all"] and ["custom"] are the
    only ones the code distinguishes; anything else (["first"], undefined)
    takes the [default] branch. *)
Inductive SelectAll :=
  | select_first
  | select_all
  | select_custom.

Global Instance SelectAll_eq_dec : EqDecision SelectAll.
Proof. solve_decision. Defined.

Record OptionItem := {
  label : string;
  opt_value : string;
  selected : bool
}.

Global Instance OptionItem_eq_dec : EqDecision OptionItem.
Proof. solve_decision. Defined.

Record Condition := {
  cond_name : string;
  cond_operator : string;
  cond_value : string
}.

Global Instance Condition_eq_dec : EqDecision Condition.
Proof. solve_decision. Defined.

Record QueryData := {
  stream : string;
  stream_type : string;
  field : string;
  filter_conditions : list Condition;
  max_record_size : option nat
}.

Global Instance QueryData_eq_dec : EqDecision QueryData.
Proof. solve_decision. Defined.

(** One element of [variablesData.values]: the configuration item spread
    into the object, plus the two loading flags.  [customMultiSelectValue]
    is the configured list; the policy ["custom"] is taken with its list
    configured (the code reads the list only under that policy, and raises
    when it is missing). *)
Record VariableItem := {
  name : string;
  type : VariableType;
  multiSelect : bool;
  value : jsvalue;
  options : list OptionItem;
  isLoading : bool;
  isVariableLoadingPending : bool;
  selectAllValueForMultiSelect : SelectAll;
  customMultiSelectValue : list string;
  query_data : QueryData
}.

Global Instance VariableItem_eq_dec : EqDecision VariableItem.
Proof. solve_decision. Defined.

(** Field assignments [currentVariable.f = x]. *)
Definition set_value (x : jsvalue) (v : VariableItem) : VariableItem :=
  {| name := name v; type := type v; multiSelect := multiSelect v;
     value := x; options := options v; isLoading := isLoading v;
     isVariableLoadingPending := isVariableLoadingPending v;
     selectAllValueForMultiSelect := selectAllValueForMultiSelect v;
     customMultiSelectValue := customMultiSelectValue v;
     query_data := query_data v |}.

Definition set_options (os : list OptionItem) (v : VariableItem) : VariableItem :=
  {| name := name v; type := type v; multiSelect := multiSelect v;
     value := value v; options := os; isLoading := isLoading v;
     isVariableLoadingPending := isVariableLoadingPending v;
     selectAllValueForMultiSelect := selectAllValueForMultiSelect v;
     customMultiSelectValue := customMultiSelectValue v;
     query_data := query_data v |}.

Definition set_isLoading (b : bool) (v : VariableItem) : VariableItem :=
  {| name := name v; type := type v; multiSelect := multiSelect v;
     value := value v; options := options v; isLoading := b;
     isVariableLoadingPending := isVariableLoadingPending v;
     selectAllValueForMultiSelect := selectAllValueForMultiSelect v;
     customMultiSelectValue := customMultiSelectValue v;
     query_data := query_data v |}.

Definition set_isVariableLoadingPending (b : bool) (v : VariableItem) : VariableItem :=
  {| name := name v; type := type v; multiSelect := multiSelect v;
     value := value v; options := options v; isLoading := isLoading v;
     isVariableLoadingPending := b;
     selectAllValueForMultiSelect := selectAllValueForMultiSelect v;
     customMultiSelectValue := customMultiSelectValue v;
     query_data := query_data v |}.

(** ** Reconciliation of the previous selection with the new options *)

(** [array.includes(x)] *)
Definition includes {A} `{EqDecision A} (l : list A) (x : A) : bool :=
  bool_decide (x ∈ l).

(** [currentVariable.options.map((option) => option.value)] *)
Definition optionsValues (currentVariable : VariableItem) : list string :=
  opt_value <$> options currentVariable.

(** [options.filter((option) => old.includes(option.value)).map(value)] *)
Definition selectedValues (currentVariable : VariableItem)
    (oldVariableSelectedValues : list scalar) : list string :=
  opt_value <$>
    List.filter (λ o, includes oldVariableSelectedValues (SStr (opt_value o)))
      (options currentVariable).

(** [options.find((option) => option.value === x)] for a JavaScript [x]. *)
Definition find_option (os : list OptionItem) (x : scalar) : option OptionItem :=
  List.find (λ o, bool_decide (SStr (opt_value o) = x)) os.

(** [array[0]], [undefined] out of range. *)
Definition first_scalar (l : list scalar) : scalar :=
  match l with
  | [] => SUndefined
  | x :: _ => x
  end.

(** [handleQueryValuesLogic]: the value it assigns to [currentVariable.value];
    [None] is the [TypeError] raised by [currentVariable.options[0].value] on
    an empty option list. *)
Definition handleQueryValuesLogic (currentVariable : VariableItem)
    (oldVariableSelectedValues : list scalar) : option jsvalue :=
  let optionsValues := optionsValues currentVariable in
  if multiSelect currentVariable then
    let selectedValues := selectedValues currentVariable oldVariableSelectedValues in
    if bool_decide (0 < length selectedValues) then
      Some (VArray (SStr <$> selectedValues))
    else
      match selectAllValueForMultiSelect currentVariable with
      | select_custom =>
          Some (VArray (SStr <$>
            List.filter (λ x, includes (customMultiSelectValue currentVariable) x)
              optionsValues))
      | select_all => Some (VArray (SStr <$> optionsValues))
      | select_first =>
          match options currentVariable with
          | o :: _ => Some (VArray [SStr (opt_value o)])
          | [] => None
          end
      end
  else
    let oldValue :=
      match find_option (options currentVariable)
              (first_scalar oldVariableSelectedValues) with
      | Some o => SStr (opt_value o)
      | None => SUndefined
      end in
    if scalar_truthy oldValue then Some (VScalar oldValue)
    else
      match options currentVariable with
      | o0 :: _ =>
          match selectAllValueForMultiSelect currentVariable with
          | select_custom =>
              let customValue :=
                find_option (options currentVariable)
                  (first_scalar (SStr <$> customMultiSelectValue currentVariable)) in
              match customValue with
              | Some c => Some (VScalar (SStr (opt_value c)))
              | None => Some (VScalar (SStr (opt_value o0)))
              end
          | _ => Some (VScalar (SStr (opt_value o0)))
          end
      | [] => Some (VScalar SNull)
      end.

(** [options.filter((option) => option.selected).map(value)] *)
Definition selectedOptionsValues (currentVariable : VariableItem) : list string :=
  opt_value <$> List.filter selected (options currentVariable).

(** [handleCustomVariablesLogic]: the value it assigns to
    [currentVariable.value].  It never raises: [options?.[0]?.value] is
    [undefined] on an empty option list. *)
Definition handleCustomVariablesLogic (currentVariable : VariableItem)
    (oldVariableSelectedValues : list scalar) : jsvalue :=
  let selectedOptionsValues := selectedOptionsValues currentVariable in
  if multiSelect currentVariable then
    let selectedValues := selectedValues currentVariable oldVariableSelectedValues in
    if bool_decide (0 < length selectedValues) then
      VArray (SStr <$> selectedValues)
    else if bool_decide (0 < length selectedOptionsValues) then
      VArray (SStr <$> selectedOptionsValues)
    else
      VArray [match options currentVariable with
              | o :: _ => SStr (opt_value o)
              | [] => SUndefined
              end]
  else
    let oldValue :=
      match find_option (options currentVariable)
              (first_scalar oldVariableSelectedValues) with
      | Some o => SStr (opt_value o)
      | None => SUndefined
      end in
    if scalar_truthy oldValue then VScalar oldValue
    else
      match options currentVariable with
      | o0 :: _ =>
          match selectedOptionsValues with
          | x :: _ => VScalar (SStr x)
          | [] => VScalar (SStr (opt_value o0))
          end
      | [] => VScalar SNull
      end.

(** The dispatch written at both call sites:
    [if (currentVariable.type === "custom") handleCustomVariablesLogic(...)
     else handleQueryValuesLogic(...)]. *)
Definition reconcile (currentVariable : VariableItem)
    (oldVariableSelectedValues : list scalar) : option jsvalue :=
  if bool_decide (type currentVariable = custom) then
    Some (handleCustomVariablesLogic currentVariable oldVariableSelectedValues)
  else
    handleQueryValuesLogic currentVariable oldVariableSelectedValues.

(** The array built from [oldVariablesData[currentVariable.name]]: empty when
    the stored value is falsy or absent, the stored array, or the stored
    scalar as a singleton. *)
Definition oldSelectedValues (old : option jsvalue) : list scalar :=
  match old with
  | Some x =>
      if truthy x then
        match x with
        | VArray xs => xs
        | VScalar a => [a]
        end
      else []
  | None => []
  end.

(** ** String operations used by the placeholder substitution *)

(** The first occurrence of [pat] in [s]: the text before it and the text
    after it. *)
Fixpoint split_first (pat s : string) : option (string * string) :=
  if String.prefix pat s then
    Some ("", String.substring (String.length pat)
                (String.length s - String.length pat) s)
  else
    match s with
    | EmptyString => None
    | String c s' =>
        match split_first pat s' with
        | Some (before, after) => Some (String c before, after)
        | None => None
        end
    end.

(** [s.includes(pat)] *)
Definition string_includes (s pat : string) : bool :=
  match split_first pat s with
  | Some _ => true
  | None => false
  end.

(** The replacement text of [String.prototype.replace] with a string
    pattern: [$$], [$&], [$`] and [$'] are expanded, any other [$] stands
    for itself (there are no capture groups). *)
Fixpoint get_substitution (matched before after template : string) : string :=
  match template with
  | EmptyString => EmptyString
  | String c rest =>
      if Ascii.eqb c "$" then
        match rest with
        | EmptyString => String c EmptyString
        | String d rest' =>
            if Ascii.eqb d "$" then
              String "$" (get_substitution matched before after rest')
            else if Ascii.eqb d "&" then
              matched +:+ get_substitution matched before after rest'
            else if Ascii.eqb d "`" then
              before +:+ get_substitution matched before after rest'
            else if Ascii.eqb d "'" then
              after +:+ get_substitution matched before after rest'
            else
              String c (get_substitution matched before after rest)
        end
      else String c (get_substitution matched before after rest)
  end.

(** [s.replace(pat, replacement)]: only the first occurrence is replaced. *)
Definition string_replace (s pat replacement : string) : string :=
  match split_first pat s with
  | Some (before, after) =>
      before +:+ get_substitution pat before after replacement +:+ after
  | None => s
  end.

(** [array.join(sep)] *)
Fixpoint join (sep : string) (l : list string) : string :=
  match l with
  | [] => ""
  | [x] => x
  | x :: rest => x +:+ sep +:+ join sep rest
  end.

(** ** The component state *)

(** An instant handed over by the date picker: absent, a [Date] object that
    does not denote a time, or a time in milliseconds. *)
Inductive jsdate :=
  | DateUndefined
  | DateNaN
  | DateAt (ms : Z).

Record TimeRange := {
  start_time : jsdate;
  end_time : jsdate
}.

(** One entry of the object returned by [buildVariablesDependencyGraph]. *)
Record GraphNode := {
  parentVariables : list string;
  childVariables : list string
}.

Inductive PromiseState :=
  | Pending
  | Fulfilled (res : bool)
  | Rejected.

Global Instance PromiseState_eq_dec : EqDecision PromiseState.
Proof. solve_decision. Defined.

(** Where the asynchronous executor of a load is suspended. *)
Inductive Stage :=
  | Returned
  | AwaitLabels
  | AwaitFieldValues (query_context : string).

(** One call of [loadSingleVariableDataByIndex]: the index captured by its
    closures, the promise built by [new Promise], whether the [then]/[catch]
    reaction has run, and the suspension point of the executor.  The position
    of the record in [loads] identifies the promise; the [reject] function
    stored in [currentlyExecutingPromises] is that position. *)
Record Load := {
  variableIndex : nat;
  promise : PromiseState;
  reacted : bool;
  stage : Stage
}.

(** The reactive object [variablesData]; a snapshot is a copy of it. *)
Record VariablesData := {
  isVariablesLoading : bool;
  values : list VariableItem
}.

Global Instance VariablesData_eq_dec : EqDecision VariablesData.
Proof. solve_decision. Defined.

Record State := {
  variablesData : VariablesData;
  variablesDependencyGraph : gmap string GraphNode;
  oldVariablesData : gmap string jsvalue;
  currentlyExecutingPromises : gmap string (option nat);
  selectedTimeDate : TimeRange;
  loads : list Load
}.

Definition set_values (vs : list VariableItem) (s : State) : State :=
  {| variablesData :=
       {| isVariablesLoading := isVariablesLoading (variablesData s);
          values := vs |};
     variablesDependencyGraph := variablesDependencyGraph s;
     oldVariablesData := oldVariablesData s;
     currentlyExecutingPromises := currentlyExecutingPromises s;
     selectedTimeDate := selectedTimeDate s;
     loads := loads s |}.

Definition set_isVariablesLoading (b : bool) (s : State) : State :=
  {| variablesData :=
       {| isVariablesLoading := b; values := values (variablesData s) |};
     variablesDependencyGraph := variablesDependencyGraph s;
     oldVariablesData := oldVariablesData s;
     currentlyExecutingPromises := currentlyExecutingPromises s;
     selectedTimeDate := selectedTimeDate s;
     loads := loads s |}.

Definition set_oldVariablesData (m : gmap string jsvalue) (s : State) : State :=
  {| variablesData := variablesData s;
     variablesDependencyGraph := variablesDependencyGraph s;
     oldVariablesData := m;
     currentlyExecutingPromises := currentlyExecutingPromises s;
     selectedTimeDate := selectedTimeDate s;
     loads := loads s |}.

Definition set_currentlyExecutingPromises (m : gmap string (option nat))
    (s : State) : State :=
  {| variablesData := variablesData s;
     variablesDependencyGraph := variablesDependencyGraph s;
     oldVariablesData := oldVariablesData s;
     currentlyExecutingPromises := m;
     selectedTimeDate := selectedTimeDate s;
     loads := loads s |}.

Definition set_selectedTimeDate (t : TimeRange) (s : State) : State :=
  {| variablesData := variablesData s;
     variablesDependencyGraph := variablesDependencyGraph s;
     oldVariablesData := oldVariablesData s;
     currentlyExecutingPromises := currentlyExecutingPromises s;
     selectedTimeDate := t;
     loads := loads s |}.

Definition set_loads (ls : list Load) (s : State) : State :=
  {| variablesData := variablesData s;
     variablesDependencyGraph := variablesDependencyGraph s;
     oldVariablesData := oldVariablesData s;
     currentlyExecutingPromises := currentlyExecutingPromises s;
     selectedTimeDate := selectedTimeDate s;
     loads := ls |}.

(** [variablesData.values[i].f = x] through the object held at index [i]. *)
Definition update_variable (i : nat) (f : VariableItem → VariableItem)
    (s : State) : State :=
  set_values (alter f i (values (variablesData s))) s.

(** ** Promises *)

Definition settle (st : PromiseState) (l : Load) : Load :=
  {| variableIndex := variableIndex l;
     promise := match promise l with Pending => st | settled => settled end;
     reacted := reacted l;
     stage := stage l |}.

Definition set_stage (g : Stage) (l : Load) : Load :=
  {| variableIndex := variableIndex l; promise := promise l;
     reacted := reacted l; stage := g |}.

Definition set_reacted (l : Load) : Load :=
  {| variableIndex := variableIndex l; promise := promise l;
     reacted := true; stage := stage l |}.

(** [resolve(res)] of promise [p]; without effect once [p] is settled. *)
Definition resolve (p : nat) (res : bool) (s : State) : State :=
  set_loads (alter (settle (Fulfilled res)) p (loads s)) s.

(** [reject(false)] of promise [p]; without effect once [p] is settled. *)
Definition reject (p : nat) (s : State) : State :=
  set_loads (alter (settle Rejected) p (loads s)) s.

Definition suspend (p : nat) (g : Stage) (s : State) : State :=
  set_loads (alter (set_stage g) p (loads s)) s.

(** [rejectAllPromises]: every stored handle is called with [false]. *)
Definition rejectAllPromises (s : State) : State :=
  map_fold (λ _ handle s', match handle with
                           | Some p => reject p s'
                           | None => s'
                           end)
    s (currentlyExecutingPromises s).

(** What the script takes from outside the file: the imported functions
    ([@/utils/date], [@/utils/query/sqlUtils], [@/utils/zincutils]), the
    store's [zoConfig.timestamp_column || "_timestamp"], and the engine's bound
    on nested calls (exceeding it raises a [RangeError]). *)
Record Environment := {
  isInvalidDate : jsdate → bool;
  addLabelsToSQlQuery : string → list Condition → string;
  escapeSingleQuotes : scalar → string;
  b64EncodeUnicode : string → string;
  timestamp_column : string;
  call_stack_limit : nat
}.

(** How a synchronous call ends. *)
Inductive Completion :=
  | Normal
  | TypeError
  | RangeError.

Global Instance Completion_eq_dec : EqDecision Completion.
Proof. solve_decision. Defined.

(** ** Marking the descendants of an edited variable *)

(** The body of the [for ... of] loop of [setLoadingStateToAllChildNode],
    with the recursive call as a parameter.  [values.find] returns the first
    object with the given name; assigning through [undefined] raises. *)
Fixpoint mark_children
    (recurse : string → list VariableItem → list VariableItem * Completion)
    (children : list string) (vs : list VariableItem)
    : list VariableItem * Completion :=
  match children with
  | [] => (vs, Normal)
  | variableName :: rest =>
      match list_find (λ it, name it = variableName) vs with
      | None => (vs, TypeError)
      | Some (k, variableObj) =>
          match recurse (name variableObj)
                  (alter (set_isVariableLoadingPending true) k vs) with
          | (vs', Normal) => mark_children recurse rest vs'
          | (vs', thrown) => (vs', thrown)
          end
      end
  end.

(** [setLoadingStateToAllChildNode(currentVariable)] on a call stack with
    room for [depth] more nested calls. *)
Fixpoint setLoadingStateToAllChildNode (depth : nat)
    (graph : gmap string GraphNode) (currentVariable : string)
    (vs : list VariableItem) : list VariableItem * Completion :=
  match depth with
  | 0 => (vs, RangeError)
  | S depth' =>
      match graph !! currentVariable with
      | None => (vs, TypeError)
      | Some node =>
          mark_children (setLoadingStateToAllChildNode depth' graph)
            (childVariables node) vs
      end
  end.

(** ** The loader *)

Section Component.
Context (env : Environment).

(** The callback of [parentVariables.find]: the parent object, looked up by
    name, is loading or pending. *)
Definition parent_not_loaded (vs : list VariableItem)
    (parentVariable : string) : bool :=
  match list_find (λ variable, name variable = parentVariable) vs with
  | Some (_, variableData) =>
      isLoading variableData || isVariableLoadingPending variableData
  | None => false
  end.

(** [isAnyDepndentVariableLoadingPending]: [find] returns the parent's
    name, and the [if] tests that string. *)
Definition isAnyDepndentVariableLoadingPending (node : GraphNode)
    (vs : list VariableItem) : bool :=
  match List.find (parent_not_loaded vs) (parentVariables node) with
  | Some parentVariable => negb (String.eqb parentVariable "")
  | None => false
  end.

Definition invalid_time_range (s : State) : bool :=
  isInvalidDate env (start_time (selectedTimeDate s))
  || isInvalidDate env (end_time (selectedTimeDate s)).

Definition new_promise (i : nat) (s : State) : State :=
  set_loads (loads s ++ [{| variableIndex := i; promise := Pending;
                            reacted := false; stage := Returned |}]) s.

(** The executor of [loadSingleVariableDataByIndex], from the call up to
    its first [await] or its end.  The caller only passes array indices, so
    the index is a natural number.  A missing graph entry raises inside the
    asynchronous executor, which leaves the promise pending. *)
Definition loadSingleVariableDataByIndex (variableIndex : nat)
    (s : State) : State :=
  let p := length (loads s) in
  let s := new_promise variableIndex s in
  match values (variablesData s) !! variableIndex with
  | None => resolve p false s
  | Some currentVariable =>
      let s :=
        match currentlyExecutingPromises s !! name currentVariable with
        | Some (Some q) => reject q s
        | _ => s
        end in
      let s :=
        set_currentlyExecutingPromises
          (<[name currentVariable := Some p]> (currentlyExecutingPromises s)) s in
      if negb (isVariableLoadingPending currentVariable) then
        resolve p false s
      else if invalid_time_range s then
        resolve p false s
      else
        match variablesDependencyGraph s !! name currentVariable with
        | None => s
        | Some node =>
            if isAnyDepndentVariableLoadingPending node
                 (values (variablesData s)) then
              resolve p false s
            else
              match type currentVariable with
              | query_values =>
                  suspend p AwaitLabels
                    (update_variable variableIndex (set_isLoading true) s)
              | custom =>
                  let oldVariableSelectedValues :=
                    oldSelectedValues
                      (oldVariablesData s !! name currentVariable) in
                  match reconcile currentVariable oldVariableSelectedValues with
                  | Some x =>
                      resolve p true
                        (update_variable variableIndex (set_value x) s)
                  | None => s
                  end
              | _ => resolve p true s
              end
        end
  end.

(** [Promise.all(indices.map((index) => loadSingleVariableDataByIndex(index)))]:
    the executors run one after the other, in array order. *)
Definition load_each (indices : list nat) (s : State) : State :=
  foldl (λ s' index, loadSingleVariableDataByIndex index s') s indices.

(** *** After [await addLabelsToSQlQuery] *)

Definition replace_placeholder (variable : VariableItem)
    (queryContext : string) : string :=
  match value variable with
  | VArray xs =>
      string_replace queryContext ("'$" +:+ name variable +:+ "'")
        (join ", " ((λ x, "'" +:+ escapeSingleQuotes env x +:+ "'") <$> xs))
  | VScalar x =>
      string_replace queryContext ("$" +:+ name variable) (scalar_to_string x)
  end.

(** The [for (let variable of variablesData.values)] loop of load [p] for
    the variable at index [i].  The branch for an unresolved sibling ends
    with [resolve(false)] and the loop goes on. *)
Fixpoint substitution_loop (indices : list nat) (i p : nat)
    (queryContext : string) (s : State) : string * State :=
  match indices with
  | [] => (queryContext, s)
  | k :: rest =>
      match values (variablesData s) !! k with
      | None => substitution_loop rest i p queryContext s
      | Some variable =>
          if negb (isLoading variable)
             && negb (isVariableLoadingPending variable) then
            substitution_loop rest i p
              (replace_placeholder variable queryContext) s
          else if string_includes queryContext ("$" +:+ name variable) then
            substitution_loop rest i p queryContext
              (resolve p false
                 (update_variable i
                    (λ v, set_isVariableLoadingPending true
                            (set_isLoading false v)) s))
          else substitution_loop rest i p queryContext s
      end
  end.

(** The [catch] block of the [query_values] case. *)
Definition catch_block (i p : nat) (s : State) : State :=
  suspend p Returned
    (resolve p true
       (update_variable i (λ v, set_options [] (set_value (VScalar SNull) v)) s)).

(** [toISOString()] raises on a [Date] that does not denote a time. *)
Definition toISOString_throws (d : jsdate) : bool :=
  match d with
  | DateNaN => true
  | _ => false
  end.

(** The executor of load [p] resumed after [await addLabelsToSQlQuery]:
    the substitution loop, then the call of [streamService.fieldValues]. *)
Definition afterLabels (p : nat) (s : State) : option State :=
  match loads s !! p with
  | Some l =>
      match stage l, values (variablesData s) !! variableIndex l with
      | AwaitLabels, Some currentVariable =>
          let i := variableIndex l in
          let dummyQuery :=
            "SELECT " +:+ timestamp_column env +:+ " FROM '"
            +:+ stream (query_data currentVariable) +:+ "'" in
          let queryContext :=
            addLabelsToSQlQuery env dummyQuery
              (filter_conditions (query_data currentVariable)) in
          let '(queryContext, s) :=
            substitution_loop (seq 0 (length (values (variablesData s))))
              i p queryContext s in
          if toISOString_throws (start_time (selectedTimeDate s))
             || toISOString_throws (end_time (selectedTimeDate s)) then
            Some (catch_block i p s)
          else
            Some (suspend p
                    (AwaitFieldValues (b64EncodeUnicode env queryContext)) s)
      | _, _ => None
      end
  | None => None
  end.

(** *** After [await streamService.fieldValues] *)

(** One element of [res.data.hits]: a field and the [zo_sql_key] of each of
    its values (a key that is not a string is [null] or [undefined]). *)
Record Hit := {
  hit_field : string;
  hit_values : list scalar
}.

Inductive FetchResult :=
  | FetchFailed
  | FetchHits (hits : list Hit).

(** [values.filter((value) => value.zo_sql_key || value.zo_sql_key === "")
          .map((value) => ({label: ..., value: value.zo_sql_key.toString()}))] *)
Definition hit_options (h : Hit) : list OptionItem :=
  omap (λ key, match key with
               | SStr k =>
                   Some {| label := if String.eqb k "" then "&lt;blank&gt;" else k;
                           opt_value := k;
                           selected := false |}
               | _ => None
               end) (hit_values h).

Definition is_undefined (x : option jsvalue) : bool :=
  match x with
  | None | Some (VScalar SUndefined) => true
  | _ => false
  end.

Definition is_null (x : option jsvalue) : bool :=
  match x with
  | Some (VScalar SNull) => true
  | _ => false
  end.

(** The [if (res.data.hits.length)] branch once the options are stored:
    the previous selection is reconciled with them. *)
Definition select_value (i p : nat) (s : State) : State :=
  match values (variablesData s) !! i with
  | None => s
  | Some currentVariable =>
      let old := oldVariablesData s !! name currentVariable in
      let oldVariableSelectedValues := oldSelectedValues old in
      if negb (is_undefined old) || negb (is_null old) then
        match reconcile currentVariable oldVariableSelectedValues with
        | Some x =>
            suspend p Returned
              (resolve p true (update_variable i (set_value x) s))
        | None => catch_block i p s
        end
      else
        suspend p Returned
          (resolve p true
             (update_variable i
                (set_value match options currentVariable with
                           | o :: _ => VScalar (SStr (opt_value o))
                           | [] => VScalar SNull
                           end) s))
  end.

(** The executor of load [p] resumed after [await streamService.fieldValues]
    with the outcome [r] of the request.  The executor writes through the
    object it captured at the start, whatever became of its promise. *)
Definition afterFieldValues (p : nat) (r : FetchResult) (s : State)
    : option State :=
  match loads s !! p with
  | Some l =>
      match stage l, values (variablesData s) !! variableIndex l with
      | AwaitFieldValues _, Some currentVariable =>
          let i := variableIndex l in
          match r with
          | FetchFailed => Some (catch_block i p s)
          | FetchHits [] =>
              Some (suspend p Returned
                      (resolve p true
                         (update_variable i
                            (λ v, set_options []
                                    (set_value (if multiSelect currentVariable
                                                then VArray []
                                                else VScalar SNull) v)) s)))
          | FetchHits hits =>
              match List.find (λ h, String.eqb (hit_field h)
                                      (field (query_data currentVariable))) hits with
              | None => Some (catch_block i p s)
              | Some h =>
                  Some (select_value i p
                          (update_variable i (set_options (hit_options h)) s))
              end
          end
      | _, _ => None
      end
  | None => None
  end.

(** *** The reactions [.then(...)] and [.catch(...)] *)

(** The indices collected by [variablesData.values.reduce]: those of the
    variables whose name is among [childVariables]. *)
Fixpoint childVariableIndices (childVariables : list string) (index : nat)
    (vs : list VariableItem) : list nat :=
  match vs with
  | [] => []
  | variable :: rest =>
      if includes childVariables (name variable) then
        index :: childVariableIndices childVariables (S index) rest
      else childVariableIndices childVariables (S index) rest
  end.

Definition any_loading_or_pending (vs : list VariableItem) : bool :=
  existsb (λ val, isLoading val || isVariableLoadingPending val) vs.

(** The callback of [.catch]. *)
Definition onRejected (variableIndex : nat) (s : State) : State :=
  match values (variablesData s) !! variableIndex with
  | None => s
  | Some currentVariable =>
      update_variable variableIndex (set_isLoading false)
        (set_currentlyExecutingPromises
           (<[name currentVariable := None]> (currentlyExecutingPromises s)) s)
  end.

(** The state in which the callback of [.then] calls [emitVariablesData]:
    the variable is marked loaded and [isVariablesLoading] is recomputed. *)
Definition mark_loaded (variableIndex : nat) (currentVariable : VariableItem)
    (s : State) : State :=
  let s :=
    set_currentlyExecutingPromises
      (<[name currentVariable := None]> (currentlyExecutingPromises s)) s in
  let s :=
    set_oldVariablesData
      (<[name currentVariable := value currentVariable]> (oldVariablesData s)) s in
  let s :=
    update_variable variableIndex
      (λ v, set_isVariableLoadingPending false (set_isLoading false v)) s in
  set_isVariablesLoading (any_loading_or_pending (values (variablesData s))) s.

(** The callback of [.then].  A missing graph entry raises after the flags
    are written; the [.catch] callback then repeats two assignments already
    made. *)
Definition onFulfilled (variableIndex : nat) (res : bool) (s : State) : State :=
  if res then
    match values (variablesData s) !! variableIndex with
    | None => s
    | Some currentVariable =>
        let s := mark_loaded variableIndex currentVariable s in
        match variablesDependencyGraph s !! name currentVariable with
        | None => s
        | Some node =>
            load_each
              (childVariableIndices (childVariables node) 0
                 (values (variablesData s))) s
        end
    end
  else s.

(** The reaction to the settlement of promise [p], run once. *)
Definition react (p : nat) (s : State) : option State :=
  match loads s !! p with
  | Some l =>
      if reacted l then None
      else
        let s' := set_loads (alter set_reacted p (loads s)) s in
        match promise l with
        | Pending => None
        | Fulfilled res => Some (onFulfilled (variableIndex l) res s')
        | Rejected => Some (onRejected (variableIndex l) s')
        end
  | None => None
  end.

(** *** Entry points *)

Definition loadAllVariablesData (s : State) : State :=
  if invalid_time_range s then s
  else
    let s :=
      set_values (set_isVariableLoadingPending true <$> values (variablesData s)) s in
    load_each (seq 0 (length (values (variablesData s)))) s.

(** [onVariablesValueUpdated(variableIndex)].  An exception raised while
    marking leaves the function before any load is started. *)
Definition onVariablesValueUpdated (variableIndex : nat) (s : State) : State :=
  match values (variablesData s) !! variableIndex with
  | None => s
  | Some currentVariable =>
      let s :=
        set_oldVariablesData
          (<[name currentVariable := value currentVariable]> (oldVariablesData s)) s in
      match setLoadingStateToAllChildNode (call_stack_limit env)
              (variablesDependencyGraph s) (name currentVariable)
              (values (variablesData s)) with
      | (vs, Normal) =>
          let s := set_values vs s in
          load_each (seq 0 (length (values (variablesData s)))) s
      | (vs, _) => set_values vs s
      end
  end.

(** ** The transition system *)

Inductive Event :=
  | Reload
  | TimeChanged (t : TimeRange)
  | ValueEdited (variableIndex : nat) (x : jsvalue)
  | LabelsReady (p : nat)
  | FieldValuesSettled (p : nat) (r : FetchResult)
  | PromiseSettled (p : nat).

(** [Reload]: a call of [loadAllVariablesData].
    [TimeChanged]: the watcher of [props.selectedTimeDate].
    [ValueEdited]: [v-model] stores the edited value, then
    [onVariablesValueUpdated(index)] runs.
    The other events resume a suspended executor or run a reaction;
    they are [None] when not enabled. *)
Definition exec (e : Event) (s : State) : option State :=
  match e with
  | Reload => Some (loadAllVariablesData s)
  | TimeChanged t =>
      Some (loadAllVariablesData (rejectAllPromises (set_selectedTimeDate t s)))
  | ValueEdited variableIndex x =>
      Some (onVariablesValueUpdated variableIndex
              (update_variable variableIndex (set_value x) s))
  | LabelsReady p => afterLabels p s
  | FieldValuesSettled p r => afterFieldValues p r s
  | PromiseSettled p => react p s
  end.

(** Running a list of events in order. *)
Fixpoint run (es : list Event) (s : State) : option State :=
  match es with
  | [] => Some s
  | e :: es' =>
      match exec e s with
      | Some s' => run es' s'
      | None => None
      end
  end.

(** [emitVariablesData]: the collaborator receives a copy of
    [variablesData]. *)
Definition emitVariablesData (s : State) : VariablesData := variablesData s.

End Component.

(** ** The reconciliation policies *)

(** The multi-select policy in the specification's words: the option values
    found in the previous selection, in option order, when there are any;
    otherwise the select-all policy. *)
Definition spec_multi_select (v : VariableItem) (old : list scalar) : jsvalue :=
  let kept := List.filter (λ x, includes old (SStr x)) (optionsValues v) in
  VArray (SStr <$>
    match kept with
    | _ :: _ => kept
    | [] =>
        match selectAllValueForMultiSelect v with
        | select_all => optionsValues v
        | select_custom =>
            List.filter (includes (customMultiSelectValue v)) (optionsValues v)
        | select_first => take 1 (optionsValues v)
        end
    end).

(** What custom variables do instead when nothing of the previous selection
    is left: the options flagged [selected], else the first option. *)
Definition custom_multi_select (v : VariableItem) (old : list scalar) : jsvalue :=
  let kept := List.filter (λ x, includes old (SStr x)) (optionsValues v) in
  VArray (SStr <$>
    match kept with
    | _ :: _ => kept
    | [] =>
        match selectedOptionsValues v with
        | _ :: _ => selectedOptionsValues v
        | [] => take 1 (optionsValues v)
        end
    end).

Definition two_options : list OptionItem :=
  [ {| label := "a"; opt_value := "a"; selected := false |};
    {| label := "b"; opt_value := "b"; selected := false |} ].

Definition sample_variable (t : VariableType) (multi : bool)
    (policy : SelectAll) (os : list OptionItem) : VariableItem :=
  {| name := "env"; type := t; multiSelect := multi;
     value := VScalar SNull; options := os;
     isLoading := false; isVariableLoadingPending := true;
     selectAllValueForMultiSelect := policy;
     customMultiSelectValue := [];
     query_data := {| stream := "logs"; stream_type := "logs"; field := "env";
                      filter_conditions := []; max_record_size := None |} |}.

(** ** Single-select reconciliation *)

(** The single-select policy in the specification's words: the first old
    value that still exists among the options; else, with options, the
    first custom value that matches an option under the policy ["custom"],
    and the first option otherwise; [null] without options. *)
Definition spec_single_select (v : VariableItem) (old : list scalar) : jsvalue :=
  match List.find (λ x, includes (SStr <$> optionsValues v) x) old with
  | Some x => VScalar x
  | None =>
      match optionsValues v with
      | first :: _ =>
          match selectAllValueForMultiSelect v with
          | select_custom =>
              match List.find (includes (optionsValues v))
                      (customMultiSelectValue v) with
              | Some c => VScalar (SStr c)
              | None => VScalar (SStr first)
              end
          | _ => VScalar (SStr first)
          end
      | [] => VScalar SNull
      end
  end.

(** What the code selects when the first old value is not kept. *)
Definition single_select_default (v : VariableItem) : jsvalue :=
  match options v with
  | first :: _ =>
      if bool_decide (type v = custom) then
        match selectedOptionsValues v with
        | x :: _ => VScalar (SStr x)
        | [] => VScalar (SStr (opt_value first))
        end
      else
        match selectAllValueForMultiSelect v, customMultiSelectValue v with
        | select_custom, c :: _ =>
            if includes (optionsValues v) c then VScalar (SStr c)
            else VScalar (SStr (opt_value first))
        | _, _ => VScalar (SStr (opt_value first))
        end
  | [] => VScalar SNull
  end.

(** The old value kept by both handlers: [options.find(...)?.value]. *)
Definition kept_old_value (v : VariableItem) (old : list scalar) : scalar :=
  match find_option (options v) (first_scalar old) with
  | Some o => SStr (opt_value o)
  | None => SUndefined
  end.

Definition flagged_options : list OptionItem :=
  [ {| label := "a"; opt_value := "a"; selected := false |};
    {| label := "b"; opt_value := "b"; selected := true |} ].

(** ** Eligibility *)

(** The three checks an attempt passes before the [switch]: the variable is
    pending, the time range is accepted, the graph has an entry for the
    variable and no parent listed there is reported as not loaded. *)
Definition eligible (env : Environment) (variableIndex : nat) (s : State) : bool :=
  match values (variablesData s) !! variableIndex with
  | None => false
  | Some currentVariable =>
      isVariableLoadingPending currentVariable
      && negb (invalid_time_range env s)
      && match variablesDependencyGraph s !! name currentVariable with
         | None => false
         | Some node =>
             negb (isAnyDepndentVariableLoadingPending node
                     (values (variablesData s)))
         end
  end.

(** What an eligible attempt writes into its variable before it suspends
    or ends. *)
Definition begin_load (s : State) (currentVariable : VariableItem)
    : VariableItem → VariableItem :=
  match type currentVariable with
  | query_values => set_isLoading true
  | custom =>
      match reconcile currentVariable
              (oldSelectedValues (oldVariablesData s !! name currentVariable)) with
      | Some x => set_value x
      | None => id
      end
  | _ => id
  end.

(** ** The dependency graph *)

(** [y] is listed among the children of [x]. *)
Definition child_of (graph : gmap string GraphNode) (x y : string) : Prop :=
  ∃ node, graph !! x = Some node ∧ y ∈ childVariables node.

(** [y] is a transitive descendant of [x]. *)
Definition descendant (graph : gmap string GraphNode) : relation string :=
  tc (child_of graph).

Definition acyclic (graph : gmap string GraphNode) : Prop :=
  ∀ x, ¬ descendant graph x x.

(** What [buildVariablesDependencyGraph] produces for a variable list:
    every child it lists is the name of a variable and has an entry of its
    own. *)
Definition graph_closed (graph : gmap string GraphNode)
    (vs : list VariableItem) : Prop :=
  ∀ x y, child_of graph x y → y ∈ (name <$> vs) ∧ is_Some (graph !! y).

(** The marking only ever turns the pending flag of descendants on. *)
Definition marked_within (P : string → Prop) (vs vs' : list VariableItem) : Prop :=
  length vs' = length vs
  ∧ ∀ j v, vs !! j = Some v →
      vs' !! j = Some v
      ∨ (P (name v) ∧ vs' !! j = Some (set_isVariableLoadingPending true v)).

(** Once pending, a variable stays pending through further marking. *)
Definition pending_all (P : string → Prop) (vs : list VariableItem) : Prop :=
  ∀ j v, vs !! j = Some v → P (name v) → isVariableLoadingPending v = true.

(** ** A sample dashboard for the closed examples *)

(** Modelled from the spec: the imported helpers, whose modules are not
    part of this file, instantiated for the closed examples.
    [isInvalidDate] rejects an instant that is not well-formed (section 4.2,
    "both start and end are well-formed instants"); [addLabelsToSQlQuery]
    restricts the query by the configured filter predicates (section 4.3).
    The escaping and the encoding are left as identities. *)
Definition sample_env : Environment :=
  {| isInvalidDate := λ d, match d with DateNaN => true | _ => false end;
     addLabelsToSQlQuery := λ query conditions,
       match conditions with
       | [] => query
       | _ =>
           query +:+ " WHERE "
           +:+ join " AND " ((λ c, cond_name c +:+ cond_operator c
                                    +:+ "'" +:+ cond_value c +:+ "'")
                               <$> conditions)
       end;
     escapeSingleQuotes := scalar_to_string;
     b64EncodeUnicode := id;
     timestamp_column := "_timestamp";
     call_stack_limit := 1000 |}.

Definition query_variable (n : string) (multi : bool)
    (conditions : list Condition) : VariableItem :=
  {| name := n; type := query_values; multiSelect := multi;
     value := VScalar SNull; options := [];
     isLoading := false; isVariableLoadingPending := true;
     selectAllValueForMultiSelect := select_first;
     customMultiSelectValue := [];
     query_data := {| stream := "logs"; stream_type := "logs"; field := n;
                      filter_conditions := conditions;
                      max_record_size := None |} |}.

(** [region] has no parent; [host] is filtered by [region='$region']. *)
Definition region : VariableItem := query_variable "region" false [].

Definition host : VariableItem :=
  query_variable "host" false
    [{| cond_name := "region"; cond_operator := "="; cond_value := "$region" |}].

Definition sample_graph : gmap string GraphNode :=
  {[ "region" := {| parentVariables := []; childVariables := ["host"] |};
     "host" := {| parentVariables := ["region"]; childVariables := [] |} ]}.

(** The state left by [initializeVariablesData] for this configuration. *)
Definition mounted (t : TimeRange) : State :=
  {| variablesData := {| isVariablesLoading := false; values := [region; host] |};
     variablesDependencyGraph := sample_graph;
     oldVariablesData := ∅;
     currentlyExecutingPromises := ∅;
     selectedTimeDate := t;
     loads := [] |}.

Definition last_hour : TimeRange :=
  {| start_time := DateAt 0; end_time := DateAt 3600000 |}.

Definition sample_rank (x : string) : nat :=
  if String.eqb x "region" then 1 else 0.

(** ** When a load may begin *)

Definition names_nonempty (vs : list VariableItem) : Prop :=
  ∀ v, v ∈ vs → name v ≠ "".

(** No variable named after a parent of the node is loading or pending. *)
Definition parents_resolved (node : GraphNode) (vs : list VariableItem) : Prop :=
  ∀ parent w, parent ∈ parentVariables node → w ∈ vs → name w = parent →
    isLoading w = false ∧ isVariableLoadingPending w = false.

(** The conditions of the ordering rule for the variable at index [j]. *)
Definition may_load (env : Environment) (s : State) (j : nat) : Prop :=
  ∃ v node,
    values (variablesData s) !! j = Some v
    ∧ isVariableLoadingPending v = true
    ∧ isInvalidDate env (start_time (selectedTimeDate s)) = false
    ∧ isInvalidDate env (end_time (selectedTimeDate s)) = false
    ∧ variablesDependencyGraph s !! name v = Some node
    ∧ parents_resolved node (values (variablesData s)).


(** A step that keeps the names and raises no [isLoading] flag. *)
Definition calm (s s' : State) : Prop :=
  name <$> values (variablesData s') = name <$> values (variablesData s)
  ∧ ∀ j v v',
      values (variablesData s) !! j = Some v →
      values (variablesData s') !! j = Some v' →
      isLoading v' = true → isLoading v = true.

Definition quiet (f : VariableItem → VariableItem) : Prop :=
  ∀ v, name (f v) = name v ∧ (isLoading (f v) = true → isLoading v = true).

(** ** Sample time ranges and states *)

Definition next_hour : TimeRange :=
  {| start_time := DateAt 3600000; end_time := DateAt 7200000 |}.


Definition malformed_range : TimeRange :=
  {| start_time := DateNaN; end_time := DateAt 0 |}.

(** The first cycle has started: [region] awaits its query, [host] waits
    for [region]. *)
Definition first_cycle : State :=
  loadAllVariablesData sample_env (mounted last_hour).

(** The date picker then hands over a malformed start. *)
Definition first_cycle_malformed : State :=
  set_selectedTimeDate malformed_range first_cycle.

(** ** Sample traces *)

Definition region_hits : FetchResult :=
  FetchHits [{| hit_field := "region";
                hit_values := [SStr "us-east"; SStr "us-west"] |}].

Definition stale_region_hits : FetchResult :=
  FetchHits [{| hit_field := "region"; hit_values := [SStr "eu-west"] |}].

Definition host_hits : FetchResult :=
  FetchHits [{| hit_field := "host"; hit_values := [SStr "web-1"] |}].

(** [region]'s request is in flight. *)
Definition region_requested : list Event := [Reload; LabelsReady 0].

(** The time range changes while [region]'s request is in flight; the
    rejected promise has run its [catch] callback. *)
Definition region_cancelled : list Event :=
  [Reload; LabelsReady 0; TimeChanged next_hour; PromiseSettled 0].

(** [region]'s request fails and its promise is handled. *)
Definition region_failed : list Event :=
  [Reload; LabelsReady 0; FieldValuesSettled 0 FetchFailed; PromiseSettled 0].

(** [region] resolves, [host] starts its load (promise 2), and the time
    range changes before [host]'s query is ready: [region] is loading
    again. *)
Definition host_overtaken : list Event :=
  [Reload; LabelsReady 0; FieldValuesSettled 0 region_hits; PromiseSettled 0;
   TimeChanged next_hour].

(** What the examples observe of a variable and of a load. *)
Definition flags (v : VariableItem) : string * bool * bool :=
  (name v, isLoading v, isVariableLoadingPending v).

Definition selection (v : VariableItem) : jsvalue * list string :=
  (value v, opt_value <$> options v).

Definition progress (l : Load) : nat * PromiseState * Stage :=
  (variableIndex l, promise l, stage l).

(** ** Selections *)

(** The selection is a scalar for a single-select variable and an array for
    a multi-select one, made of option values. *)
Definition selection_of_options (v : VariableItem) (r : jsvalue) : Prop :=
  match r with
  | VScalar x => multiSelect v = false ∧ x ∈ (SStr <$> optionsValues v)
  | VArray xs =>
      multiSelect v = true ∧ ∀ x, x ∈ xs → x ∈ (SStr <$> optionsValues v)
  end.

(** ** Stored handles *)

(** Promise [q] is stored as the handle of some name. *)
Definition stored (handles : gmap string (option nat)) (q : nat) : Prop :=
  map_Exists (λ _ handle, handle = Some q) handles.

(** ** The first wave of a cycle *)

(** The variable has a graph entry and none of the parents listed there is
    the name of a variable. *)
Definition root (graph : gmap string GraphNode) (vs : list VariableItem)
    (v : VariableItem) : Prop :=
  ∃ node, graph !! name v = Some node
          ∧ ∀ parent, parent ∈ parentVariables node → parent ∉ (name <$> vs).

Definition all_pending (vs : list VariableItem) : Prop :=
  ∀ v, v ∈ vs → isVariableLoadingPending v = true.

(** ** Dependency cycles *)

(** From [x], following children, one reaches a name that is its own
    descendant. *)
Definition reaches_cycle (graph : gmap string GraphNode) (x : string) : Prop :=
  ∃ y, (x = y ∨ descendant graph x y) ∧ descendant graph y y.

(** ** What the configuration fixes *)

(** The fields of a variable that come from the configuration item. *)
Definition configuration (v : VariableItem)
    : string * VariableType * bool * SelectAll * list string * QueryData :=
  (name v, type v, multiSelect v, selectAllValueForMultiSelect v,
   customMultiSelectValue v, query_data v).

(** From [v] to [v'] the configuration is kept, and so are the value and the
    options when the index and the kind are [frozen]. *)
Definition preserved (frozen : nat → VariableType → Prop) (j : nat)
    (v v' : VariableItem) : Prop :=
  configuration v' = configuration v
  ∧ (frozen j (type v) → value v' = value v ∧ options v' = options v).

Definition evolves (frozen : nat → VariableType → Prop)
    (vs vs' : list VariableItem) : Prop :=
  length vs' = length vs
  ∧ ∀ j v v', vs !! j = Some v → vs' !! j = Some v' → preserved frozen j v v'.

(** Every executor suspended at an [await] belongs to a [query_values]
    variable. *)
Definition suspended_are_queries (s : State) : Prop :=
  ∀ p l v,
    loads s !! p = Some l → stage l ≠ Returned →
    values (variablesData s) !! variableIndex l = Some v →
    type v = query_values.

(** What identifies a suspended executor: its variable and where it waits. *)
Definition suspension (l : Load) : nat * Stage := (variableIndex l, stage l).

(** ** Building the variable list *)

(** The props read by [initializeVariablesData]: [variablesConfig] (absent,
    or an object whose [list] may be absent) and [initialVariableValues]
    (absent, or an object whose [value] maps names to values). *)
Record Props := {
  variablesConfig : option (option (list VariableItem));
  initialVariableValues : option (gmap string jsvalue);
  showDynamicFilters : bool
}.

(** What the initialisation takes from outside the file:
    [buildVariablesDependencyGraph]
    ([@/utils/dashboard/variables/variablesDependencyUtils]) and
    [JSON.parse(decodeURIComponent(x))], which is [None] when either call
    raises; the decoded filter list is held as a value of the model. *)
Record Decoders := {
  buildVariablesDependencyGraph : list VariableItem → gmap string GraphNode;
  parseFilters : jsvalue → option jsvalue
}.

(** [x ?? d] *)
Definition nullish_coalesce (x d : jsvalue) : jsvalue :=
  match x with
  | VScalar SUndefined | VScalar SNull => d
  | _ => x
  end.

(** [props.initialVariableValues?.value[name]] *)
Definition initial_value_of (props : Props) (n : string) : jsvalue :=
  match initialVariableValues props with
  | Some initial => default (VScalar SUndefined) (initial !! n)
  | None => VScalar SUndefined
  end.

(** [JSON.parse(decodeURIComponent(x ?? "%5B%5D")) ?? []] *)
Definition decoded_filters (decoders : Decoders) (x : jsvalue) : option jsvalue :=
  match parseFilters decoders (nullish_coalesce x (VScalar (SStr "%5B%5D"))) with
  | Some parsed => Some (nullish_coalesce parsed (VArray []))
  | None => None
  end.

(** [Array.isArray(x) ? x : [x]] *)
Definition as_array (x : jsvalue) : jsvalue :=
  match x with
  | VArray _ => x
  | VScalar a => VArray [a]
  end.

(** The [initialValue] of one configuration item, [None] when decoding
    raises. *)
Definition initialValue (decoders : Decoders) (props : Props)
    (item : VariableItem) : option jsvalue :=
  let found := initial_value_of props (name item) in
  match (if bool_decide (type item = dynamic_filters)
         then decoded_filters decoders found
         else Some (nullish_coalesce found (VScalar SNull))) with
  | Some initialValue =>
      Some (if multiSelect item then as_array initialValue else initialValue)
  | None => None
  end.

(** [{...item, isLoading: false, isVariableLoadingPending: true}] with the
    value assigned afterwards. *)
Definition variableData (item : VariableItem) (initialValue : jsvalue)
    : VariableItem :=
  let variableData :=
    set_isVariableLoadingPending true (set_isLoading false item) in
  if bool_decide (type item ≠ constant) then
    if bool_decide (type item = textbox) then
      set_value (nullish_coalesce initialValue (value variableData)) variableData
    else set_value initialValue variableData
  else variableData.

(** [variablesData.values.push(v); oldVariablesData[v.name] = initialValue] *)
Definition push_variable (v : VariableItem) (initialValue : jsvalue)
    (s : State) : State :=
  set_oldVariablesData (<[name v := initialValue]> (oldVariablesData s))
    (set_values (values (variablesData s) ++ [v]) s).

(** The [forEach] over the configuration list; [false] when an exception
    left the loop, with the state reached by then. *)
Fixpoint add_variables (decoders : Decoders) (props : Props)
    (items : list VariableItem) (s : State) : State * bool :=
  match items with
  | [] => (s, true)
  | item :: rest =>
      match initialValue decoders props item with
      | Some initialValue =>
          add_variables decoders props rest
            (push_variable (variableData item initialValue) initialValue s)
      | None => (s, false)
      end
  end.

(** The variable pushed when [showDynamicFilters] is set.  The object has
    no [multiSelect], no select-all policy and no [query_data]; the loader
    reads none of them for this kind, so the fields are given the values
    [undefined] behaves as. *)
Definition dynamic_filters_variable (initialValue : jsvalue) : VariableItem :=
  {| name := "Dynamic filters"; type := dynamic_filters; multiSelect := false;
     value := initialValue; options := [];
     isLoading := false; isVariableLoadingPending := true;
     selectAllValueForMultiSelect := select_first;
     customMultiSelectValue := [];
     query_data := {| stream := ""; stream_type := ""; field := "";
                      filter_conditions := []; max_record_size := None |} |}.

Definition set_variablesDependencyGraph (graph : gmap string GraphNode)
    (s : State) : State :=
  {| variablesData := variablesData s;
     variablesDependencyGraph := graph;
     oldVariablesData := oldVariablesData s;
     currentlyExecutingPromises := currentlyExecutingPromises s;
     selectedTimeDate := selectedTimeDate s;
     loads := loads s |}.

Definition resetVariablesData (s : State) : State :=
  set_values [] (set_isVariablesLoading false s).

(** [initializeVariablesData]; [false] when an exception left the function,
    with the state reached by then. *)
Definition initializeVariablesData (decoders : Decoders) (props : Props)
    (s : State) : State * bool :=
  let s := resetVariablesData s in
  match variablesConfig props with
  | None => (s, true)
  | Some config =>
      match add_variables decoders props (default [] config) s with
      | (s, true) =>
          let filters :=
            if showDynamicFilters props then
              match decoded_filters decoders
                      (initial_value_of props "Dynamic filters") with
              | Some initialValue =>
                  Some (push_variable (dynamic_filters_variable initialValue)
                          initialValue s)
              | None => None
              end
            else Some s in
          match filters with
          | Some s' =>
              (set_variablesDependencyGraph
                 (buildVariablesDependencyGraph decoders
                    (values (variablesData s'))) s', true)
          | None => (s, false)
          end
      | (s, false) => (s, false)
      end
  end.

(** The component as [setup] leaves it, before [onMounted].  The
    initialisation is followed from this state only: a later
    re-initialisation replaces the objects of [variablesData.values] while
    a suspended executor keeps the object it captured, which a state indexed
    by position does not express. *)
Definition created (t : TimeRange) : State :=
  {| variablesData := {| isVariablesLoading := false; values := [] |};
     variablesDependencyGraph := ∅;
     oldVariablesData := ∅;
     currentlyExecutingPromises := ∅;
     selectedTimeDate := t;
     loads := [] |}.

(** The [onMounted] hook: an exception raised by the initialisation leaves
    the hook before anything is loaded. *)
Definition onMounted (env : Environment) (decoders : Decoders) (props : Props)
    (s : State) : State :=
  match initializeVariablesData decoders props s with
  | (s, true) => loadAllVariablesData env (rejectAllPromises s)
  | (s, false) => s
  end.

(** The configuration of the sample dashboard. *)
Definition sample_props : Props :=
  {| variablesConfig := Some (Some [region; host]);
     initialVariableValues := None;
     showDynamicFilters := false |}.

(** The variable holds the token [$n] in a filter predicate of its query. *)
Definition references (v : VariableItem) (n : string) : bool :=
  existsb (λ c, string_includes (cond_value c) ("$" +:+ n))
    (filter_conditions (query_data v)).

(** Modelled from the spec: the graph builder of section 4.1.  Every
    variable gets an entry with its parents (the other variables it
    references) and its children (the other variables that reference
    it). *)
Definition spec_buildVariablesDependencyGraph (vs : list VariableItem)
    : gmap string GraphNode :=
  list_to_map
    ((λ v, (name v,
            {| parentVariables :=
                 name <$> List.filter
                            (λ w, references v (name w)
                                  && negb (String.eqb (name w) (name v))) vs;
               childVariables :=
                 name <$> List.filter
                            (λ w, references w (name v)
                                  && negb (String.eqb (name w) (name v))) vs |}))
       <$> vs).

(** The imported builder instantiated for the closed examples; only the
    encoded empty array is decoded. *)
Definition sample_decoders : Decoders :=
  {| buildVariablesDependencyGraph := spec_buildVariablesDependencyGraph;
     parseFilters := λ x, match x with
                          | VScalar (SStr "%5B%5D") => Some (VArray [])
                          | _ => None
                          end |}.

(** ** More sample states *)

(** The state of the sample dashboard after a list of events. *)
Definition state_after (es : list Event) : State :=
  default (mounted last_hour) (run sample_env es (mounted last_hour)).

(** [region]'s request has returned two regions; its promise is fulfilled
    and the reaction has not run yet. *)
Definition region_fetched : list Event :=
  [Reload; LabelsReady 0; FieldValuesSettled 0 region_hits].

(** [region] has resolved and [host] has started to load. *)
Definition region_resolved : list Event :=
  [Reload; LabelsReady 0; FieldValuesSettled 0 region_hits; PromiseSettled 0].

(** [region] as its executor leaves it with these hits, and as the reaction
    leaves it. *)
Definition region_options : list OptionItem :=
  [ {| label := "us-east"; opt_value := "us-east"; selected := false |};
    {| label := "us-west"; opt_value := "us-west"; selected := false |} ].

Definition fetched_region : VariableItem :=
  set_value (VScalar (SStr "us-east"))
    (set_options region_options (set_isLoading true region)).

Definition resolved_region : VariableItem :=
  set_isVariableLoadingPending false (set_isLoading false fetched_region).

(** [host] once resolved with its one option. *)
Definition resolved_host : VariableItem :=
  set_value (VScalar (SStr "web-1"))
    (set_options
       [ {| label := "web-1"; opt_value := "web-1"; selected := false |} ]
       (set_isVariableLoadingPending false host)).

(** A load whose executor is over. *)
Definition returned (i : nat) (st : PromiseState) : Load :=
  {| variableIndex := i; promise := st; reacted := false; stage := Returned |}.

(** Both variables have resolved: [host]'s load is promise 2. *)
Definition all_resolved : list Event :=
  [Reload; LabelsReady 0; FieldValuesSettled 0 region_hits; PromiseSettled 0;
   LabelsReady 2; FieldValuesSettled 2 host_hits; PromiseSettled 2].

(** The time range changes while [region]'s request is in flight; the
    reaction to the rejected promise has not run yet. *)
Definition region_superseded : list Event :=
  [Reload; LabelsReady 0; TimeChanged next_hour].

(** A graph in which [region] and [host] depend on each other. *)
Definition cyclic_graph : gmap string GraphNode :=
  {[ "region" := {| parentVariables := ["host"]; childVariables := ["host"] |};
     "host" := {| parentVariables := ["region"]; childVariables := ["region"] |} ]}.

(** A constant beside the two query variables. *)
Definition tier : VariableItem :=
  {| name := "tier"; type := constant; multiSelect := false;
     value := VScalar (SStr "prod"); options := [];
     isLoading := false; isVariableLoadingPending := false;
     selectAllValueForMultiSelect := select_first;
     customMultiSelectValue := [];
     query_data := {| stream := ""; stream_type := ""; field := "";
                      filter_conditions := []; max_record_size := None |} |}.

(** An item whose initial value is a list of filters. *)
Definition filters : VariableItem :=
  {| name := "filters"; type := dynamic_filters; multiSelect := false;
     value := VScalar SUndefined; options := [];
     isLoading := false; isVariableLoadingPending := false;
     selectAllValueForMultiSelect := select_first;
     customMultiSelectValue := [];
     query_data := {| stream := ""; stream_type := ""; field := "";
                      filter_conditions := []; max_record_size := None |} |}.

(** The sample dashboard with the constant, opened with initial values for
    [region] and for the constant. *)
Definition tiered_props : Props :=
  {| variablesConfig := Some (Some [region; host; tier]);
     initialVariableValues :=
       Some {[ "region" := VScalar (SStr "us-west");
               "tier" := VScalar (SStr "staging") ]};
     showDynamicFilters := false |}.

Definition tiered : State :=
  (initializeVariablesData sample_decoders tiered_props (created last_hour)).1.

(** The sample dashboard wired into a cycle, and without any graph. *)
Definition entangled : State :=
  set_variablesDependencyGraph cyclic_graph (mounted last_hour).

Definition unwired : State :=
  set_variablesDependencyGraph ∅ (mounted last_hour).

(** The initial value of [filters] is cut short and cannot be decoded. *)
Definition broken_props : Props :=
  {| variablesConfig := Some (Some [region; filters; host]);
     initialVariableValues := Some {[ "filters" := VScalar (SStr "%5B%7B") ]};
     showDynamicFilters := false |}.

(** * Properties of the model *)

Lemma selectedValues_filter v old :
  selectedValues v old = List.filter (λ x, includes old (SStr x)) (optionsValues v).
Proof.
  unfold selectedValues, optionsValues.
  induction (options v) as [|o os IH]; csimpl; [done|].
  destruct (includes old (SStr (opt_value o))); csimpl; by rewrite IH.
Qed.

Lemma length_pos_cons {A} (l : list A) :
  bool_decide (0 < length l) = match l with [] => false | _ :: _ => true end.
Proof. destruct l; [done|]. apply bool_decide_eq_true_2. simpl. lia. Qed.

Lemma handleQueryValuesLogic_multi v old :
  multiSelect v = true → options v ≠ [] →
  handleQueryValuesLogic v old = Some (spec_multi_select v old).
Proof.
  intros Hm Ho. unfold handleQueryValuesLogic, spec_multi_select.
  rewrite Hm, length_pos_cons, selectedValues_filter.
  destruct (List.filter _ (optionsValues v)) as [|x kept] eqn:Hk; [|done].
  destruct (selectAllValueForMultiSelect v); try done.
  unfold optionsValues. destruct (options v); [done|]. done.
Qed.

Lemma handleCustomVariablesLogic_multi v old :
  multiSelect v = true → options v ≠ [] →
  handleCustomVariablesLogic v old = custom_multi_select v old.
Proof.
  intros Hm Ho. unfold handleCustomVariablesLogic, custom_multi_select.
  rewrite Hm, !length_pos_cons, selectedValues_filter.
  destruct (List.filter _ (optionsValues v)) as [|x kept] eqn:Hk; [|done].
  destruct (selectedOptionsValues v); [|done].
  unfold optionsValues. destruct (options v); [done|]. done.
Qed.

Lemma includes_SStr (l : list string) (x : string) :
  includes (SStr <$> l) (SStr x) = bool_decide (x ∈ l).
Proof.
  unfold includes. apply bool_decide_ext. rewrite list_elem_of_fmap. split.
  - intros (y & [= ->] & Hy). done.
  - intros Hx. by exists x.
Qed.

Lemma filter_includes_sublist (l sub : list string) :
  NoDup l → sublist sub l →
  List.filter (λ x, includes (SStr <$> sub) (SStr x)) l = sub.
Proof.
  intros Hnd Hsub.
  induction Hsub as [|x l1 l2 Hsub IH|x l1 l2 Hsub IH]; [done| |].
  - apply NoDup_cons in Hnd as [Hx Hnd]. cbn [List.filter].
    rewrite includes_SStr, bool_decide_eq_true_2 by set_solver.
    f_equal. etrans; [|exact (IH Hnd)]. apply List.filter_ext_in.
    intros a Ha%list_elem_of_In. rewrite !includes_SStr.
    apply bool_decide_ext. rewrite elem_of_cons.
    split; [intros [->|Hl]; [by destruct Hx|done] | by right].
  - apply NoDup_cons in Hnd as [Hx Hnd]. cbn [List.filter].
    rewrite includes_SStr, bool_decide_eq_false_2; [by apply IH|].
    intros Hin. apply Hx. eapply elem_of_sublist; eauto.
Qed.

(** C3 (multi-select reconciliation).  For a multi-select variable with options, the loader
    keeps the option values found in the previous selection, in option
    order; when none is left, a [query_values] variable follows
    [selectAllValueForMultiSelect] (all values, the values listed in
    [customMultiSelectValue], or the first value alone) and a [custom]
    variable takes the options flagged [selected], else the first value
    alone.  For both kinds a previous selection that is a non-empty
    sub-sequence of distinct option values comes back unchanged. *)
Theorem multi_select_reconciliation (v : VariableItem) (old : list scalar) :
  multiSelect v = true → options v ≠ [] →
  (type v ≠ custom → reconcile v old = Some (spec_multi_select v old))
  ∧ (type v = custom → reconcile v old = Some (custom_multi_select v old))
  ∧ (∀ sub, sub ≠ [] → NoDup (optionsValues v) →
       sublist sub (optionsValues v) →
       reconcile v (SStr <$> sub) = Some (VArray (SStr <$> sub))).
Proof.
  intros Hm Ho. unfold reconcile. split_and!.
  - intros Ht. rewrite bool_decide_eq_false_2 by done.
    by apply handleQueryValuesLogic_multi.
  - intros Ht. rewrite bool_decide_eq_true_2 by done.
    f_equal. by apply handleCustomVariablesLogic_multi.
  - intros sub Hsub Hnd Hsl. case_bool_decide.
    + rewrite handleCustomVariablesLogic_multi by done.
      unfold custom_multi_select. rewrite filter_includes_sublist by done.
      by destruct sub.
    + rewrite handleQueryValuesLogic_multi by done.
      unfold spec_multi_select. rewrite filter_includes_sublist by done.
      by destruct sub.
Qed.

Lemma multi_select_reconciliation_witness :
  let v := sample_variable query_values true select_all two_options in
  multiSelect v = true ∧ options v ≠ []
  ∧ reconcile v [SStr "b"] = Some (VArray [SStr "b"]).
Proof.
  split; [reflexivity|]. split; [discriminate|].
  destruct (multi_select_reconciliation
              (sample_variable query_values true select_all two_options)
              [SStr "b"]) as (Hq & _ & _); [reflexivity|discriminate|].
  rewrite Hq by discriminate. reflexivity.
Defined.

(** C3, counterexample.  The policy of the specification fails for a
    [custom] variable: with the policy ["all"], no
    option flagged and no previous selection, the code selects the first
    option only, not every option. *)
Lemma multi_select_counterexample :
  let v := sample_variable custom true select_all two_options in
  reconcile v [] = Some (VArray [SStr "a"])
  ∧ spec_multi_select v [] = VArray [SStr "a"; SStr "b"]
  ∧ reconcile v [] ≠ Some (spec_multi_select v []).
Proof. split_and!; [reflexivity|reflexivity|discriminate]. Qed.

Lemma find_option_Some os x o :
  find_option os x = Some o → SStr (opt_value o) = x ∧ o ∈ os.
Proof.
  unfold find_option. intros [Hin Hb]%List.find_some.
  apply bool_decide_eq_true in Hb. split; [done|]. by apply list_elem_of_In.
Qed.

Lemma find_option_None os x :
  find_option os x = None → x ∉ (SStr <$> (opt_value <$> os)).
Proof.
  unfold find_option. intros Hn (y & -> & (o & -> & Ho)%list_elem_of_fmap)%list_elem_of_fmap.
  apply list_elem_of_In in Ho.
  pose proof (List.find_none _ _ Hn o Ho) as Hb. simpl in Hb.
  by apply bool_decide_eq_false in Hb.
Qed.

Lemma find_option_is_Some os x :
  x ∈ (SStr <$> (opt_value <$> os)) →
  ∃ o, find_option os x = Some o ∧ SStr (opt_value o) = x.
Proof.
  intros Hx. destruct (find_option os x) as [o|] eqn:Hf.
  - exists o. split; [done|]. by apply find_option_Some in Hf as [? _].
  - by apply find_option_None in Hf.
Qed.

Lemma kept_old_value_found v old :
  first_scalar old ∈ (SStr <$> optionsValues v) →
  kept_old_value v old = first_scalar old.
Proof.
  intros Hin. unfold kept_old_value.
  by destruct (find_option_is_Some _ _ Hin) as (o & -> & ->).
Qed.

Lemma kept_old_value_missing v old :
  first_scalar old ∉ (SStr <$> optionsValues v) →
  kept_old_value v old = SUndefined.
Proof.
  intros Hin. unfold kept_old_value.
  destruct (find_option _ _) as [o|] eqn:Hf; [|done].
  apply find_option_Some in Hf as [Hx Ho]. exfalso. apply Hin.
  rewrite <- Hx. unfold optionsValues. apply list_elem_of_fmap_2.
  by apply list_elem_of_fmap_2.
Qed.

Lemma reconcile_single v old :
  multiSelect v = false →
  reconcile v old =
    Some (if scalar_truthy (kept_old_value v old)
          then VScalar (kept_old_value v old)
          else single_select_default v).
Proof.
  intros Hm. unfold reconcile, handleCustomVariablesLogic,
    handleQueryValuesLogic, single_select_default.
  rewrite Hm. fold (kept_old_value v old).
  case_bool_decide.
  - by destruct (scalar_truthy _).
  - destruct (scalar_truthy _); [done|].
    destruct (options v) as [|o0 os] eqn:Ho; [done|].
    destruct (selectAllValueForMultiSelect v); try done.
    rewrite <- Ho.
    destruct (customMultiSelectValue v) as [|c cs].
    + change (first_scalar (SStr <$> [])) with SUndefined.
      destruct (find_option _ _) eqn:Hf; [|done].
      by apply find_option_Some in Hf as [[=] _].
    + change (first_scalar (SStr <$> c :: cs)) with (SStr c).
      unfold includes, optionsValues.
      destruct (find_option (options v) (SStr c)) as [o|] eqn:Hf.
      * apply find_option_Some in Hf as [[= <-] Hin].
        rewrite bool_decide_eq_true_2; [done|]. by apply list_elem_of_fmap_2.
      * apply find_option_None in Hf. rewrite bool_decide_eq_false_2; [done|].
        intros Hin. apply Hf. by apply list_elem_of_fmap_2.
Qed.

(** C4 (single-select reconciliation).  A single-select variable keeps the first element of
    the previous selection when it is a non-empty string equal to some
    option's value.  Otherwise, with options: a [query_values] variable
    under the policy ["custom"] takes the first element of
    [customMultiSelectValue] if it is an option's value and the first
    option's value if not, and under any other policy the first option's
    value; a [custom] variable takes the first option flagged [selected],
    else the first option.  Without options the selection is [null]. *)
Theorem single_select_reconciliation (v : VariableItem) (old : list scalar) :
  multiSelect v = false →
  (first_scalar old ∈ (SStr <$> optionsValues v) →
   first_scalar old ≠ SStr "" →
   reconcile v old = Some (VScalar (first_scalar old)))
  ∧ (first_scalar old ∉ (SStr <$> optionsValues v) ∨ first_scalar old = SStr "" →
     reconcile v old = Some (single_select_default v))
  ∧ (options v = [] → reconcile v old = Some (VScalar SNull)).
Proof.
  intros Hm. rewrite (reconcile_single v old Hm). split_and!.
  - intros Hin Hne. rewrite kept_old_value_found by done.
    destruct (first_scalar old) as [| |x] eqn:Hx; simpl.
    + apply list_elem_of_fmap in Hin as (? & [=] & _).
    + apply list_elem_of_fmap in Hin as (? & [=] & _).
    + destruct (String.eqb_spec x ""); [congruence|done].
  - intros [Hin|He].
    + by rewrite kept_old_value_missing.
    + destruct (decide (first_scalar old ∈ (SStr <$> optionsValues v))).
      * rewrite kept_old_value_found by done. by rewrite He.
      * by rewrite kept_old_value_missing.
  - intros Ho. rewrite kept_old_value_missing.
    + unfold single_select_default. by rewrite Ho.
    + unfold optionsValues. rewrite Ho. set_solver.
Qed.

Lemma single_select_reconciliation_witness :
  let v := sample_variable query_values false select_first two_options in
  multiSelect v = false
  ∧ reconcile v [SStr "b"; SStr "a"] = Some (VScalar (SStr "b")).
Proof.
  split; [reflexivity|].
  apply (single_select_reconciliation
           (sample_variable query_values false select_first two_options)
           [SStr "b"; SStr "a"]);
    [reflexivity | vm_compute; set_solver | discriminate].
Defined.

(** C4, counterexample.  The policy of the specification fails twice.
    Only the first old value is looked up: with
    the previous selection [x, b] and the options [a, b] the code selects
    [a], not [b].  And a [custom] variable does not consult the select-all
    policy: with the second option flagged [selected] and no previous
    selection it selects [b], not the first option. *)
Lemma single_select_counterexample :
  let v := sample_variable query_values false select_first two_options in
  let w := sample_variable custom false select_first flagged_options in
  (reconcile v [SStr "x"; SStr "b"] = Some (VScalar (SStr "a"))
   ∧ spec_single_select v [SStr "x"; SStr "b"] = VScalar (SStr "b"))
  ∧ (reconcile w [] = Some (VScalar (SStr "b"))
     ∧ spec_single_select w [] = VScalar (SStr "a")).
Proof. split; split; reflexivity. Qed.

(** ** One attempt *)

Section Attempt.
Context (env : Environment).

Lemma loadSingle_values i s :
  values (variablesData (loadSingleVariableDataByIndex env i s)) =
    match values (variablesData s) !! i with
    | Some currentVariable =>
        if eligible env i s
        then alter (begin_load s currentVariable) i (values (variablesData s))
        else values (variablesData s)
    | None => values (variablesData s)
    end.
Proof.
  unfold loadSingleVariableDataByIndex, eligible, begin_load. simpl.
  destruct (values (variablesData s) !! i) as [cur|] eqn:Hi; [|done].
  destruct (isVariableLoadingPending cur); simpl;
    [|by destruct (currentlyExecutingPromises s !! name cur) as [[]|]].
  assert (Hinv : ∀ q m,
    invalid_time_range env
      (set_currentlyExecutingPromises m
         match q with Some (Some q') => reject q' (new_promise i s) | _ => new_promise i s end)
    = invalid_time_range env s).
  { intros [[]|] m; done. }
  rewrite Hinv. destruct (invalid_time_range env s); simpl;
    [by destruct (currentlyExecutingPromises s !! name cur) as [[]|]|].
  destruct (currentlyExecutingPromises s !! name cur) as [[q|]|]; simpl;
    (destruct (variablesDependencyGraph s !! name cur) as [node|]; [|done]);
    (destruct (isAnyDepndentVariableLoadingPending node _); simpl; [done|]);
    destruct (type cur); simpl; try done; try (by rewrite list_alter_id);
    (destruct (reconcile cur _); simpl; [done | by rewrite list_alter_id]).
Qed.

(** Case analysis along the branches of the executor. *)
Ltac executor_cases :=
  unfold loadSingleVariableDataByIndex; simpl;
  repeat match goal with
    | |- context [match ?x with _ => _ end] => destruct x eqn:?; simpl
    end.

Lemma loadSingle_frame i s :
  let s' := loadSingleVariableDataByIndex env i s in
  isVariablesLoading (variablesData s') = isVariablesLoading (variablesData s)
  ∧ variablesDependencyGraph s' = variablesDependencyGraph s
  ∧ oldVariablesData s' = oldVariablesData s
  ∧ selectedTimeDate s' = selectedTimeDate s.
Proof. executor_cases; done. Qed.

Lemma loadSingle_handles i s :
  currentlyExecutingPromises (loadSingleVariableDataByIndex env i s) =
    match values (variablesData s) !! i with
    | Some currentVariable =>
        <[name currentVariable := Some (length (loads s))]>
          (currentlyExecutingPromises s)
    | None => currentlyExecutingPromises s
    end.
Proof. executor_cases; done. Qed.

Lemma indices_alter (f : Load → Load) p (ls : list Load) :
  (∀ l, variableIndex (f l) = variableIndex l) →
  variableIndex <$> alter f p ls = variableIndex <$> ls.
Proof.
  intros Hf. rewrite (list_fmap_alter _ f id) by (by apply Forall_forall).
  by apply list_alter_id.
Qed.

Lemma loadSingle_indices i s :
  variableIndex <$> loads (loadSingleVariableDataByIndex env i s)
  = ((variableIndex <$> loads s) ++ [i])%list.
Proof.
  executor_cases; rewrite ?indices_alter by done;
    by rewrite ?fmap_app, ?indices_alter.
Qed.

Lemma loadSingle_rejects i s currentVariable q l :
  values (variablesData s) !! i = Some currentVariable →
  currentlyExecutingPromises s !! name currentVariable = Some (Some q) →
  loads s !! q = Some l → promise l = Pending →
  ∃ l', loads (loadSingleVariableDataByIndex env i s) !! q = Some l'
        ∧ promise l' = Rejected.
Proof.
  intros Hi Hq Hl Hp. pose proof (lookup_lt_Some _ _ _ Hl) as Hlt.
  assert (Hrej : (alter (settle Rejected) q (loads s ++
                    [{| variableIndex := i; promise := Pending;
                        reacted := false; stage := Returned |}])%list) !! q
                 = Some (settle Rejected l)).
  { by rewrite list_lookup_alter_eq, lookup_app_l, Hl. }
  exists (settle Rejected l). split; [|by unfold settle; rewrite Hp].
  unfold loadSingleVariableDataByIndex. simpl. rewrite Hi, Hq. simpl.
  repeat match goal with
    | |- context [match ?x with _ => _ end] => destruct x eqn:?; simpl
    end;
  rewrite ?list_lookup_alter_ne by lia; done.
Qed.
End Attempt.

(** ** Marking the descendants *)

Lemma descendant_child graph x y : child_of graph x y → descendant graph x y.
Proof. apply tc_once. Qed.

Lemma descendant_step graph x c y :
  child_of graph x c → descendant graph c y → descendant graph x y.
Proof. apply tc_l. Qed.

Lemma descendant_inv graph x y :
  descendant graph x y →
  ∃ c, child_of graph x c ∧ (c = y ∨ descendant graph c y).
Proof. intros H. inversion H; subst; eauto. Qed.

Lemma marked_within_refl P vs : marked_within P vs vs.
Proof. split; [done|]. intros j v Hj. by left. Qed.

Lemma marked_within_trans P vs1 vs2 vs3 :
  marked_within P vs1 vs2 → marked_within P vs2 vs3 → marked_within P vs1 vs3.
Proof.
  intros [Hl1 H1] [Hl2 H2]. split; [congruence|].
  intros j v Hj. destruct (H1 j v Hj) as [Hv|[HP Hv]].
  - apply (H2 j v Hv).
  - destruct (H2 j _ Hv) as [Hv'|[_ Hv']]; right; split; try done.
Qed.

Lemma marked_within_weaken (P Q : string → Prop) vs vs' :
  (∀ x, P x → Q x) → marked_within P vs vs' → marked_within Q vs vs'.
Proof.
  intros HPQ [Hl H]. split; [done|]. intros j v Hj.
  destruct (H j v Hj) as [?|[? ?]]; [by left|right; auto].
Qed.

Lemma marked_within_alter (P : string → Prop) vs k v :
  vs !! k = Some v → P (name v) →
  marked_within P vs (alter (set_isVariableLoadingPending true) k vs).
Proof.
  intros Hk HP. split; [by rewrite length_alter|]. intros j w Hj.
  destruct (decide (k = j)) as [->|Hne].
  - right. rewrite list_lookup_alter_eq, Hj. simplify_eq. done.
  - left. by rewrite list_lookup_alter_ne.
Qed.

Lemma marked_within_names P vs vs' :
  marked_within P vs vs' → name <$> vs' = name <$> vs.
Proof.
  intros [Hl H]. apply list_eq. intros j. rewrite !list_lookup_fmap.
  destruct (vs !! j) as [v|] eqn:Hj.
  - by destruct (H j v Hj) as [->|[_ ->]].
  - apply lookup_ge_None in Hj. rewrite (proj2 (lookup_ge_None vs' j)); [done|lia].
Qed.

Lemma mark_children_within graph x recurse children vs :
  (∀ c, c ∈ children → child_of graph x c) →
  (∀ c vs1, c ∈ children →
     marked_within (descendant graph c) vs1 (recurse c vs1).1) →
  marked_within (descendant graph x) vs (mark_children recurse children vs).1.
Proof.
  intros Hch Hrec. revert vs.
  induction children as [|c rest IH]; intros vs; simpl.
  { apply marked_within_refl. }
  destruct (list_find _ vs) as [[k w]|] eqn:Hf; [|apply marked_within_refl].
  apply list_find_Some in Hf as (Hk & Hname & _).
  assert (Hc : child_of graph x c) by apply Hch, list_elem_of_here.
  pose proof (Hrec (name w) (alter (set_isVariableLoadingPending true) k vs)) as Hr.
  rewrite Hname in Hr. specialize (Hr (list_elem_of_here _ _)).
  assert (Hstep : marked_within (descendant graph x) vs
            (recurse c (alter (set_isVariableLoadingPending true) k vs)).1).
  { eapply marked_within_trans.
    - apply (marked_within_alter _ vs k w Hk). rewrite Hname.
      by apply descendant_child.
    - eapply marked_within_weaken; [|exact Hr].
      intros y Hy. by eapply descendant_step. }
  rewrite Hname.
  destruct (recurse c _) as [vs' []]; simpl in *; try done.
  eapply marked_within_trans; [exact Hstep|].
  apply IH; intros; [apply Hch | apply Hrec]; by apply list_elem_of_further.
Qed.

Lemma setLoading_within depth graph x vs :
  marked_within (descendant graph x) vs
    (setLoadingStateToAllChildNode depth graph x vs).1.
Proof.
  revert x vs. induction depth as [|d IH]; intros x vs; simpl.
  { apply marked_within_refl. }
  destruct (graph !! x) as [node|] eqn:Hx; [|apply marked_within_refl].
  apply mark_children_within.
  - intros c Hc. by exists node.
  - intros c vs1 _. apply IH.
Qed.

Lemma pending_all_mono (P Q : string → Prop) vs vs' :
  marked_within Q vs vs' → pending_all P vs → pending_all P vs'.
Proof.
  intros [Hl H] Hp j v' Hj HP.
  destruct (vs !! j) as [v|] eqn:Hv.
  - destruct (H j v Hv) as [Hv'|[_ Hv']]; rewrite Hv' in Hj; simplify_eq.
    + by eapply Hp.
    + done.
  - apply lookup_ge_None in Hv. apply lookup_lt_Some in Hj. lia.
Qed.

Lemma mark_children_complete graph x recurse children vs vs' :
  (∀ c, c ∈ children → child_of graph x c) →
  (∀ c vs1, c ∈ children →
     marked_within (descendant graph c) vs1 (recurse c vs1).1) →
  (∀ c vs1 vs2, c ∈ children → NoDup (name <$> vs1) →
     recurse c vs1 = (vs2, Normal) → pending_all (descendant graph c) vs2) →
  NoDup (name <$> vs) →
  mark_children recurse children vs = (vs', Normal) →
  pending_all (λ y, ∃ c, c ∈ children ∧ (c = y ∨ descendant graph c y)) vs'.
Proof.
  intros Hch Hwithin Hrec. revert vs.
  induction children as [|c rest IH]; intros vs Hnd Hrun; simpl in Hrun.
  { intros j v _ (c & Hc & _). by apply elem_of_nil in Hc. }
  destruct (list_find _ vs) as [[k w]|] eqn:Hf; [|done].
  apply list_find_Some in Hf as (Hk & Hname & _). rewrite Hname in Hrun.
  set (vs1 := alter (set_isVariableLoadingPending true) k vs) in *.
  assert (Hm1 : marked_within (descendant graph x) vs vs1).
  { apply (marked_within_alter _ vs k w Hk). rewrite Hname.
    apply descendant_child, Hch, list_elem_of_here. }
  assert (Hnd1 : NoDup (name <$> vs1)).
  { by rewrite (marked_within_names _ _ _ Hm1). }
  pose proof (Hwithin c vs1 (list_elem_of_here _ _)) as Hm2.
  destruct (recurse c vs1) as [vs2 c2] eqn:Hr. destruct c2; try done.
  simpl in Hm2.
  assert (Hnd2 : NoDup (name <$> vs2)).
  { by rewrite (marked_within_names _ _ _ Hm2). }
  assert (Hm3 : marked_within (descendant graph x) vs2 vs').
  { replace vs' with (mark_children recurse rest vs2).1 by (by rewrite Hrun).
    apply mark_children_within; intros; [apply Hch|apply Hwithin];
      by apply list_elem_of_further. }
  assert (Hc : pending_all (λ y, c = y ∨ descendant graph c y) vs2).
  { intros j v Hj [Hcv|Hd].
    - assert (j = k) as ->.
      { eapply NoDup_lookup; [exact Hnd|..].
        + rewrite <- (marked_within_names _ _ _ Hm1),
            <- (marked_within_names _ _ _ Hm2), list_lookup_fmap, Hj. done.
        + rewrite list_lookup_fmap, Hk. simpl. congruence. }
      assert (Hk1 : vs1 !! k = Some (set_isVariableLoadingPending true w)).
      { unfold vs1. by rewrite list_lookup_alter_eq, Hk. }
      destruct Hm2 as [_ Hm2].
      destruct (Hm2 k _ Hk1) as [Hv|[_ Hv]]; rewrite Hv in Hj; by simplify_eq.
    - eapply Hrec; [apply list_elem_of_here | exact Hnd1 | exact Hr | exact Hj | exact Hd]. }
  intros j v Hj (c' & Hc' & Hy).
  apply elem_of_cons in Hc' as [->|Hc'].
  - eapply (pending_all_mono _ _ vs2 vs' Hm3 Hc); eauto.
  - eapply (IH (λ c0 H0, Hch c0 (list_elem_of_further _ _ _ H0))
               (λ c0 vs0 H0, Hwithin c0 vs0 (list_elem_of_further _ _ _ H0))
               (λ c0 vs0 vs3 H0, Hrec c0 vs0 vs3 (list_elem_of_further _ _ _ H0))
               vs2 Hnd2 Hrun); eauto.
Qed.

Lemma setLoading_complete depth graph x vs vs' :
  NoDup (name <$> vs) →
  setLoadingStateToAllChildNode depth graph x vs = (vs', Normal) →
  pending_all (descendant graph x) vs'.
Proof.
  revert x vs vs'. induction depth as [|d IH]; intros x vs vs' Hnd Hrun;
    simpl in Hrun; [done|].
  destruct (graph !! x) as [node|] eqn:Hx; [|done].
  pose proof (mark_children_complete graph x _ _ vs vs'
                (λ c Hc, ex_intro _ node (conj Hx Hc))
                (λ c vs1 _, setLoading_within d graph c vs1)
                (λ c vs1 vs2 _ Hnd1 Hr, IH c vs1 vs2 Hnd1 Hr) Hnd Hrun) as Hall.
  intros j v Hj Hd. apply (Hall j v Hj).
  apply descendant_inv in Hd as (c & (node' & Hx' & Hc) & Hy).
  exists c. split; [congruence|done].
Qed.

(** On an acyclic graph the call chain never repeats a name, so a stack
    with room for one call per variable is enough. *)
Lemma mark_children_normal recurse children vs :
  (∀ c, c ∈ children → c ∈ (name <$> vs)) →
  (∀ c vs1, c ∈ children → name <$> vs1 = name <$> vs →
     (recurse c vs1).2 = Normal ∧ name <$> (recurse c vs1).1 = name <$> vs) →
  (mark_children recurse children vs).2 = Normal.
Proof.
  intros Hin Hrec.
  assert (Hgen : ∀ vs1, name <$> vs1 = name <$> vs →
            (mark_children recurse children vs1).2 = Normal); [|by apply Hgen].
  induction children as [|c rest IH]; intros vs1 Hn; simpl; [done|].
  assert (Hc : c ∈ (name <$> vs1)).
  { rewrite Hn. apply Hin, list_elem_of_here. }
  apply list_elem_of_fmap in Hc as (w & -> & Hw).
  destruct (list_find_elem_of (λ it, name it = name w) vs1 w Hw eq_refl)
    as [[k w'] Hf].
  rewrite Hf. apply list_find_Some in Hf as (Hk & Hname & _).
  set (vs2 := alter (set_isVariableLoadingPending true) k vs1).
  assert (Hn2 : name <$> vs2 = name <$> vs).
  { rewrite <- Hn. eapply (marked_within_names (λ _, True)).
    by apply (marked_within_alter _ vs1 k w'). }
  rewrite Hname.
  destruct (Hrec (name w) vs2 (list_elem_of_here _ _) Hn2) as [Hc Hn3].
  destruct (recurse (name w) vs2) as [vs3 c3]. simpl in *. subst c3.
  apply IH; [| |done].
  - intros c Hc. by apply Hin, list_elem_of_further.
  - intros c vs4 Hc. by apply Hrec, list_elem_of_further.
Qed.

Lemma setLoading_normal (depth : nat) graph x vs (ancestors : list string) :
  acyclic graph → graph_closed graph vs →
  NoDup ancestors →
  (∀ a, a ∈ ancestors → a ∈ (name <$> vs) ∧ descendant graph a x) →
  x ∈ (name <$> vs) → is_Some (graph !! x) →
  (length vs ≤ depth + length ancestors)%nat →
  ∀ vs1, name <$> vs1 = name <$> vs →
    (setLoadingStateToAllChildNode depth graph x vs1).2 = Normal.
Proof.
  intros Hacyc Hclosed. revert x ancestors.
  induction depth as [|d IH]; intros x anc Hnd Hanc Hx [node Hnode] Hlen vs1 Hn.
  - exfalso.
    assert (Hnd' : NoDup (x :: anc)).
    { apply NoDup_cons. split; [|done]. intros Hin.
      apply (Hacyc x). by apply Hanc. }
    assert (Hsub : (x :: anc) ⊆+ (name <$> vs)).
    { apply NoDup_submseteq; [done|]. intros y [->|Hy]%elem_of_cons; [done|].
      by apply Hanc. }
    apply submseteq_length in Hsub. rewrite length_fmap in Hsub. simpl in *. lia.
  - simpl. rewrite Hnode.
    assert (Hkids : ∀ c, c ∈ childVariables node → child_of graph x c).
    { intros c Hc. by exists node. }
    eapply (mark_children_normal _ _ vs1).
    + intros c Hc. rewrite Hn. by apply (Hclosed x c), Hkids.
    + intros c vs2 Hc Hn2. split.
      * apply (IH c (x :: anc)).
        -- apply NoDup_cons. split; [|done]. intros Hin.
           apply (Hacyc x). by apply Hanc.
        -- intros a [->|Ha]%elem_of_cons.
           ++ split; [done|]. by apply descendant_child, Hkids.
           ++ split; [by apply Hanc|].
              eapply tc_r; [by apply Hanc|by apply Hkids].
        -- by apply (Hclosed x c), Hkids.
        -- by apply (Hclosed x c), Hkids.
        -- simpl. lia.
        -- congruence.
      * rewrite <- Hn2.
        apply (marked_within_names _ _ _ (setLoading_within d graph c vs2)).
Qed.

Lemma set_pending_true_id v :
  isVariableLoadingPending v = true → set_isVariableLoadingPending true v = v.
Proof. destruct v; simpl; by intros ->. Qed.

(** On an acyclic dependency graph, with room on the call stack for one
    call per variable, the marking ends normally, sets
    [isVariableLoadingPending] on every transitive descendant of the
    variable, changes no other field of a descendant, and leaves every
    variable outside the descendant closure exactly as it was. *)
Lemma setLoading_marks_descendants (depth : nat)
    (graph : gmap string GraphNode) (vs : list VariableItem)
    (variableIndex : nat) (currentVariable : VariableItem) :
  acyclic graph → graph_closed graph vs → NoDup (name <$> vs) →
  vs !! variableIndex = Some currentVariable →
  is_Some (graph !! name currentVariable) →
  (length vs ≤ depth)%nat →
  ∃ vs',
    setLoadingStateToAllChildNode depth graph (name currentVariable) vs
      = (vs', Normal)
    ∧ length vs' = length vs
    ∧ ∀ j v, vs !! j = Some v →
        (descendant graph (name currentVariable) (name v) →
           vs' !! j = Some (set_isVariableLoadingPending true v))
        ∧ (¬ descendant graph (name currentVariable) (name v) →
             vs' !! j = Some v).
Proof.
  intros Hacyc Hclosed Hnd Hi Hx Hlen.
  set (x := name currentVariable) in *.
  assert (Hin : x ∈ (name <$> vs)).
  { apply list_elem_of_fmap. exists currentVariable. split; [done|].
    by eapply list_elem_of_lookup_2. }
  pose proof (setLoading_normal depth graph x vs [] Hacyc Hclosed
                (NoDup_nil_2) (λ a Ha, False_rect _ (proj1 (elem_of_nil a) Ha))
                Hin Hx ltac:(simpl; lia) vs eq_refl) as Hnormal.
  pose proof (setLoading_within depth graph x vs) as Hwithin.
  destruct (setLoadingStateToAllChildNode depth graph x vs) as [vs' c] eqn:Hrun.
  simpl in *. subst c. exists vs'. split; [done|].
  pose proof (setLoading_complete _ _ _ _ _ Hnd Hrun) as Hall.
  destruct Hwithin as [Hl Hw]. split; [done|].
  intros j v Hj. destruct (Hw j v Hj) as [Hv|[Hd Hv]]; split; try done.
  intros Hd. rewrite set_pending_true_id; [done|]. by apply (Hall j v Hv).
Qed.

Lemma acyclic_by_rank (graph : gmap string GraphNode) (rank : string → nat) :
  (∀ x y, child_of graph x y → rank y < rank x) → acyclic graph.
Proof.
  intros Hrank.
  assert (Hd : ∀ x y, descendant graph x y → rank y < rank x).
  { intros x y H. induction H as [x y H|x y z H _ IH].
    - by apply Hrank.
    - apply Hrank in H. lia. }
  intros x Hx. apply Hd in Hx. lia.
Qed.

Lemma sample_graph_children x y :
  child_of sample_graph x y → x = "region" ∧ y = "host".
Proof.
  intros (node & Hnode & Hy). unfold sample_graph in Hnode.
  apply lookup_insert_Some in Hnode as [[<- <-]|[_ Hnode]].
  - simpl in Hy. apply elem_of_cons in Hy as [->|Hy]; [done|].
    by apply elem_of_nil in Hy.
  - apply lookup_singleton_Some in Hnode as [<- <-].
    by apply elem_of_nil in Hy.
Qed.

Lemma sample_graph_acyclic : acyclic sample_graph.
Proof.
  apply (acyclic_by_rank _ sample_rank).
  intros x y [-> ->]%sample_graph_children. vm_compute. lia.
Qed.

Lemma sample_graph_closed : graph_closed sample_graph [region; host].
Proof.
  intros x y [-> ->]%sample_graph_children. split.
  - apply list_elem_of_further, list_elem_of_here.
  - by eexists.
Qed.

(** ** The ordering rule *)

Section Ordering.
Context (env : Environment).

Lemma names_alter (f : VariableItem → VariableItem) (k : nat)
    (vs : list VariableItem) :
  (∀ v, name (f v) = name v) → name <$> alter f k vs = name <$> vs.
Proof.
  intros Hf. rewrite (list_fmap_alter _ f id) by (by apply Forall_forall).
  by apply list_alter_id.
Qed.

Lemma begin_load_name s cur v : name (begin_load s cur v) = name v.
Proof.
  unfold begin_load. destruct (type cur); try done.
  by destruct (reconcile _ _).
Qed.

Lemma begin_load_pending s cur v :
  isVariableLoadingPending (begin_load s cur v) = isVariableLoadingPending v.
Proof.
  unfold begin_load. destruct (type cur); try done.
  by destruct (reconcile _ _).
Qed.

Lemma loadSingle_names i s :
  name <$> values (variablesData (loadSingleVariableDataByIndex env i s))
  = name <$> values (variablesData s).
Proof.
  rewrite loadSingle_values.
  destruct (values (variablesData s) !! i); [|done].
  destruct (eligible env i s); [|done].
  apply names_alter, begin_load_name.
Qed.

Lemma eligible_inv k s :
  eligible env k s = true →
  ∃ cur node,
    values (variablesData s) !! k = Some cur
    ∧ isVariableLoadingPending cur = true
    ∧ invalid_time_range env s = false
    ∧ variablesDependencyGraph s !! name cur = Some node
    ∧ isAnyDepndentVariableLoadingPending node (values (variablesData s)) = false.
Proof.
  unfold eligible. intros H.
  destruct (values (variablesData s) !! k) as [cur|]; [|done].
  destruct (variablesDependencyGraph s !! name cur) as [node|] eqn:Hg;
    [|by rewrite andb_false_r in H].
  apply andb_true_iff in H as [[Hp Ht]%andb_true_iff Hd].
  apply negb_true_iff in Ht, Hd. by exists cur, node.
Qed.





Lemma loadSingle_may_load k s j :
  may_load env s j → may_load env (loadSingleVariableDataByIndex env k s) j.
Proof.
  intros (v & node & Hj & Hp & Hs & He & Hg & Hres).
  destruct (loadSingle_frame env k s) as (_ & Hgraph & _ & Htime).
  unfold may_load. rewrite Hgraph, Htime, loadSingle_values.
  destruct (values (variablesData s) !! k) as [cur|] eqn:Hk;
    [|by exists v, node].
  destruct (eligible env k s) eqn:Hel; [|by exists v, node].
  apply eligible_inv in Hel as (cur' & _ & Hk' & Hpk & _).
  assert (cur' = cur) as -> by congruence.
  exists (if decide (k = j) then begin_load s cur v else v), node.
  split_and!; try done.
  - destruct (decide (k = j)) as [->|Hne].
    + by rewrite list_lookup_alter_eq, Hj.
    + by rewrite list_lookup_alter_ne.
  - destruct (decide (k = j)); [by rewrite begin_load_pending|done].
  - destruct (decide (k = j)); [by rewrite begin_load_name|done].
  - intros parent w Hparent Hw Hn.
    apply list_elem_of_lookup in Hw as [m Hm].
    destruct (decide (k = m)) as [->|Hne].
    + rewrite list_lookup_alter_eq, Hk in Hm. simplify_eq/=.
      rewrite begin_load_name in Hparent.
      destruct (Hres _ cur Hparent) as [_ Hc]; [|done|congruence].
      by eapply list_elem_of_lookup_2.
    + rewrite list_lookup_alter_ne in Hm by done.
      apply (Hres parent w); [done| |done]. by eapply list_elem_of_lookup_2.
Qed.













Lemma rejectAllPromises_values s :
  values (variablesData (rejectAllPromises s)) = values (variablesData s)
  ∧ selectedTimeDate (rejectAllPromises s) = selectedTimeDate s.
Proof.
  unfold rejectAllPromises.
  apply (map_fold_weak_ind
           (λ r _, values (variablesData r) = values (variablesData s)
                   ∧ selectedTimeDate r = selectedTimeDate s)); [done|].
  intros key [p|] m r _ IH; done.
Qed.

Lemma quiet_set_pending b : quiet (set_isVariableLoadingPending b).
Proof. done. Qed.


Lemma calm_fmap_pending s :
  calm s (set_values (set_isVariableLoadingPending true
                        <$> values (variablesData s)) s).
Proof.
  split; simpl.
  - rewrite <- list_fmap_compose. by apply list_fmap_ext.
  - intros j v v' Hv Hv'. rewrite list_lookup_fmap, Hv in Hv'. by simplify_eq/=.
Qed.



End Ordering.

Section Events.
Context (env : Environment).


Lemma quiet_catch :
  quiet (λ v, set_options [] (set_value (VScalar SNull) v)).
Proof. done. Qed.














Lemma calm_names s s' :
  calm s s' →
  name <$> values (variablesData s') = name <$> values (variablesData s).
Proof. by intros [Hn _]. Qed.






Lemma names_nonempty_same (vs vs' : list VariableItem) :
  name <$> vs' = name <$> vs → names_nonempty vs → names_nonempty vs'.
Proof.
  intros Hn Hne w Hw.
  apply (list_elem_of_fmap_2 name) in Hw. rewrite Hn in Hw.
  apply list_elem_of_fmap in Hw as (w' & -> & Hw'). by apply Hne.
Qed.

Lemma loadSingle_ineligible i s :
  eligible env i s = false →
  variablesData (loadSingleVariableDataByIndex env i s) = variablesData s
  ∧ oldVariablesData (loadSingleVariableDataByIndex env i s) = oldVariablesData s.
Proof.
  intros Hel. destruct (loadSingle_frame env i s) as (Hflag & _ & Hold & _).
  split; [|done].
  pose proof (loadSingle_values env i s) as Hv. rewrite Hel in Hv.
  destruct (variablesData (loadSingleVariableDataByIndex env i s)) as [b vs].
  destruct (variablesData s) as [b0 vs0]. simpl in *. subst b.
  by destruct (vs0 !! i); subst vs.
Qed.
End Events.



(** ** The time-range guard *)

Section Guard.
Context (env : Environment).

(** Each instant is checked on its own: the guard cannot tell a range from
    the same range with start and end exchanged. *)
Lemma time_range_guard_symmetric (s : State) :
  invalid_time_range env
    (set_selectedTimeDate {| start_time := end_time (selectedTimeDate s);
                             end_time := start_time (selectedTimeDate s) |} s)
  = invalid_time_range env s.
Proof. unfold invalid_time_range. simpl. apply orb_comm. Qed.


End Guard.




(** ** Cancellation of the previous attempt *)

(** C10 (cancellation before the checks).  An attempt for the variable at a valid index leaves its own
    promise stored as the handle for the variable's name and rejects the
    promise stored there before, if that one is still pending; this holds
    whether or not the attempt passes the checks, and an attempt that fails
    one changes nothing else of the variables. *)
Theorem attempt_cancels_previous (env : Environment) (i : nat) (s : State)
    (currentVariable : VariableItem) :
  values (variablesData s) !! i = Some currentVariable →
  currentlyExecutingPromises (loadSingleVariableDataByIndex env i s)
    !! name currentVariable = Some (Some (length (loads s)))
  ∧ (∀ q l,
       currentlyExecutingPromises s !! name currentVariable = Some (Some q) →
       loads s !! q = Some l → promise l = Pending →
       ∃ l', loads (loadSingleVariableDataByIndex env i s) !! q = Some l'
             ∧ promise l' = Rejected)
  ∧ (eligible env i s = false →
     variablesData (loadSingleVariableDataByIndex env i s) = variablesData s).
Proof.
  intros Hi. split_and!.
  - by rewrite loadSingle_handles, Hi, lookup_insert_eq.
  - intros q l Hq Hl Hp. by eapply loadSingle_rejects.
  - intros Hel. by apply loadSingle_ineligible.
Qed.

Lemma attempt_cancels_previous_witness :
  values (variablesData first_cycle_malformed) !! 0
    = Some (set_isLoading true region)
  ∧ eligible sample_env 0 first_cycle_malformed = false
  ∧ promise <$> loads first_cycle_malformed !! 0 = Some Pending
  ∧ promise <$> loads (loadSingleVariableDataByIndex sample_env 0
                         first_cycle_malformed) !! 0 = Some Rejected.
Proof.
  split; [reflexivity|]. split; [reflexivity|]. split; [reflexivity|].
  destruct (attempt_cancels_previous sample_env 0 first_cycle_malformed
              (set_isLoading true region) eq_refl) as (_ & Hrej & _).
  destruct (Hrej 0 {| variableIndex := 0; promise := Pending;
                      reacted := false; stage := AwaitLabels |})
    as (l' & Hl' & Hp); [reflexivity..|].
  by rewrite Hl'; simpl; rewrite Hp.
Defined.

(** ** A failed request *)

Section Failure.
Context (env : Environment).

Lemma load_each_indices ks s :
  variableIndex <$> loads (load_each env ks s)
  = ((variableIndex <$> loads s) ++ ks)%list.
Proof.
  revert s. induction ks as [|k ks IH]; intros s; simpl.
  - by rewrite app_nil_r.
  - by rewrite IH, loadSingle_indices, <- app_assoc.
Qed.

Lemma load_each_frame ks s :
  oldVariablesData (load_each env ks s) = oldVariablesData s
  ∧ variablesDependencyGraph (load_each env ks s) = variablesDependencyGraph s.
Proof.
  revert s. induction ks as [|k ks IH]; intros s; simpl; [done|].
  destruct (IH (loadSingleVariableDataByIndex env k s)) as [-> ->].
  by destruct (loadSingle_frame env k s) as (_ & -> & -> & _).
Qed.

(** Attempts leave a variable that is not pending as it is. *)
Lemma load_each_keeps_loaded ks s i v :
  values (variablesData s) !! i = Some v →
  isVariableLoadingPending v = false →
  values (variablesData (load_each env ks s)) !! i = Some v.
Proof.
  revert s. induction ks as [|k ks IH]; intros s Hi Hp; simpl; [done|].
  apply IH; [|done]. rewrite loadSingle_values.
  destruct (values (variablesData s) !! k) as [cur|] eqn:Hk; [|done].
  destruct (eligible env k s) eqn:Hel; [|done].
  destruct (decide (k = i)) as [->|Hne].
  - apply eligible_inv in Hel as (cur' & _ & Hk' & Hpk & _). congruence.
  - by rewrite list_lookup_alter_ne.
Qed.

Lemma childVariableIndices_names children index (vs vs' : list VariableItem) :
  name <$> vs' = name <$> vs →
  childVariableIndices children index vs'
  = childVariableIndices children index vs.
Proof.
  revert index vs'. induction vs as [|v vs IH]; intros index [|v' vs'] Hn;
    simplify_eq/=; [done|].
  rewrite (IH (S index) vs') by done. by rewrite H.
Qed.
End Failure.

(** C5 (failed request).  When the request of a load that is still current
    fails, the variable's options become empty and, for a single-select
    variable, its value becomes [null]; the reaction then marks the variable
    neither loading nor pending, records the value as the old one, and
    starts one attempt for each of the variable's children, in list order.
    The variable itself is not attempted again. *)
Theorem fetch_failure_resolves_and_cascades (env : Environment) (s : State)
    (p : nat) (l : Load) (query_context : string)
    (currentVariable : VariableItem) :
  loads s !! p = Some l →
  stage l = AwaitFieldValues query_context →
  promise l = Pending → reacted l = false →
  values (variablesData s) !! variableIndex l = Some currentVariable →
  ∃ s1 s2,
    afterFieldValues p FetchFailed s = Some s1
    ∧ react env p s1 = Some s2
    ∧ (∃ v, values (variablesData s2) !! variableIndex l = Some v
          ∧ options v = []
          ∧ (multiSelect currentVariable = false → value v = VScalar SNull)
          ∧ isLoading v = false
          ∧ isVariableLoadingPending v = false
          ∧ oldVariablesData s2 !! name currentVariable = Some (value v))
    ∧ (∀ node,
         variablesDependencyGraph s !! name currentVariable = Some node →
         variableIndex <$> loads s2
         = ((variableIndex <$> loads s)
            ++ childVariableIndices (childVariables node) 0
                 (values (variablesData s)))%list).
Proof.
  intros Hl Hstage Hp Hr Hi.
  unfold afterFieldValues. rewrite Hl, Hstage, Hi.
  eexists _, _. split; [reflexivity|].
  unfold react, catch_block. simpl.
  rewrite !list_lookup_alter_eq, Hl. simpl. rewrite Hr, Hp. simpl.
  split; [reflexivity|].
  rewrite list_lookup_alter_eq, Hi. simpl.
  set (failed := set_options [] (set_value (VScalar SNull) currentVariable)).
  set (loaded :=
         set_isVariableLoadingPending false (set_isLoading false failed)).
  match goal with
  | |- context [mark_loaded ?i ?c ?s0] => set (sm := mark_loaded i c s0)
  end.
  assert (Hvm : values (variablesData sm) !! variableIndex l = Some loaded).
  { unfold sm, mark_loaded. simpl. by rewrite !list_lookup_alter_eq, Hi. }
  assert (Hom : oldVariablesData sm !! name currentVariable
                = Some (value loaded)).
  { unfold sm, mark_loaded. simpl. by rewrite lookup_insert_eq. }
  assert (Hlm : variableIndex <$> loads sm = variableIndex <$> loads s).
  { unfold sm, mark_loaded. simpl. by rewrite !indices_alter. }
  assert (Hnm : name <$> values (variablesData sm)
                = name <$> values (variablesData s)).
  { unfold sm, mark_loaded. simpl. by rewrite !names_alter. }
  change (alter _ (variableIndex l) (alter _ (variableIndex l) _))
    with (values (variablesData sm)).
  destruct (variablesDependencyGraph s !! name currentVariable) as [node|].
  - split.
    + exists loaded. split_and!; try done.
      * by apply load_each_keeps_loaded.
      * by destruct (load_each_frame env
             (childVariableIndices (childVariables node) 0
                (values (variablesData sm))) sm) as [-> _].
    + intros node' [= <-].
      by rewrite load_each_indices, Hlm,
        (childVariableIndices_names _ _ _ _ Hnm).
  - split; [|done]. by exists loaded.
Qed.

Lemma fetch_failure_resolves_and_cascades_witness :
  ∃ s,
    run sample_env region_requested (mounted last_hour) = Some s
    ∧ progress <$> loads s !! 0
      = Some (0, Pending,
              AwaitFieldValues "SELECT _timestamp FROM 'logs'")
    ∧ ∃ s1 s2,
        afterFieldValues 0 FetchFailed s = Some s1
        ∧ react sample_env 0 s1 = Some s2
        ∧ (∃ v, values (variablesData s2) !! 0 = Some v
              ∧ options v = []
              ∧ (multiSelect (set_isLoading true region) = false →
                 value v = VScalar SNull)
              ∧ isLoading v = false
              ∧ isVariableLoadingPending v = false
              ∧ oldVariablesData s2 !! name (set_isLoading true region)
                = Some (value v))
        ∧ (∀ node,
             variablesDependencyGraph s !! name (set_isLoading true region)
               = Some node →
             variableIndex <$> loads s2
             = ((variableIndex <$> loads s)
                ++ childVariableIndices (childVariables node) 0
                     (values (variablesData s)))%list).
Proof.
  eexists. split; [vm_compute; reflexivity|]. split; [reflexivity|].
  eapply (fetch_failure_resolves_and_cascades sample_env _ 0
            {| variableIndex := 0; promise := Pending; reacted := false;
               stage := AwaitFieldValues "SELECT _timestamp FROM 'logs'" |});
    reflexivity.
Defined.

(** C5, counterexample.  The children do not stay blocked: after [region]'s request fails, the
    reaction to its promise starts an attempt for [host], which passes the
    checks and begins loading. *)
Lemma fetch_failure_counterexample :
  ∃ s,
    run sample_env region_failed (mounted last_hour) = Some s
    ∧ flags <$> values (variablesData s)
      = [("region", false, false); ("host", true, true)]
    ∧ progress <$> loads s
      = [(0, Fulfilled true, Returned); (1, Fulfilled false, Returned);
         (1, Pending, AwaitLabels)].
Proof. eexists. split; [vm_compute; reflexivity|]. split; reflexivity. Qed.

(** ** Stale completions *)

(** C1 (cancelled loads).  The code departs from the specification:
    [region]'s load is cancelled by a
    change of the time range, its [catch] callback has run, and [region] has
    no value and no options; when the cancelled request then completes, its
    executor stores the options it received and selects a value from them.
    It starts no attempt for the children: the list of loads is as before. *)
Theorem cancelled_load_overwrites_selection :
  ∃ s s',
    run sample_env region_cancelled (mounted last_hour) = Some s
    ∧ progress <$> loads s !! 0 = Some (0, Rejected, AwaitFieldValues
                                          "SELECT _timestamp FROM 'logs'")
    ∧ selection <$> values (variablesData s) !! 0 = Some (VScalar SNull, [])
    ∧ exec sample_env (FieldValuesSettled 0 stale_region_hits) s = Some s'
    ∧ selection <$> values (variablesData s') !! 0
      = Some (VScalar (SStr "eu-west"), ["eu-west"])
    ∧ variableIndex <$> loads s' = variableIndex <$> loads s.
Proof.
  eexists _, _. split; [vm_compute; reflexivity|].
  split; [reflexivity|]. split; [reflexivity|].
  split; [vm_compute; reflexivity|]. split; reflexivity.
Qed.

(** Whatever the substitution loop did, the executor goes on to issue the
    request, unless [toISOString] raises. *)
Lemma substitution_loop_loads env indices i p queryContext s :
  let s' := (substitution_loop env indices i p queryContext s).2 in
  length (loads s') = length (loads s)
  ∧ selectedTimeDate s' = selectedTimeDate s.
Proof.
  revert queryContext s.
  induction indices as [|k rest IH]; intros queryContext s; simpl; [done|].
  destruct (values (variablesData s) !! k) as [variable|]; [|apply IH].
  destruct (negb (isLoading variable) && negb (isVariableLoadingPending variable));
    [apply IH|].
  destruct (string_includes _ _); [|apply IH].
  match goal with
  | |- context [substitution_loop env rest i p queryContext ?s0] =>
      destruct (IH queryContext s0) as [Hlen Ht]
  end.
  simpl in *. rewrite Hlen, Ht. by rewrite length_alter.
Qed.

Lemma afterLabels_issues_request env p s s' :
  afterLabels env p s = Some s' →
  toISOString_throws (start_time (selectedTimeDate s)) = false →
  toISOString_throws (end_time (selectedTimeDate s)) = false →
  ∃ l query_context,
    loads s' !! p = Some l ∧ stage l = AwaitFieldValues query_context.
Proof.
  unfold afterLabels. intros H Hs He.
  destruct (loads s !! p) as [l|] eqn:Hl; [|done].
  destruct (stage l); try done.
  destruct (values (variablesData s) !! variableIndex l) as [cur|]; [|done].
  match type of H with
  | context [substitution_loop env ?ks ?i ?p ?q ?s0] =>
      pose proof (substitution_loop_loads env ks i p q s0) as [Hlen Ht];
      destruct (substitution_loop env ks i p q s0) as [queryContext s1]
  end.
  simpl in *. rewrite Ht, Hs, He in H. simpl in H. simplify_eq.
  assert (is_Some (loads s1 !! p)) as [l1 Hl1].
  { apply lookup_lt_is_Some. rewrite Hlen. by eapply lookup_lt_Some. }
  eexists _, _. simpl. rewrite list_lookup_alter_eq, Hl1. done.
Qed.

(** C2 (unresolved placeholder).  The code departs from the
    specification: [host]'s executor resumes while
    [region] is loading again, finds [$region] in its query, puts [host]
    back to pending, and then issues the request all the same, with the
    placeholder still in the query; when the request completes, [host]'s
    options and value are replaced. *)
Theorem unresolved_sibling_still_requests :
  ∃ s s' s'',
    run sample_env host_overtaken (mounted last_hour) = Some s
    ∧ flags <$> values (variablesData s)
      = [("region", true, true); ("host", true, true)]
    ∧ stage <$> loads s !! 2 = Some AwaitLabels
    ∧ exec sample_env (LabelsReady 2) s = Some s'
    ∧ flags <$> values (variablesData s') !! 1 = Some ("host", false, true)
    ∧ stage <$> loads s' !! 2
      = Some (AwaitFieldValues
                "SELECT _timestamp FROM 'logs' WHERE region='$region'")
    ∧ selection <$> values (variablesData s') !! 1 = Some (VScalar SNull, [])
    ∧ exec sample_env (FieldValuesSettled 2 host_hits) s' = Some s''
    ∧ selection <$> values (variablesData s'') !! 1
      = Some (VScalar (SStr "web-1"), ["web-1"]).
Proof.
  eexists _, _, _. split; [vm_compute; reflexivity|].
  split; [reflexivity|]. split; [reflexivity|].
  split; [vm_compute; reflexivity|].
  split; [reflexivity|]. split; [reflexivity|]. split; [reflexivity|].
  split; [vm_compute; reflexivity|]. reflexivity.
Qed.

(** ** The snapshot flag *)

(** The snapshot emitted by the [then] callback carries a recomputed flag. *)
Lemma success_snapshot_consistent i currentVariable s :
  isVariablesLoading (emitVariablesData (mark_loaded i currentVariable s))
  = any_loading_or_pending
      (values (emitVariablesData (mark_loaded i currentVariable s))).
Proof. done. Qed.

(** C7 (snapshot flag).  The code departs from the specification: the
    snapshot taken once the first
    cycle has started has [isVariablesLoading] false although [region] is
    loading and both variables are pending. *)
Theorem snapshot_flag_stale :
  isVariablesLoading (emitVariablesData first_cycle) = false
  ∧ flags <$> values (emitVariablesData first_cycle)
    = [("region", true, true); ("host", false, true)]
  ∧ any_loading_or_pending (values (emitVariablesData first_cycle)) = true.
Proof. split_and!; reflexivity. Qed.

(** ** Marking on an edit *)

Lemma loadSingle_pending_flags env k s :
  isVariableLoadingPending
    <$> values (variablesData (loadSingleVariableDataByIndex env k s))
  = isVariableLoadingPending <$> values (variablesData s).
Proof.
  rewrite loadSingle_values.
  destruct (values (variablesData s) !! k) as [cur|]; [|done].
  destruct (eligible env k s); [|done].
  rewrite (list_fmap_alter _ _ id).
  - by apply list_alter_id.
  - apply Forall_forall. intros x _. apply begin_load_pending.
Qed.

Lemma load_each_pending_flags env ks s :
  isVariableLoadingPending <$> values (variablesData (load_each env ks s))
  = isVariableLoadingPending <$> values (variablesData s).
Proof.
  revert s. induction ks as [|k ks IH]; intros s; simpl; [done|].
  by rewrite IH, loadSingle_pending_flags.
Qed.

(** C9 (marking the descendants).  On an acyclic dependency graph, with
    distinct names and room on the call stack for one call per variable,
    [onVariablesValueUpdated] for the edited variable marks and then
    attempts every variable: its marking step ends normally, sets
    [isVariableLoadingPending] on every transitive descendant of the edited
    variable and changes nothing else, whether of a descendant or of a
    variable outside the descendant closure; the attempts that follow keep
    every pending flag, so that when [onVariablesValueUpdated] returns every
    descendant is pending, no other variable has changed its pending flag,
    and a variable outside the closure that was not pending is exactly as
    it was. *)
Theorem descendants_marked_pending (env : Environment) (s : State)
    (variableIndex : nat) (currentVariable : VariableItem) :
  acyclic (variablesDependencyGraph s) →
  graph_closed (variablesDependencyGraph s) (values (variablesData s)) →
  NoDup (name <$> values (variablesData s)) →
  values (variablesData s) !! variableIndex = Some currentVariable →
  is_Some (variablesDependencyGraph s !! name currentVariable) →
  (length (values (variablesData s)) ≤ call_stack_limit env)%nat →
  ∃ vs',
    setLoadingStateToAllChildNode (call_stack_limit env)
      (variablesDependencyGraph s) (name currentVariable)
      (values (variablesData s)) = (vs', Normal)
    ∧ (∀ j v, values (variablesData s) !! j = Some v →
         (descendant (variablesDependencyGraph s) (name currentVariable)
            (name v) →
          vs' !! j = Some (set_isVariableLoadingPending true v))
         ∧ (¬ descendant (variablesDependencyGraph s) (name currentVariable)
                (name v) →
            vs' !! j = Some v))
    ∧ onVariablesValueUpdated env variableIndex s
      = load_each env (seq 0 (length vs'))
          (set_values vs'
             (set_oldVariablesData
                (<[name currentVariable := value currentVariable]>
                   (oldVariablesData s)) s))
    ∧ ∀ j v, values (variablesData s) !! j = Some v →
        ∃ v',
          values (variablesData (onVariablesValueUpdated env variableIndex s))
            !! j = Some v'
          ∧ (descendant (variablesDependencyGraph s) (name currentVariable)
               (name v) →
             isVariableLoadingPending v' = true)
          ∧ (¬ descendant (variablesDependencyGraph s) (name currentVariable)
                 (name v) →
             isVariableLoadingPending v' = isVariableLoadingPending v
             ∧ (isVariableLoadingPending v = false → v' = v)).
Proof.
  intros Hacyc Hclosed Hnd Hi Hx Hlen.
  set (graph := variablesDependencyGraph s) in *.
  set (vs := values (variablesData s)) in *.
  destruct (setLoading_marks_descendants (call_stack_limit env) graph vs
              variableIndex currentVariable Hacyc Hclosed Hnd Hi Hx Hlen)
    as (vs' & Hrun & Hlen' & Hmarked).
  exists vs'. split; [exact Hrun|]. split; [exact Hmarked|].
  assert (Hcall : onVariablesValueUpdated env variableIndex s
                  = load_each env (seq 0 (length vs'))
                      (set_values vs'
                         (set_oldVariablesData
                            (<[name currentVariable := value currentVariable]>
                               (oldVariablesData s)) s))).
  { unfold onVariablesValueUpdated. fold vs. rewrite Hi. simpl.
    fold graph vs. by rewrite Hrun. }
  split; [exact Hcall|]. intros j v Hj. rewrite Hcall.
  set (s1 := set_values vs' _).
  pose proof (load_each_pending_flags env (seq 0 (length vs')) s1) as Hflags.
  destruct (Hmarked j v Hj) as [Hin Hout].
  assert (Hfinal : ∀ v1, vs' !! j = Some v1 →
            ∃ v', values (variablesData (load_each env (seq 0 (length vs')) s1))
                    !! j = Some v'
                  ∧ isVariableLoadingPending v' = isVariableLoadingPending v1).
  { intros v1 Hv1.
    assert (Hp1 : (isVariableLoadingPending <$> values (variablesData s1)) !! j
                  = Some (isVariableLoadingPending v1)).
    { simpl. by rewrite list_lookup_fmap, Hv1. }
    rewrite <- Hflags in Hp1.
    apply list_lookup_fmap_Some in Hp1 as (v' & Hp & Hv'). by exists v'. }
  destruct (setLoading_within (call_stack_limit env) graph
              (name currentVariable) vs) as [_ Hwithin].
  rewrite Hrun in Hwithin. simpl in Hwithin.
  destruct (Hwithin j v Hj) as [Hsame|[Hd Hset]].
  - destruct (Hfinal v Hsame) as (v' & Hv' & Hp).
    exists v'. split; [exact Hv'|]. split.
    + intros Hd. specialize (Hin Hd). rewrite Hsame in Hin.
      injection Hin as Hin. rewrite Hp, Hin. done.
    + intros _. split; [done|]. intros Hloaded.
      assert (Hkeep : values (variablesData
                                (load_each env (seq 0 (length vs')) s1))
                        !! j = Some v)
        by (by apply load_each_keeps_loaded).
      congruence.
  - destruct (Hfinal _ Hset) as (v' & Hv' & Hp).
    exists v'. split; [exact Hv'|]. split; [by intros _|by intros ?].
Qed.

Lemma descendants_marked_pending_witness :
  values (variablesData (state_after all_resolved))
  = [resolved_region; resolved_host]
  ∧ (∃ host',
       values (variablesData
                 (onVariablesValueUpdated sample_env 0 (state_after all_resolved)))
         !! 1 = Some host'
       ∧ isVariableLoadingPending resolved_host = false
       ∧ isVariableLoadingPending host' = true)
  ∧ values (variablesData
              (onVariablesValueUpdated sample_env 0 (state_after all_resolved)))
      !! 0 = Some resolved_region.
Proof.
  assert (Hvs : values (variablesData (state_after all_resolved))
                = [resolved_region; resolved_host])
    by (vm_compute; reflexivity).
  assert (Hg : variablesDependencyGraph (state_after all_resolved)
               = sample_graph) by (vm_compute; reflexivity).
  destruct (descendants_marked_pending sample_env (state_after all_resolved) 0
              resolved_region) as (vs' & _ & _ & _ & Hfinal).
  - rewrite Hg. exact sample_graph_acyclic.
  - rewrite Hg, Hvs. intros x y Hxy.
    destruct (sample_graph_closed x y Hxy) as [Hin Hsome]. by split.
  - rewrite Hvs. compute_done.
  - rewrite Hvs. reflexivity.
  - rewrite Hg. by eexists.
  - rewrite Hvs. simpl. lia.
  - split; [exact Hvs|]. rewrite Hvs, Hg in Hfinal. split.
    + destruct (Hfinal 1 resolved_host eq_refl) as (host' & Hhost & Hd & _).
      exists host'. split; [exact Hhost|]. split; [reflexivity|].
      apply Hd, tc_once.
      exists {| parentVariables := []; childVariables := ["host"] |}.
      split; [reflexivity|apply list_elem_of_here].
    + destruct (Hfinal 0 resolved_region eq_refl) as (v0 & Hv0 & _ & Hout).
      destruct (Hout (sample_graph_acyclic "region")) as [_ Hkeep].
      by rewrite Hv0, (Hkeep eq_refl).
Defined.

(** * Further properties of the component *)

(** ** Facts about the sample dashboard *)

Lemma sample_names_nonempty : names_nonempty [region; host].
Proof.
  intros v Hv.
  apply elem_of_cons in Hv as [->|Hv]; [done|].
  apply elem_of_cons in Hv as [->|Hv]; [done|].
  by apply elem_of_nil in Hv.
Qed.

Lemma cyclic_graph_cycle : reaches_cycle cyclic_graph "region".
Proof.
  exists "region". split; [by left|].
  eapply tc_l; [|apply tc_once].
  - exists {| parentVariables := ["host"]; childVariables := ["host"] |}.
    split; [reflexivity|apply list_elem_of_here].
  - exists {| parentVariables := ["region"]; childVariables := ["region"] |}.
    split; [reflexivity|apply list_elem_of_here].
Qed.

(** The sample dashboard as [initializeVariablesData] builds it: the state
    [mounted], with [null] recorded as the old value of both names. *)
Lemma initializeVariablesData_sample :
  initializeVariablesData sample_decoders sample_props (created last_hour)
  = (set_oldVariablesData
       {[ "region" := VScalar SNull; "host" := VScalar SNull ]}
       (mounted last_hour), true).
Proof. vm_compute. reflexivity. Qed.

Lemma initializeVariablesData_tiered :
  initializeVariablesData sample_decoders tiered_props (created last_hour)
  = (tiered, true).
Proof. vm_compute. reflexivity. Qed.

(** ** More on reconciliation *)

Lemma List_filter_sublist {A} (f : A → bool) (l : list A) :
  sublist (List.filter f l) l.
Proof.
  induction l as [|x l IH]; simpl; [constructor|].
  destruct (f x); by constructor.
Qed.

Lemma selectedOptionsValues_sublist v :
  sublist (selectedOptionsValues v) (optionsValues v).
Proof. apply fmap_sublist, List_filter_sublist. Qed.

Lemma single_select_default_option v :
  options v ≠ [] →
  ∃ x, single_select_default v = VScalar (SStr x) ∧ x ∈ optionsValues v.
Proof.
  intros Ho. unfold single_select_default.
  destruct (options v) as [|o0 os] eqn:Hopts; [done|].
  assert (H0 : opt_value o0 ∈ optionsValues v).
  { unfold optionsValues. rewrite Hopts. apply list_elem_of_here. }
  case_bool_decide.
  - destruct (selectedOptionsValues v) as [|x xs] eqn:Hs; [by eexists|].
    exists x. split; [done|].
    eapply elem_of_sublist; [|apply selectedOptionsValues_sublist].
    rewrite Hs. apply list_elem_of_here.
  - destruct (selectAllValueForMultiSelect v); try by eexists.
    destruct (customMultiSelectValue v) as [|c cs]; [by eexists|].
    unfold includes. case_bool_decide; by eexists.
Qed.

Lemma kept_old_value_option v old :
  scalar_truthy (kept_old_value v old) = true →
  ∃ x, kept_old_value v old = SStr x ∧ x ∈ optionsValues v ∧ x ≠ "".
Proof.
  unfold kept_old_value.
  destruct (find_option _ _) as [o|] eqn:Hf; [|done].
  apply find_option_Some in Hf as [_ Ho]. simpl.
  intros Ht. exists (opt_value o). split_and!; [done| |].
  - by apply list_elem_of_fmap_2.
  - intros He. by rewrite He in Ht.
Qed.

Lemma reconcile_shape (v : VariableItem) (old : list scalar) (r : jsvalue) :
  options v ≠ [] → reconcile v old = Some r → selection_of_options v r.
Proof.
  unfold selection_of_options.
  intros Ho Hr. destruct (multiSelect v) eqn:Hm.
  - assert (Hsub : ∃ L, r = VArray (SStr <$> L) ∧ sublist L (optionsValues v)).
    { unfold reconcile in Hr. case_bool_decide.
      - rewrite handleCustomVariablesLogic_multi in Hr by done.
        simplify_eq. unfold custom_multi_select.
        destruct (List.filter _ _) as [|x kept] eqn:Hk.
        + destruct (selectedOptionsValues v) as [|y ys] eqn:Hs.
          * eexists. split; [done|]. apply sublist_take.
          * eexists. split; [done|]. rewrite <- Hs.
            apply selectedOptionsValues_sublist.
        + eexists. split; [done|]. rewrite <- Hk. apply List_filter_sublist.
      - rewrite handleQueryValuesLogic_multi in Hr by done.
        simplify_eq. unfold spec_multi_select.
        destruct (List.filter _ _) as [|x kept] eqn:Hk.
        + destruct (selectAllValueForMultiSelect v); eexists; (split; [done|]).
          * apply sublist_take.
          * done.
          * apply List_filter_sublist.
        + eexists. split; [done|]. rewrite <- Hk. apply List_filter_sublist. }
    destruct Hsub as (L & -> & Hsub). split; [done|].
    intros x (y & -> & Hy)%list_elem_of_fmap.
    apply list_elem_of_fmap_2. by eapply elem_of_sublist.
  - rewrite (reconcile_single v old Hm) in Hr. simplify_eq.
    destruct (scalar_truthy (kept_old_value v old)) eqn:Ht.
    + apply kept_old_value_option in Ht as (x & -> & Hx & _).
      split; [done|]. by apply list_elem_of_fmap_2.
    + destruct (single_select_default_option v Ho) as (x & -> & Hx).
      split; [done|]. by apply list_elem_of_fmap_2.
Qed.

(** X1 (the selection is made of options).
    The reconciled selection has the shape [multiSelect] asks for and, when
    there are options, is made of option values only. *)
Theorem reconcile_selects_options (v : VariableItem) (old : list scalar)
    (r : jsvalue) :
  options v ≠ [] → reconcile v old = Some r →
  match r with
  | VScalar x => multiSelect v = false ∧ x ∈ (SStr <$> optionsValues v)
  | VArray xs =>
      multiSelect v = true ∧ ∀ x, x ∈ xs → x ∈ (SStr <$> optionsValues v)
  end.
Proof. apply reconcile_shape. Qed.

Lemma reconcile_selects_options_witness :
  let v := sample_variable query_values true select_all two_options in
  options v ≠ []
  ∧ reconcile v [SStr "b"] = Some (VArray [SStr "b"])
  ∧ (multiSelect v = true
     ∧ ∀ x, x ∈ [SStr "b"] → x ∈ (SStr <$> optionsValues v)).
Proof.
  split; [discriminate|]. split; [reflexivity|].
  apply (reconcile_selects_options
           (sample_variable query_values true select_all two_options)
           [SStr "b"] (VArray [SStr "b"])); [discriminate|reflexivity].
Defined.

Lemma reconcile_multi_chosen v old r :
  multiSelect v = true → options v ≠ [] → reconcile v old = Some r →
  ∃ L, r = VArray (SStr <$> L) ∧ sublist L (optionsValues v)
       ∧ (L = [] → ∀ old', reconcile v old' = Some r
                           ∨ List.filter (λ x, includes old' (SStr x))
                               (optionsValues v) ≠ []).
Proof.
  intros Hm Ho Hr. unfold reconcile in *. case_bool_decide.
  - rewrite handleCustomVariablesLogic_multi in Hr by done. simplify_eq.
    unfold custom_multi_select.
    destruct (List.filter _ _) as [|x kept] eqn:Hk.
    + destruct (selectedOptionsValues v) as [|y ys] eqn:Hs.
      * eexists. split; [done|]. split; [apply sublist_take|].
        unfold optionsValues. by destruct (options v).
      * eexists. split; [done|]. split; [|done]. rewrite <- Hs.
        apply selectedOptionsValues_sublist.
    + eexists. split; [done|]. split; [|done].
      rewrite <- Hk. apply List_filter_sublist.
  - rewrite handleQueryValuesLogic_multi in Hr by done. simplify_eq.
    unfold spec_multi_select.
    destruct (List.filter _ _) as [|x kept] eqn:Hk.
    + destruct (selectAllValueForMultiSelect v) eqn:Hpol;
        eexists; (split; [done|]).
      * split; [apply sublist_take|].
        unfold optionsValues. by destruct (options v).
      * split; [done|]. unfold optionsValues. by destruct (options v).
      * split; [apply List_filter_sublist|]. intros Hnil old'.
        destruct (List.filter (λ x, includes old' (SStr x)) (optionsValues v))
          as [|z zs] eqn:Hk'; [left|by right].
        rewrite handleQueryValuesLogic_multi by done.
        unfold spec_multi_select. by rewrite Hk', Hpol.
    + eexists. split; [done|]. split; [|done].
      rewrite <- Hk. apply List_filter_sublist.
Qed.

Lemma filter_includes_nil (l : list string) :
  List.filter (λ x, includes ([] : list scalar) (SStr x)) l = [].
Proof.
  induction l as [|x l IH]; [done|]. cbn [List.filter].
  unfold includes at 1.
  rewrite bool_decide_eq_false_2 by apply not_elem_of_nil. exact IH.
Qed.

Lemma reconcile_kept v (L : list string) :
  multiSelect v = true → options v ≠ [] → L ≠ [] →
  List.filter (λ x, includes (SStr <$> L) (SStr x)) (optionsValues v) = L →
  reconcile v (SStr <$> L) = Some (VArray (SStr <$> L)).
Proof.
  intros Hm Ho HL Hk. unfold reconcile. case_bool_decide.
  - rewrite handleCustomVariablesLogic_multi by done.
    unfold custom_multi_select. rewrite Hk. by destruct L.
  - rewrite handleQueryValuesLogic_multi by done.
    unfold spec_multi_select. rewrite Hk. by destruct L.
Qed.

(** X2 (reconciliation is stable).
    Reconciliation is stable: with distinct option values, reconciling
    again, with the selection just made as the previous one and the same
    options, selects the same. *)
Theorem reconcile_stable (v : VariableItem) (old : list scalar) (r : jsvalue) :
  NoDup (optionsValues v) → reconcile v old = Some r →
  reconcile v (oldSelectedValues (Some r)) = Some r.
Proof.
  intros Hnd Hr. destruct (multiSelect v) eqn:Hm.
  - destruct (options v) as [|o0 os] eqn:Ho.
    + unfold reconcile, handleCustomVariablesLogic, handleQueryValuesLogic,
        selectedValues, selectedOptionsValues in *.
      rewrite Hm, Ho in *. simpl in *.
      case_bool_decide; [by simplify_eq|].
      by destruct (selectAllValueForMultiSelect v); simplify_eq.
    + assert (Hne : options v ≠ []) by by rewrite Ho.
      destruct (reconcile_multi_chosen v old r Hm Hne Hr)
        as (L & -> & Hsub & Hnil).
      simpl. destruct (decide (L = [])) as [->|HL].
      * destruct (Hnil eq_refl (SStr <$> [])) as [?|Hk]; [done|].
        exfalso. apply Hk. apply filter_includes_nil.
      * apply reconcile_kept; try done. by apply filter_includes_sublist.
  - rewrite (reconcile_single v old Hm) in Hr. injection Hr as Hr.
    rewrite (reconcile_single v _ Hm). f_equal.
    assert (Hdefault : ∀ x,
      single_select_default v = VScalar x →
      (if scalar_truthy (kept_old_value v (oldSelectedValues (Some (VScalar x))))
       then VScalar (kept_old_value v (oldSelectedValues (Some (VScalar x))))
       else single_select_default v) = VScalar x).
    { intros x Hd. simpl. destruct (scalar_truthy x) eqn:Hx.
      - destruct (options v) as [|o0 os] eqn:Ho.
        { unfold single_select_default in Hd. rewrite Ho in Hd.
          by simplify_eq. }
        destruct (single_select_default_option v) as (y & Hy & Hin);
          [by rewrite Ho|].
        rewrite Hd in Hy. simplify_eq.
        rewrite kept_old_value_found; [by cbn [first_scalar]; rewrite Hx|].
        cbn [first_scalar]. by apply list_elem_of_fmap_2.
      - rewrite kept_old_value_missing; [done|].
        intros (y & [=] & _)%list_elem_of_fmap. }
    destruct (scalar_truthy (kept_old_value v old)) eqn:Ht.
    + apply kept_old_value_option in Ht as (x & Hx & Hin & Hne).
      subst r. rewrite Hx.
      assert (Htx : scalar_truthy (SStr x) = true).
      { simpl. by destruct (String.eqb_spec x ""). }
      unfold oldSelectedValues, truthy. rewrite Htx.
      rewrite kept_old_value_found;
        [|cbn [first_scalar]; by apply list_elem_of_fmap_2].
      cbn [first_scalar]. by rewrite Htx.
    + subst r. destruct (single_select_default v) as [x|xs] eqn:Hd.
      * by apply Hdefault.
      * unfold single_select_default in Hd.
        repeat (case_match; simplify_eq).
Qed.

Lemma reconcile_stable_witness :
  let v := sample_variable query_values true select_all two_options in
  reconcile v (oldSelectedValues (Some (VArray [SStr "b"])))
  = Some (VArray [SStr "b"]).
Proof.
  apply (reconcile_stable
           (sample_variable query_values true select_all two_options)
           [SStr "b"] (VArray [SStr "b"])); [compute_done|reflexivity].
Defined.

(** X3 (when the reconciliation raises).
    The reconciliation raises in one situation only, for a variable whose
    options are an array and which is [custom] or has a select-all policy
    other than ["custom"]: a multi-select variable that is not [custom],
    with no options at all, under the default select-all policy, where
    [options[0].value] reads through [undefined]; in the loader the [catch]
    block takes over.  (Under the policy ["custom"] [handleQueryValuesLogic]
    also reads [customMultiSelectValue], and raises when the list is
    missing; that case is not covered here.) *)
Theorem reconcile_raises_only_without_options (v : VariableItem)
    (old : list scalar) :
  type v = custom ∨ selectAllValueForMultiSelect v ≠ select_custom →
  reconcile v old = None
  ↔ type v ≠ custom ∧ multiSelect v = true ∧ options v = []
    ∧ selectAllValueForMultiSelect v = select_first.
Proof.
  intros _. unfold reconcile. case_bool_decide as Ht.
  { split; [done|]. by intros (? & _). }
  destruct (multiSelect v) eqn:Hm.
  - destruct (options v) as [|o os] eqn:Ho.
    + unfold handleQueryValuesLogic, selectedValues. rewrite Hm, Ho. simpl.
      destruct (selectAllValueForMultiSelect v); split; try done;
        by intros (_ & _ & _ & ?).
    + rewrite handleQueryValuesLogic_multi by (done || by rewrite Ho).
      split; [done|]. by intros (_ & _ & ? & _).
  - pose proof (reconcile_single v old Hm) as Hs. unfold reconcile in Hs.
    rewrite bool_decide_eq_false_2 in Hs by done. rewrite Hs.
    split; [done|]. by intros (_ & ? & _).
Qed.

Lemma reconcile_raises_only_without_options_witness :
  reconcile (sample_variable query_values true select_first []) [] = None.
Proof.
  apply (reconcile_raises_only_without_options
           (sample_variable query_values true select_first []) []).
  - right. discriminate.
  - split_and!; [discriminate|reflexivity..].
Defined.

(** ** The snapshot flag across events *)

Section Flag.
Context (env : Environment).

Lemma existsb_alter {A} (P : A → bool) (f : A → A) (k : nat) (l : list A) :
  (∀ x, l !! k = Some x → P (f x) = P x) →
  existsb P (alter f k l) = existsb P l.
Proof.
  revert k. induction l as [|y l IH]; intros k Hf; [done|].
  destruct k as [|k]; simpl.
  - by rewrite (Hf y eq_refl).
  - f_equal. apply IH. intros x Hx. by apply Hf.
Qed.

Lemma loadSingle_any k s :
  any_loading_or_pending
    (values (variablesData (loadSingleVariableDataByIndex env k s)))
  = any_loading_or_pending (values (variablesData s)).
Proof.
  rewrite loadSingle_values.
  destruct (values (variablesData s) !! k) as [cur|] eqn:Hk; [|done].
  destruct (eligible env k s) eqn:Hel; [|done].
  apply eligible_inv in Hel as (cur' & _ & Hk' & Hp & _).
  apply existsb_alter. intros x Hx. simplify_eq.
  rewrite begin_load_pending, Hp. by rewrite !orb_true_r.
Qed.

Lemma load_each_any ks s :
  any_loading_or_pending (values (variablesData (load_each env ks s)))
  = any_loading_or_pending (values (variablesData s)).
Proof.
  revert s. induction ks as [|k ks IH]; intros s; simpl; [done|].
  by rewrite IH, loadSingle_any.
Qed.

Lemma load_each_flag ks s :
  isVariablesLoading (variablesData (load_each env ks s))
  = isVariablesLoading (variablesData s).
Proof.
  revert s. induction ks as [|k ks IH]; intros s; simpl; [done|].
  rewrite IH. by destruct (loadSingle_frame env k s) as (-> & _).
Qed.

Lemma substitution_loop_flag indices i p queryContext s :
  isVariablesLoading
    (variablesData (substitution_loop env indices i p queryContext s).2)
  = isVariablesLoading (variablesData s).
Proof.
  revert queryContext s.
  induction indices as [|k rest IH]; intros queryContext s; simpl; [done|].
  destruct (values (variablesData s) !! k) as [variable|]; [|apply IH].
  destruct (negb (isLoading variable) && negb (isVariableLoadingPending variable));
    [apply IH|].
  destruct (string_includes _ _); [|apply IH]. by rewrite IH.
Qed.

Lemma rejectAllPromises_flag s :
  variablesData (rejectAllPromises s) = variablesData s.
Proof.
  unfold rejectAllPromises.
  apply (map_fold_weak_ind (λ r _, variablesData r = variablesData s)); [done|].
  intros key [p|] m r _ IH; done.
Qed.

Lemma onVariablesValueUpdated_flag i s :
  isVariablesLoading (variablesData (onVariablesValueUpdated env i s))
  = isVariablesLoading (variablesData s).
Proof.
  unfold onVariablesValueUpdated.
  destruct (values (variablesData s) !! i) as [cur|]; [|done].
  destruct (setLoadingStateToAllChildNode _ _ _ _) as [vs' c].
  destruct c; rewrite ?load_each_flag; done.
Qed.

Lemma afterLabels_flag p s s' :
  afterLabels env p s = Some s' →
  isVariablesLoading (variablesData s') = isVariablesLoading (variablesData s).
Proof.
  unfold afterLabels. intros H.
  destruct (loads s !! p) as [l|]; [|done].
  destruct (stage l); try done.
  destruct (values (variablesData s) !! variableIndex l) as [cur|]; [|done].
  match type of H with
  | context [substitution_loop env ?ks ?i ?p ?q ?s0] =>
      pose proof (substitution_loop_flag ks i p q s0) as Hf;
      destruct (substitution_loop env ks i p q s0) as [queryContext s1]
  end.
  simpl in Hf. destruct (_ || _); by simplify_eq.
Qed.

Lemma afterFieldValues_flag p r s s' :
  afterFieldValues p r s = Some s' →
  isVariablesLoading (variablesData s') = isVariablesLoading (variablesData s).
Proof.
  unfold afterFieldValues. intros H.
  destruct (loads s !! p) as [l|]; [|done].
  destruct (stage l); try done.
  destruct (values (variablesData s) !! variableIndex l) as [cur|]; [|done].
  destruct r as [|[|h hits]]; simplify_eq; try done.
  destruct (List.find _ _) as [h'|]; simplify_eq; [|done].
  unfold select_value. simpl.
  destruct (alter _ _ _ !! _); [|done].
  destruct (_ || _); [|done]. by destruct (reconcile _ _).
Qed.
End Flag.

(** X4 (who writes the snapshot flag).
    [isVariablesLoading] is written by one path only: an event changes it
    only if it is the reaction to a promise fulfilled with [true]. *)
Theorem flag_written_by_success_only (env : Environment) (e : Event)
    (s s' : State) :
  exec env e s = Some s' →
  isVariablesLoading (variablesData s') ≠ isVariablesLoading (variablesData s) →
  ∃ p l, e = PromiseSettled p ∧ loads s !! p = Some l
         ∧ promise l = Fulfilled true ∧ reacted l = false.
Proof.
  intros He Hne. destruct e as [|t|i x|p|p r|p]; simpl in He.
  - exfalso. apply Hne. simplify_eq. unfold loadAllVariablesData.
    destruct (invalid_time_range env s); [done|]. by rewrite load_each_flag.
  - exfalso. apply Hne. simplify_eq. unfold loadAllVariablesData.
    destruct (invalid_time_range env _); rewrite ?load_each_flag; simpl;
      by rewrite rejectAllPromises_flag.
  - exfalso. apply Hne. simplify_eq. by rewrite onVariablesValueUpdated_flag.
  - exfalso. apply Hne. by eapply afterLabels_flag.
  - exfalso. apply Hne. by eapply afterFieldValues_flag.
  - unfold react in He. destruct (loads s !! p) as [l|] eqn:Hl; [|done].
    destruct (reacted l) eqn:Hr; [done|].
    destruct (promise l) as [|[]|] eqn:Hp; simplify_eq.
    + by exists p, l.
    + exfalso. apply Hne. unfold onRejected. simpl.
      by destruct (values (variablesData s) !! variableIndex l).
Qed.

Lemma flag_written_by_success_only_witness :
  ∃ p l,
    PromiseSettled 0 = PromiseSettled p
    ∧ loads (state_after region_fetched) !! p = Some l
    ∧ promise l = Fulfilled true ∧ reacted l = false.
Proof.
  apply (flag_written_by_success_only sample_env (PromiseSettled 0)
           (state_after region_fetched) (state_after region_resolved)).
  - vm_compute. reflexivity.
  - vm_compute. discriminate.
Defined.

(** X5 (the snapshot flag after a success).
    When the reaction to a promise fulfilled with [true] runs for an
    existing variable, the flag it leaves is exact at the end of the event,
    attempts for the children included. *)
Theorem flag_exact_after_success (env : Environment) (p : nat) (l : Load)
    (s s' : State) :
  loads s !! p = Some l → promise l = Fulfilled true → reacted l = false →
  is_Some (values (variablesData s) !! variableIndex l) →
  react env p s = Some s' →
  isVariablesLoading (variablesData s')
  = any_loading_or_pending (values (variablesData s')).
Proof.
  intros Hl Hp Hr [cur Hi]. unfold react. rewrite Hl, Hr, Hp.
  intros [= <-]. unfold onFulfilled. simpl. rewrite Hi.
  destruct (variablesDependencyGraph _ !! _) as [node|]; [|done].
  by rewrite load_each_flag, load_each_any.
Qed.

Lemma flag_exact_after_success_witness :
  isVariablesLoading (variablesData (state_after region_resolved))
  = any_loading_or_pending
      (values (variablesData (state_after region_resolved))).
Proof.
  apply (flag_exact_after_success sample_env 0 (returned 0 (Fulfilled true))
           (state_after region_fetched) (state_after region_resolved)).
  - vm_compute. reflexivity.
  - reflexivity.
  - reflexivity.
  - exists fetched_region. vm_compute. reflexivity.
  - vm_compute. reflexivity.
Defined.

(** ** Reactions *)

(** X6 (the then callback).
    The reaction to a promise fulfilled with [true], whatever fulfilled it
    (a response, an empty response, a failed request, a variable that needs
    no request): the variable is marked neither loading nor pending, its
    value becomes the old value of its name, and one attempt is started for
    each variable listed among its children, in list order; no other old
    value changes. *)
Theorem success_reaction_cascades (env : Environment) (p : nat) (l : Load)
    (s : State) (currentVariable : VariableItem) :
  loads s !! p = Some l → promise l = Fulfilled true → reacted l = false →
  values (variablesData s) !! variableIndex l = Some currentVariable →
  ∃ s',
    react env p s = Some s'
    ∧ values (variablesData s') !! variableIndex l
      = Some (set_isVariableLoadingPending false
                (set_isLoading false currentVariable))
    ∧ oldVariablesData s'
      = <[name currentVariable := value currentVariable]> (oldVariablesData s)
    ∧ variableIndex <$> loads s'
      = ((variableIndex <$> loads s)
         ++ match variablesDependencyGraph s !! name currentVariable with
            | Some node =>
                childVariableIndices (childVariables node) 0
                  (values (variablesData s))
            | None => []
            end)%list.
Proof.
  intros Hl Hp Hr Hi. unfold react. rewrite Hl, Hr, Hp.
  eexists. split; [reflexivity|].
  unfold onFulfilled. simpl. rewrite Hi.
  match goal with
  | |- context [mark_loaded ?i ?c ?s0] => set (sm := mark_loaded i c s0)
  end.
  set (loaded :=
         set_isVariableLoadingPending false (set_isLoading false currentVariable)).
  assert (Hvm : values (variablesData sm) !! variableIndex l = Some loaded).
  { unfold sm, mark_loaded. simpl. by rewrite list_lookup_alter_eq, Hi. }
  assert (Hom : oldVariablesData sm
                = <[name currentVariable := value currentVariable]>
                    (oldVariablesData s)).
  { done. }
  assert (Hlm : variableIndex <$> loads sm = variableIndex <$> loads s).
  { unfold sm, mark_loaded. simpl. by rewrite indices_alter. }
  assert (Hnm : name <$> values (variablesData sm)
                = name <$> values (variablesData s)).
  { unfold sm, mark_loaded. simpl. by rewrite names_alter. }
  change (variablesDependencyGraph sm) with (variablesDependencyGraph s).
  destruct (variablesDependencyGraph s !! name currentVariable) as [node|].
  - change (alter _ (variableIndex l) _) with (values (variablesData sm)).
    split_and!.
    + by apply load_each_keeps_loaded.
    + by destruct (load_each_frame env
           (childVariableIndices (childVariables node) 0
              (values (variablesData sm))) sm) as [-> _].
    + by rewrite load_each_indices, Hlm,
        (childVariableIndices_names _ _ _ _ Hnm).
  - split_and!; try done. by rewrite app_nil_r.
Qed.

Lemma success_reaction_cascades_witness :
  ∃ s',
    react sample_env 0 (state_after region_fetched) = Some s'
    ∧ values (variablesData s') !! 0 = Some resolved_region
    ∧ oldVariablesData s' !! "region" = Some (VScalar (SStr "us-east"))
    ∧ variableIndex <$> loads s' = [0; 1; 1].
Proof.
  destruct (success_reaction_cascades sample_env 0 (returned 0 (Fulfilled true))
              (state_after region_fetched) fetched_region)
    as (s' & Hr & Hv & Ho & Hl).
  - vm_compute. reflexivity.
  - reflexivity.
  - reflexivity.
  - vm_compute. reflexivity.
  - exists s'. split; [exact Hr|]. split; [exact Hv|]. split.
    + rewrite Ho. apply lookup_insert_eq.
    + rewrite Hl. vm_compute. reflexivity.
Defined.

(** ** Cancellation handles *)

Lemma settle_settle st l : settle st (settle st l) = settle st l.
Proof. unfold settle. simpl. by destruct (promise l), st. Qed.

Lemma stored_lookup handles key q :
  handles !! key = Some (Some q) → stored handles q.
Proof. intros H. by exists key, (Some q). Qed.

Lemma rejectAllPromises_loads s :
  variablesData (rejectAllPromises s) = variablesData s
  ∧ oldVariablesData (rejectAllPromises s) = oldVariablesData s
  ∧ currentlyExecutingPromises (rejectAllPromises s)
    = currentlyExecutingPromises s
  ∧ selectedTimeDate (rejectAllPromises s) = selectedTimeDate s
  ∧ variablesDependencyGraph (rejectAllPromises s) = variablesDependencyGraph s
  ∧ ∀ q l, loads s !! q = Some l →
      (stored (currentlyExecutingPromises s) q →
       loads (rejectAllPromises s) !! q = Some (settle Rejected l))
      ∧ (¬ stored (currentlyExecutingPromises s) q →
         loads (rejectAllPromises s) !! q = Some l).
Proof.
  unfold rejectAllPromises.
  apply (map_fold_weak_ind
    (λ r m,
       variablesData r = variablesData s
       ∧ oldVariablesData r = oldVariablesData s
       ∧ currentlyExecutingPromises r = currentlyExecutingPromises s
       ∧ selectedTimeDate r = selectedTimeDate s
       ∧ variablesDependencyGraph r = variablesDependencyGraph s
       ∧ ∀ q l, loads s !! q = Some l →
           (stored m q → loads r !! q = Some (settle Rejected l))
           ∧ (¬ stored m q → loads r !! q = Some l))).
  - split_and!; try done. intros q l Hq. split; [|done].
    intros Hs. by apply map_Exists_empty in Hs.
  - intros key handle m r Hfresh (Hv & Ho & Hh & Ht & Hg & Hloads).
    assert (Hstored : ∀ q, stored (<[key:=handle]> m) q
                           ↔ handle = Some q ∨ stored m q).
    { intros q. unfold stored. by rewrite map_Exists_insert. }
    destruct handle as [p|]; simpl.
    + split_and!; try done. intros q l Hq.
      destruct (Hloads q l Hq) as [Hin Hout]. rewrite Hstored.
      destruct (decide (p = q)) as [->|Hne].
      * split; [|by intros []; left].
        intros _. rewrite list_lookup_alter_eq.
        destruct (decide (stored m q)) as [Hs|Hs].
        -- rewrite (Hin Hs). simpl. by rewrite settle_settle.
        -- by rewrite (Hout Hs).
      * rewrite list_lookup_alter_ne by done. split.
        -- intros [[=]|Hs]; [done|by apply Hin].
        -- intros Hs. apply Hout. intros ?. apply Hs. by right.
    + split_and!; try done. intros q l Hq.
      destruct (Hloads q l Hq) as [Hin Hout]. rewrite Hstored. split.
      * intros [[=]|Hs]. by apply Hin.
      * intros Hs. apply Hout. intros ?. apply Hs. by right.
Qed.

(** X7 (rejectAllPromises).
    [rejectAllPromises] rejects the promises stored as handles, those still
    pending, and nothing else: every other promise, the handles themselves
    (they are not cleared), the variables and the old values are as
    before. *)
Theorem rejectAllPromises_rejects_stored (s : State) (q : nat) (l : Load) :
  loads s !! q = Some l →
  ∃ l',
    loads (rejectAllPromises s) !! q = Some l'
    ∧ variableIndex l' = variableIndex l ∧ stage l' = stage l
    ∧ reacted l' = reacted l
    ∧ (stored (currentlyExecutingPromises s) q → promise l = Pending →
       promise l' = Rejected)
    ∧ (¬ stored (currentlyExecutingPromises s) q ∨ promise l ≠ Pending →
       promise l' = promise l)
    ∧ variablesData (rejectAllPromises s) = variablesData s
    ∧ oldVariablesData (rejectAllPromises s) = oldVariablesData s
    ∧ currentlyExecutingPromises (rejectAllPromises s)
      = currentlyExecutingPromises s.
Proof.
  intros Hq.
  destruct (rejectAllPromises_loads s) as (Hv & Ho & Hh & _ & _ & Hloads).
  destruct (Hloads q l Hq) as [Hin Hout].
  destruct (decide (stored (currentlyExecutingPromises s) q)) as [Hs|Hs].
  - exists (settle Rejected l). rewrite (Hin Hs). split_and!; try done.
    + intros _ Hp. unfold settle. simpl. by rewrite Hp.
    + intros [?|Hp]; [done|]. unfold settle. simpl. by destruct (promise l).
  - exists l. rewrite (Hout Hs). by split_and!.
Qed.

Lemma rejectAllPromises_rejects_stored_witness :
  ∃ l', loads (rejectAllPromises first_cycle) !! 0 = Some l'
        ∧ promise l' = Rejected.
Proof.
  destruct (rejectAllPromises_rejects_stored first_cycle 0
              {| variableIndex := 0; promise := Pending;
                 reacted := false; stage := AwaitLabels |})
    as (l' & Hl' & _ & _ & _ & Hrej & _).
  - vm_compute. reflexivity.
  - exists l'. split; [exact Hl'|]. apply Hrej; [|reflexivity].
    apply (stored_lookup _ "region"). vm_compute. reflexivity.
Defined.

(** ** What an attempt does to the promises *)

Section Promises.
Context (env : Environment).

(** An attempt settles no promise but its own and the one stored as the
    handle of its variable's name. *)
Lemma loadSingle_other_promises i s q :
  q < length (loads s) →
  (∀ cur, values (variablesData s) !! i = Some cur →
          currentlyExecutingPromises s !! name cur ≠ Some (Some q)) →
  loads (loadSingleVariableDataByIndex env i s) !! q = loads s !! q.
Proof.
  intros Hq Hh. unfold loadSingleVariableDataByIndex. simpl.
  destruct (values (variablesData s) !! i) as [cur|] eqn:Hi; simpl.
  2: { rewrite list_lookup_alter_ne by lia. by rewrite lookup_app_l. }
  specialize (Hh cur eq_refl).
  assert (Hrej : ∀ ls0 : list Load,
            ls0 = match currentlyExecutingPromises s !! name cur with
                  | Some (Some q') =>
                      alter (settle Rejected) q'
                        (loads s ++ [{| variableIndex := i; promise := Pending;
                                        reacted := false; stage := Returned |}])
                  | _ => (loads s ++ [{| variableIndex := i; promise := Pending;
                                         reacted := false; stage := Returned |}])
                  end%list →
            ls0 !! q = loads s !! q).
  { intros ls0 ->.
    destruct (currentlyExecutingPromises s !! name cur) as [[q'|]|];
      rewrite ?list_lookup_alter_ne by congruence; by rewrite lookup_app_l. }
  destruct (currentlyExecutingPromises s !! name cur) as [[q'|]|] eqn:Hcur;
    simpl;
    repeat match goal with
      | |- context [match ?x with _ => _ end] => destruct x eqn:?; simpl
      end;
    rewrite ?list_lookup_alter_ne by lia;
    by apply Hrej.
Qed.

Lemma loadSingle_handle_promise i s cur q l :
  values (variablesData s) !! i = Some cur →
  currentlyExecutingPromises s !! name cur = Some (Some q) →
  loads s !! q = Some l →
  loads (loadSingleVariableDataByIndex env i s) !! q = Some (settle Rejected l).
Proof.
  intros Hi Hq Hl. pose proof (lookup_lt_Some _ _ _ Hl) as Hlt.
  assert (Hrej : (alter (settle Rejected) q (loads s ++
                    [{| variableIndex := i; promise := Pending;
                        reacted := false; stage := Returned |}])%list) !! q
                 = Some (settle Rejected l)).
  { by rewrite list_lookup_alter_eq, lookup_app_l, Hl. }
  unfold loadSingleVariableDataByIndex. simpl. rewrite Hi, Hq. simpl.
  repeat match goal with
    | |- context [match ?x with _ => _ end] => destruct x eqn:?; simpl
    end;
  rewrite ?list_lookup_alter_ne by lia; done.
Qed.

Lemma loadSingle_promise_kept i s q l :
  loads s !! q = Some l →
  ∃ l', loads (loadSingleVariableDataByIndex env i s) !! q = Some l'
        ∧ variableIndex l' = variableIndex l
        ∧ reacted l' = reacted l ∧ stage l' = stage l
        ∧ (promise l ≠ Pending → promise l' = promise l)
        ∧ (promise l' = promise l ∨ promise l' = Rejected).
Proof.
  intros Hl. pose proof (lookup_lt_Some _ _ _ Hl) as Hlt.
  assert (Hsame : loads (loadSingleVariableDataByIndex env i s) !! q = loads s !! q →
    ∃ l', loads (loadSingleVariableDataByIndex env i s) !! q = Some l'
        ∧ variableIndex l' = variableIndex l
        ∧ reacted l' = reacted l ∧ stage l' = stage l
        ∧ (promise l ≠ Pending → promise l' = promise l)
        ∧ (promise l' = promise l ∨ promise l' = Rejected)).
  { intros ->. exists l. split_and!; try done. by left. }
  destruct (values (variablesData s) !! i) as [cur|] eqn:Hi.
  - destruct (decide (currentlyExecutingPromises s !! name cur = Some (Some q)))
      as [Hq|Hq].
    + exists (settle Rejected l).
      rewrite (loadSingle_handle_promise i s cur q l Hi Hq Hl).
      unfold settle. simpl. split_and!; try done.
      * by destruct (promise l).
      * destruct (promise l); [by right|by left|by left].
    + apply Hsame, loadSingle_other_promises; [lia|].
      intros cur' ?. by simplify_eq.
  - apply Hsame, loadSingle_other_promises; [lia|].
    intros cur' ?. by simplify_eq.
Qed.

Lemma load_each_promise_kept ks s q l :
  loads s !! q = Some l →
  ∃ l', loads (load_each env ks s) !! q = Some l'
        ∧ variableIndex l' = variableIndex l
        ∧ reacted l' = reacted l ∧ stage l' = stage l
        ∧ (promise l ≠ Pending → promise l' = promise l)
        ∧ (promise l' = promise l ∨ promise l' = Rejected).
Proof.
  revert s l. induction ks as [|k ks IH]; intros s l Hl; simpl.
  { exists l. split_and!; try done. by left. }
  destruct (loadSingle_promise_kept k s q l Hl)
    as (l1 & Hl1 & Hi1 & Hr1 & Hs1 & Hk1 & Hc1).
  destruct (IH _ l1 Hl1) as (l' & Hl' & Hi' & Hr' & Hs' & Hk' & Hc').
  exists l'. split_and!; try congruence.
  - intros Hp. rewrite Hk'; [by apply Hk1|]. by rewrite Hk1.
  - destruct Hc' as [Hc'|Hc']; rewrite Hc'; [done|by right].
Qed.
End Promises.

(** X8 (the catch callback clears the handle).
    The [catch] callback of a cancelled load clears the handle of its
    variable's name whatever is stored there, so the next attempt for that
    variable cancels nothing: every other load, in flight or not, is left as
    it is. *)
Theorem stale_rejection_unprotects_loads (env : Environment) (p q : nat)
    (l lq : Load) (s : State) (currentVariable : VariableItem) :
  loads s !! p = Some l → promise l = Rejected → reacted l = false →
  values (variablesData s) !! variableIndex l = Some currentVariable →
  loads s !! q = Some lq → q ≠ p →
  ∃ s',
    react env p s = Some s'
    ∧ currentlyExecutingPromises s' !! name currentVariable = Some None
    ∧ loads (loadSingleVariableDataByIndex env (variableIndex l) s') !! q
      = Some lq.
Proof.
  intros Hl Hp Hr Hi Hq Hne. unfold react. rewrite Hl, Hr, Hp.
  eexists. split; [reflexivity|]. unfold onRejected.
  cbn [values variablesData set_loads]. rewrite Hi.
  split; [apply lookup_insert_eq|].
  rewrite loadSingle_other_promises; simpl.
  - by rewrite list_lookup_alter_ne.
  - rewrite length_alter. by eapply lookup_lt_Some.
  - intros cur. rewrite list_lookup_alter_eq, Hi. intros [= <-].
    by rewrite lookup_insert_eq.
Qed.

Lemma stale_rejection_unprotects_loads_witness :
  ∃ s',
    react sample_env 0 (state_after region_superseded) = Some s'
    ∧ currentlyExecutingPromises s' !! "region" = Some None
    ∧ loads (loadSingleVariableDataByIndex sample_env 0 s') !! 2
      = Some {| variableIndex := 0; promise := Pending;
                reacted := false; stage := AwaitLabels |}.
Proof.
  apply (stale_rejection_unprotects_loads sample_env 0 2
           {| variableIndex := 0; promise := Rejected; reacted := false;
              stage := AwaitFieldValues "SELECT _timestamp FROM 'logs'" |}
           {| variableIndex := 0; promise := Pending;
              reacted := false; stage := AwaitLabels |}
           (state_after region_superseded) (set_isLoading true region)).
  - vm_compute. reflexivity.
  - reflexivity.
  - reflexivity.
  - vm_compute. reflexivity.
  - vm_compute. reflexivity.
  - lia.
Defined.

(** ** The first wave of a cycle *)

Section FirstWave.
Context (env : Environment).

Lemma parent_not_loaded_absent vs parent :
  parent ∉ (name <$> vs) → parent_not_loaded vs parent = false.
Proof.
  intros Hp. unfold parent_not_loaded.
  destruct (list_find _ vs) as [[i x]|] eqn:Hf; [|done].
  apply list_find_Some in Hf as (Hi & Hx & _). exfalso. apply Hp.
  rewrite <- Hx. apply list_elem_of_fmap_2. by eapply list_elem_of_lookup_2.
Qed.

Lemma parent_not_loaded_pending vs parent :
  all_pending vs → parent ∈ (name <$> vs) → parent_not_loaded vs parent = true.
Proof.
  intros Hall (w & -> & Hw)%list_elem_of_fmap. unfold parent_not_loaded.
  destruct (list_find_elem_of (λ variable, name variable = name w) vs w Hw eq_refl)
    as [[i x] Hf].
  rewrite Hf. apply list_find_Some in Hf as (Hi & _ & _).
  rewrite (Hall x); [by rewrite orb_true_r|]. by eapply list_elem_of_lookup_2.
Qed.

Lemma not_blocked_iff_root node vs :
  all_pending vs → names_nonempty vs →
  isAnyDepndentVariableLoadingPending node vs = false
  ↔ ∀ parent, parent ∈ parentVariables node → parent ∉ (name <$> vs).
Proof.
  intros Hall Hne. unfold isAnyDepndentVariableLoadingPending. split.
  - destruct (List.find _ _) as [p|] eqn:Hf.
    + intros Hb. exfalso. apply List.find_some in Hf as [_ Hp].
      apply negb_false_iff, String.eqb_eq in Hb. subst p.
      unfold parent_not_loaded in Hp.
      destruct (list_find _ vs) as [[i x]|] eqn:Hx; [|done].
      apply list_find_Some in Hx as (Hi & Hx & _).
      apply (Hne x); [|done]. by eapply list_elem_of_lookup_2.
    + intros _ parent Hparent Hin.
      pose proof (List.find_none _ _ Hf parent) as Hn.
      rewrite parent_not_loaded_pending in Hn by done.
      by specialize (Hn ltac:(by apply list_elem_of_In)).
  - intros Hroot. destruct (List.find _ _) as [p|] eqn:Hf; [|done].
    apply List.find_some in Hf as [Hin Hp].
    rewrite parent_not_loaded_absent in Hp; [done|].
    by apply Hroot, list_elem_of_In.
Qed.

Lemma all_pending_flags vs :
  all_pending vs ↔ Forall (eq true) (isVariableLoadingPending <$> vs).
Proof.
  rewrite Forall_fmap, Forall_forall. unfold all_pending. simpl.
  split; intros H v Hv; by rewrite (H v Hv).
Qed.

Lemma loadSingle_all_pending k s :
  all_pending (values (variablesData s)) →
  all_pending (values (variablesData (loadSingleVariableDataByIndex env k s))).
Proof.
  rewrite !all_pending_flags. by rewrite (loadSingle_pending_flags env).
Qed.

Lemma load_each_all_pending ks s :
  all_pending (values (variablesData s)) →
  all_pending (values (variablesData (load_each env ks s))).
Proof.
  revert s. induction ks as [|k ks IH]; intros s H; simpl; [done|].
  by apply IH, loadSingle_all_pending.
Qed.

Lemma loadAll_all_pending s :
  invalid_time_range env s = false →
  all_pending (values (variablesData (loadAllVariablesData env s))).
Proof.
  intros Ht. unfold loadAllVariablesData. rewrite Ht.
  apply load_each_all_pending.
  intros w (w0 & -> & _)%list_elem_of_fmap. done.
Qed.

(** Under "everything pending", what one attempt does to a [query_values]
    variable depends on the graph and the names only. *)
Lemma loadSingle_wave k s j v :
  all_pending (values (variablesData s)) →
  names_nonempty (values (variablesData s)) →
  invalid_time_range env s = false →
  values (variablesData s) !! j = Some v → type v = query_values →
  ∃ v', values (variablesData (loadSingleVariableDataByIndex env k s)) !! j
        = Some v'
        ∧ name v' = name v ∧ type v' = type v
        ∧ value v' = value v ∧ options v' = options v
        ∧ (isLoading v' = true
           ↔ isLoading v = true
             ∨ (k = j ∧ root (variablesDependencyGraph s)
                          (values (variablesData s)) v)).
Proof.
  intros Hall Hne Ht Hj Hq. rewrite loadSingle_values.
  destruct (decide (k = j)) as [->|Hkj].
  - rewrite Hj. unfold eligible. rewrite Hj, Ht.
    rewrite (Hall v) by (by eapply list_elem_of_lookup_2). simpl.
    destruct (variablesDependencyGraph s !! name v) as [node|] eqn:Hg.
    + destruct (isAnyDepndentVariableLoadingPending node _) eqn:Hb; simpl.
      * exists v. split_and!; try done. split; [by left|].
        intros [?|[_ (node' & Hg' & Hroot)]]; [done|]. simplify_eq.
        apply not_blocked_iff_root in Hroot; [|done..]. congruence.
      * exists (set_isLoading true v).
        rewrite list_lookup_alter_eq, Hj. unfold begin_load. rewrite Hq.
        split_and!; try done. split; [|done]. intros _. right. split; [done|].
        exists node. split; [done|]. by apply not_blocked_iff_root.
    + exists v. split_and!; try done. split; [by left|].
      intros [?|[_ (node' & Hg' & _)]]; [done|congruence].
  - exists v. split_and!; try done.
    + destruct (values (variablesData s) !! k); [|done].
      destruct (eligible env k s); [|done]. by rewrite list_lookup_alter_ne.
    + split; [by left|]. by intros [?|[? _]].
Qed.

Lemma load_each_wave ks s j v :
  all_pending (values (variablesData s)) →
  names_nonempty (values (variablesData s)) →
  invalid_time_range env s = false →
  values (variablesData s) !! j = Some v → type v = query_values →
  ∃ v', values (variablesData (load_each env ks s)) !! j = Some v'
        ∧ name v' = name v ∧ type v' = type v
        ∧ value v' = value v ∧ options v' = options v
        ∧ (isLoading v' = true
           ↔ isLoading v = true
             ∨ (j ∈ ks ∧ root (variablesDependencyGraph s)
                           (values (variablesData s)) v)).
Proof.
  revert s v. induction ks as [|k ks IH]; intros s v Hall Hne Ht Hj Hq; simpl.
  { exists v. split_and!; try done. split; [by left|].
    intros [?|[Hin _]]; [done|]. by apply elem_of_nil in Hin. }
  destruct (loadSingle_wave k s j v Hall Hne Ht Hj Hq)
    as (v1 & Hv1 & Hn1 & Ht1 & Hval1 & Ho1 & Hl1).
  set (s1 := loadSingleVariableDataByIndex env k s) in *.
  assert (Hnames : name <$> values (variablesData s1)
                   = name <$> values (variablesData s)).
  { apply loadSingle_names. }
  destruct (loadSingle_frame env k s) as (_ & Hg & _ & Htime).
  fold s1 in Hg, Htime.
  destruct (IH s1 v1) as (v' & Hv' & Hn' & Ht' & Hval' & Ho' & Hl').
  - by apply loadSingle_all_pending.
  - by eapply names_nonempty_same.
  - unfold invalid_time_range in *. by rewrite Htime.
  - done.
  - congruence.
  - exists v'. split_and!; try congruence.
    rewrite Hl', Hl1. unfold root. rewrite Hg, Hnames, Hn1.
    rewrite elem_of_cons. intuition (subst; tauto).
Qed.
Lemma loadAll_wave s j v :
  invalid_time_range env s = false →
  names_nonempty (values (variablesData s)) →
  values (variablesData s) !! j = Some v → type v = query_values →
  all_pending (values (variablesData (loadAllVariablesData env s)))
  ∧ ∃ v', values (variablesData (loadAllVariablesData env s)) !! j = Some v'
          ∧ value v' = value v ∧ options v' = options v
          ∧ (isLoading v' = true
             ↔ isLoading v = true
               ∨ root (variablesDependencyGraph s) (values (variablesData s)) v).
Proof.
  intros Ht Hne Hj Hq. unfold loadAllVariablesData. rewrite Ht.
  set (s0 := set_values _ s).
  assert (Hall : all_pending (values (variablesData s0))).
  { intros w (w0 & -> & _)%list_elem_of_fmap. done. }
  assert (Hn0 : name <$> values (variablesData s0)
                = name <$> values (variablesData s)).
  { apply (calm_names _ _ (calm_fmap_pending s)). }
  split.
  - apply load_each_all_pending. exact Hall.
  - destruct (load_each_wave
                (seq 0 (length (values (variablesData s0)))) s0 j
                (set_isVariableLoadingPending true v))
      as (v' & Hv' & _ & _ & Hval & Ho & Hl); try done.
    + by eapply names_nonempty_same.
    + simpl. by rewrite list_lookup_fmap, Hj.
    + exists v'. split_and!; try done. rewrite Hl.
      unfold root. rewrite Hn0. simpl.
      assert (Hin : j ∈ seq 0 (length (set_isVariableLoadingPending true
                                         <$> values (variablesData s)))).
      { apply elem_of_seq. rewrite length_fmap.
        apply lookup_lt_Some in Hj. lia. }
      tauto.
Qed.
End FirstWave.

(** X9 (the first wave of a cycle).
    [loadAllVariablesData] under an accepted time range: every variable
    ends pending, and a [query_values] variable is loading afterwards exactly
    if it was loading already or is a root of the graph (it has an entry,
    and no parent listed there names a variable); its value and options are
    not touched. *)
Theorem loadAll_starts_the_roots (env : Environment) (s : State) (j : nat)
    (v : VariableItem) :
  invalid_time_range env s = false →
  names_nonempty (values (variablesData s)) →
  values (variablesData s) !! j = Some v → type v = query_values →
  all_pending (values (variablesData (loadAllVariablesData env s)))
  ∧ ∃ v', values (variablesData (loadAllVariablesData env s)) !! j = Some v'
          ∧ value v' = value v ∧ options v' = options v
          ∧ (isLoading v' = true
             ↔ isLoading v = true
               ∨ root (variablesDependencyGraph s) (values (variablesData s)) v).
Proof. apply loadAll_wave. Qed.

Lemma loadAll_starts_the_roots_witness :
  all_pending
    (values (variablesData (loadAllVariablesData sample_env (mounted last_hour))))
  ∧ ∃ v', values (variablesData
                    (loadAllVariablesData sample_env (mounted last_hour))) !! 0
          = Some v'
          ∧ value v' = value region ∧ options v' = options region
          ∧ (isLoading v' = true
             ↔ isLoading region = true
               ∨ root sample_graph [region; host] region).
Proof.
  apply (loadAll_starts_the_roots sample_env (mounted last_hour) 0 region).
  - reflexivity.
  - exact sample_names_nonempty.
  - reflexivity.
  - reflexivity.
Defined.

(** ** The cascade to the children *)

Section Cascade.
Context (env : Environment).

Lemma find_all_false {A} (f : A → bool) (l : list A) :
  (∀ x, x ∈ l → f x = false) → List.find f l = None.
Proof.
  induction l as [|x l IH]; intros H; simpl; [done|].
  rewrite (H x) by apply list_elem_of_here.
  apply IH. intros y Hy. by apply H, list_elem_of_further.
Qed.

Lemma resolved_not_blocked node vs :
  parents_resolved node vs →
  isAnyDepndentVariableLoadingPending node vs = false.
Proof.
  intros Hres. unfold isAnyDepndentVariableLoadingPending.
  rewrite find_all_false; [done|]. intros parent Hparent.
  unfold parent_not_loaded.
  destruct (list_find _ vs) as [[i x]|] eqn:Hf; [|done].
  apply list_find_Some in Hf as (Hi & Hx & _).
  destruct (Hres parent x Hparent) as [-> ->]; [|done..].
  by eapply list_elem_of_lookup_2.
Qed.

Lemma may_load_eligible s k : may_load env s k → eligible env k s = true.
Proof.
  intros (v & node & Hk & Hp & Hs & He & Hg & Hres).
  unfold eligible, invalid_time_range. rewrite Hk, Hp, Hs, He, Hg. simpl.
  by rewrite resolved_not_blocked.
Qed.

Lemma loadSingle_keeps_loading k s j v :
  values (variablesData s) !! j = Some v →
  ∃ v', values (variablesData (loadSingleVariableDataByIndex env k s)) !! j
        = Some v'
        ∧ type v' = type v
        ∧ (isLoading v = true → isLoading v' = true).
Proof.
  intros Hj. rewrite loadSingle_values.
  destruct (values (variablesData s) !! k) as [cur|] eqn:Hk; [|by exists v].
  destruct (eligible env k s); [|by exists v].
  destruct (decide (k = j)) as [->|Hne].
  - exists (begin_load s cur v). rewrite list_lookup_alter_eq, Hj.
    split; [done|]. unfold begin_load.
    destruct (type cur); try done. by destruct (reconcile _ _).
  - exists v. by rewrite list_lookup_alter_ne.
Qed.

Lemma load_each_keeps_loading ks s j v :
  values (variablesData s) !! j = Some v → isLoading v = true →
  ∃ v', values (variablesData (load_each env ks s)) !! j = Some v'
        ∧ isLoading v' = true.
Proof.
  revert s v. induction ks as [|k ks IH]; intros s v Hj Hl; simpl;
    [by exists v|].
  destruct (loadSingle_keeps_loading k s j v Hj) as (v1 & Hv1 & _ & Hl1).
  by apply (IH _ v1 Hv1), Hl1.
Qed.

Lemma load_each_starts ks s k v :
  k ∈ ks → may_load env s k →
  values (variablesData s) !! k = Some v → type v = query_values →
  ∃ v', values (variablesData (load_each env ks s)) !! k = Some v'
        ∧ isLoading v' = true.
Proof.
  revert s v. induction ks as [|k0 ks IH]; intros s v Hin Hmay Hk Hq.
  { by apply elem_of_nil in Hin. }
  simpl. destruct (decide (k0 = k)) as [->|Hne].
  - apply (load_each_keeps_loading ks _ k (set_isLoading true v)); [|done].
    rewrite loadSingle_values, Hk, (may_load_eligible s k Hmay).
    rewrite list_lookup_alter_eq, Hk. unfold begin_load. by rewrite Hq.
  - apply elem_of_cons in Hin as [?|Hin]; [congruence|].
    destruct (loadSingle_keeps_loading k0 s k v Hk) as (v1 & Hv1 & Ht1 & _).
    apply (IH _ v1 Hin); [by apply loadSingle_may_load|done|congruence].
Qed.

Lemma childVariableIndices_elem children index (vs : list VariableItem) k v :
  vs !! k = Some v → name v ∈ children →
  index + k ∈ childVariableIndices children index vs.
Proof.
  revert index k. induction vs as [|w vs IH]; intros index k Hk Hin; [done|].
  simpl. destruct k as [|k]; simpl in Hk.
  - simplify_eq. unfold includes. rewrite bool_decide_eq_true_2 by done.
    rewrite Nat.add_0_r. apply list_elem_of_here.
  - replace (index + S k) with (S index + k) by lia.
    destruct (includes children (name w));
      [apply list_elem_of_further|]; by apply IH.
Qed.
End Cascade.

(** X10 (the cascade to the children).
    When a variable resolves, each child that is a pending [query_values]
    variable, has a graph entry, and has no other parent loading or pending,
    begins loading in the same reaction, provided the time range is
    accepted. *)
Theorem resolution_starts_ready_children (env : Environment) (p : nat)
    (l : Load) (s : State) (currentVariable child : VariableItem)
    (node childNode : GraphNode) (k : nat) :
  loads s !! p = Some l → promise l = Fulfilled true → reacted l = false →
  values (variablesData s) !! variableIndex l = Some currentVariable →
  variablesDependencyGraph s !! name currentVariable = Some node →
  values (variablesData s) !! k = Some child → k ≠ variableIndex l →
  name child ∈ childVariables node →
  type child = query_values → isVariableLoadingPending child = true →
  invalid_time_range env s = false →
  variablesDependencyGraph s !! name child = Some childNode →
  (∀ parent j w, parent ∈ parentVariables childNode →
     values (variablesData s) !! j = Some w → name w = parent →
     j = variableIndex l
     ∨ (isLoading w = false ∧ isVariableLoadingPending w = false)) →
  ∃ s' child',
    react env p s = Some s'
    ∧ values (variablesData s') !! k = Some child'
    ∧ isLoading child' = true.
Proof.
  intros Hl Hp Hr Hi Hg Hk Hne Hchild Hq Hpend Ht Hcg Hparents.
  unfold react. rewrite Hl, Hr, Hp.
  eexists. unfold onFulfilled. simpl. rewrite Hi.
  match goal with
  | |- context [mark_loaded ?i ?c ?s0] => set (sm := mark_loaded i c s0)
  end.
  change (variablesDependencyGraph sm) with (variablesDependencyGraph s).
  rewrite Hg.
  assert (Hkm : values (variablesData sm) !! k = Some child).
  { unfold sm, mark_loaded. simpl. by rewrite list_lookup_alter_ne. }
  assert (Hmay : may_load env sm k).
  { apply orb_false_iff in Ht as [Hs He].
    exists child, childNode. split_and!; try done.
    intros parent w Hparent Hw Hn.
    apply list_elem_of_lookup in Hw as [j Hj]. unfold sm, mark_loaded in Hj.
    simpl in Hj. destruct (decide (variableIndex l = j)) as [<-|Hji].
    - rewrite list_lookup_alter_eq, Hi in Hj. by simplify_eq/=.
    - rewrite list_lookup_alter_ne in Hj by done.
      destruct (Hparents parent j w Hparent Hj Hn) as [?|?]; [congruence|done]. }
  destruct (load_each_starts env
              (childVariableIndices (childVariables node) 0
                 (values (variablesData sm))) sm k child) as (child' & Hc' & Hl');
    try done.
  - by apply (childVariableIndices_elem _ 0 _ k child).
  - exists child'. split; [reflexivity|]. split; [|done]. exact Hc'.
Qed.

Lemma resolution_starts_ready_children_witness :
  ∃ s' child',
    react sample_env 0 (state_after region_fetched) = Some s'
    ∧ values (variablesData s') !! 1 = Some child'
    ∧ isLoading child' = true.
Proof.
  apply (resolution_starts_ready_children sample_env 0
           (returned 0 (Fulfilled true)) (state_after region_fetched)
           fetched_region host
           {| parentVariables := []; childVariables := ["host"] |}
           {| parentVariables := ["region"]; childVariables := [] |} 1).
  - vm_compute. reflexivity.
  - reflexivity.
  - reflexivity.
  - vm_compute. reflexivity.
  - vm_compute. reflexivity.
  - vm_compute. reflexivity.
  - simpl. lia.
  - apply list_elem_of_here.
  - reflexivity.
  - reflexivity.
  - vm_compute. reflexivity.
  - vm_compute. reflexivity.
  - intros parent j w Hparent Hj Hname.
    destruct j as [|[|j]]; [by left| |].
    + vm_compute in Hj. injection Hj as <-. subst parent.
      apply list_elem_of_singleton in Hparent. discriminate.
    + vm_compute in Hj. discriminate.
Defined.

(** ** Dependency cycles *)

Lemma reaches_cycle_child graph x :
  reaches_cycle graph x →
  ∃ node c, graph !! x = Some node ∧ c ∈ childVariables node
            ∧ reaches_cycle graph c.
Proof.
  intros (y & Hxy & Hy).
  assert (Hd : descendant graph x y) by (by destruct Hxy as [->|]).
  apply descendant_inv in Hd as (c & (node & Hnode & Hc) & Hcy).
  exists node, c. split_and!; try done. by exists y.
Qed.

Lemma mark_children_abnormal recurse children vs c :
  c ∈ children → (∀ vs1, (recurse c vs1).2 ≠ Normal) →
  (mark_children recurse children vs).2 ≠ Normal.
Proof.
  intros Hin Hrec. revert vs.
  induction children as [|c0 rest IH]; intros vs; simpl.
  { by apply elem_of_nil in Hin. }
  destruct (list_find _ vs) as [[k w]|] eqn:Hf; [|done].
  apply list_find_Some in Hf as (_ & Hname & _). rewrite Hname.
  destruct (recurse c0 _) as [vs' completion] eqn:Hr.
  destruct completion; try done. simpl.
  apply elem_of_cons in Hin as [->|Hin].
  - exfalso. eapply Hrec. by rewrite Hr.
  - by apply IH.
Qed.

Lemma setLoading_abnormal depth graph x vs :
  reaches_cycle graph x →
  (setLoadingStateToAllChildNode depth graph x vs).2 ≠ Normal.
Proof.
  revert x vs. induction depth as [|d IH]; intros x vs Hx; simpl; [done|].
  destruct (reaches_cycle_child graph x Hx) as (node & c & Hnode & Hc & Hcyc).
  rewrite Hnode. apply (mark_children_abnormal _ _ _ c Hc).
  intros vs1. by apply IH.
Qed.

(** X11 (dependency cycles).
    When the edited variable reaches a dependency cycle, the marking never
    ends normally, whatever room the call stack has, and
    [onVariablesValueUpdated] leaves before starting any attempt: the loads
    and the handles are as before; the edited value is recorded as the old
    value all the same. *)
Theorem cycle_stops_the_update (env : Environment) (s : State) (i : nat)
    (currentVariable : VariableItem) :
  values (variablesData s) !! i = Some currentVariable →
  reaches_cycle (variablesDependencyGraph s) (name currentVariable) →
  (∀ depth vs,
     (setLoadingStateToAllChildNode depth (variablesDependencyGraph s)
        (name currentVariable) vs).2 ≠ Normal)
  ∧ loads (onVariablesValueUpdated env i s) = loads s
  ∧ currentlyExecutingPromises (onVariablesValueUpdated env i s)
    = currentlyExecutingPromises s
  ∧ oldVariablesData (onVariablesValueUpdated env i s)
    = <[name currentVariable := value currentVariable]> (oldVariablesData s).
Proof.
  intros Hi Hcyc. split.
  { intros depth vs. by apply setLoading_abnormal. }
  unfold onVariablesValueUpdated. rewrite Hi.
  set (s1 := set_oldVariablesData _ s).
  pose proof (setLoading_abnormal (call_stack_limit env)
                (variablesDependencyGraph s1) (name currentVariable)
                (values (variablesData s1)) Hcyc) as Hab.
  destruct (setLoadingStateToAllChildNode _ _ _ _) as [vs' completion].
  by destruct completion.
Qed.

Lemma cycle_stops_the_update_witness :
  (∀ depth vs,
     (setLoadingStateToAllChildNode depth cyclic_graph "region" vs).2 ≠ Normal)
  ∧ loads (onVariablesValueUpdated sample_env 0 entangled) = []
  ∧ currentlyExecutingPromises (onVariablesValueUpdated sample_env 0 entangled)
    = ∅
  ∧ oldVariablesData (onVariablesValueUpdated sample_env 0 entangled)
    = <["region" := VScalar SNull]> ∅.
Proof.
  apply (cycle_stops_the_update sample_env entangled 0 region eq_refl).
  exact cyclic_graph_cycle.
Defined.

(** ** Editing a resolved variable *)

(** X12 (an edited value).
    An edit of a variable that is not pending and is not its own descendant
    sticks: after [onVariablesValueUpdated] the variable holds the edited
    value, is otherwise as before, and the edited value is its old value. *)
Theorem edit_of_resolved_variable_sticks (env : Environment) (s : State)
    (i : nat) (v : VariableItem) (x : jsvalue) :
  values (variablesData s) !! i = Some v →
  isVariableLoadingPending v = false →
  ¬ descendant (variablesDependencyGraph s) (name v) (name v) →
  ∃ s',
    exec env (ValueEdited i x) s = Some s'
    ∧ values (variablesData s') !! i = Some (set_value x v)
    ∧ oldVariablesData s' !! name v = Some x.
Proof.
  intros Hi Hp Hself. eexists. split; [reflexivity|].
  unfold onVariablesValueUpdated. simpl.
  rewrite list_lookup_alter_eq, Hi. simpl.
  match goal with
  | |- context [setLoadingStateToAllChildNode ?d ?g ?n ?vs] =>
      pose proof (setLoading_within d g n vs) as [_ Hm];
      destruct (setLoadingStateToAllChildNode d g n vs) as [vs' completion]
  end.
  simpl in Hm.
  assert (Hvi : vs' !! i = Some (set_value x v)).
  { destruct (Hm i (set_value x v)) as [Hv|[Hd _]]; [|done..].
    by rewrite list_lookup_alter_eq, Hi. }
  destruct completion; simpl.
  - split.
    + by apply load_each_keeps_loaded.
    + match goal with
      | |- oldVariablesData (load_each env ?ks ?s0) !! _ = _ =>
          destruct (load_each_frame env ks s0) as [-> _]
      end.
      apply lookup_insert_eq.
  - split; [done|apply lookup_insert_eq].
  - split; [done|apply lookup_insert_eq].
Qed.

Lemma edit_of_resolved_variable_sticks_witness :
  ∃ s',
    exec sample_env (ValueEdited 0 (VScalar (SStr "us-west")))
      (state_after region_resolved) = Some s'
    ∧ values (variablesData s') !! 0
      = Some (set_value (VScalar (SStr "us-west")) resolved_region)
    ∧ oldVariablesData s' !! "region" = Some (VScalar (SStr "us-west")).
Proof.
  apply (edit_of_resolved_variable_sticks sample_env
           (state_after region_resolved) 0 resolved_region
           (VScalar (SStr "us-west"))).
  - vm_compute. reflexivity.
  - reflexivity.
  - replace (variablesDependencyGraph (state_after region_resolved))
      with sample_graph by (vm_compute; reflexivity).
    apply sample_graph_acyclic.
Defined.

(** ** The outcome of a request *)

Lemma catch_block_outcome i p s l v :
  loads s !! p = Some l → values (variablesData s) !! i = Some v →
  loads (catch_block i p s) !! p
  = Some (set_stage Returned (settle (Fulfilled true) l))
  ∧ values (variablesData (catch_block i p s)) !! i
    = Some (set_options [] (set_value (VScalar SNull) v)).
Proof.
  intros Hl Hi. unfold catch_block. simpl.
  by rewrite !list_lookup_alter_eq, Hl, Hi.
Qed.

(** X13 (the outcome of a request).
    Whatever the request returns (hits, no hits, hits for another field, a
    failure), the executor of a [query_values] variable ends by resolving
    its promise, if still pending, with [true]; it leaves the variable
    either without options, its value [null] (or [[]] for a multi-select
    one), or with options and a selection made of them, of the shape
    [multiSelect] asks for; the loading flags are left to the reaction. *)
Theorem request_outcome (p : nat) (r : FetchResult) (s s' : State) (l : Load)
    (v : VariableItem) :
  loads s !! p = Some l →
  values (variablesData s) !! variableIndex l = Some v →
  type v = query_values →
  afterFieldValues p r s = Some s' →
  ∃ l' v',
    loads s' !! p = Some l'
    ∧ stage l' = Returned
    ∧ promise l' = match promise l with
                   | Pending => Fulfilled true
                   | settled => settled
                   end
    ∧ values (variablesData s') !! variableIndex l = Some v'
    ∧ isLoading v' = isLoading v
    ∧ isVariableLoadingPending v' = isVariableLoadingPending v
    ∧ (options v' = []
       ∧ (value v' = VScalar SNull
          ∨ multiSelect v = true ∧ value v' = VArray [])
       ∨ options v' ≠ [] ∧ selection_of_options v' (value v')).
Proof.
  intros Hl Hi Hq. unfold afterFieldValues. rewrite Hl, Hi.
  destruct (stage l) as [| |qc]; try done.
  assert (Hcatch : ∀ s0 v0,
    loads s0 !! p = Some l →
    values (variablesData s0) !! variableIndex l = Some v0 →
    isLoading v0 = isLoading v →
    isVariableLoadingPending v0 = isVariableLoadingPending v →
    ∃ l' v',
      loads (catch_block (variableIndex l) p s0) !! p = Some l'
      ∧ stage l' = Returned
      ∧ promise l' = match promise l with
                     | Pending => Fulfilled true
                     | settled => settled
                     end
      ∧ values (variablesData (catch_block (variableIndex l) p s0))
          !! variableIndex l = Some v'
      ∧ isLoading v' = isLoading v
      ∧ isVariableLoadingPending v' = isVariableLoadingPending v
      ∧ (options v' = []
         ∧ (value v' = VScalar SNull
            ∨ multiSelect v = true ∧ value v' = VArray [])
         ∨ options v' ≠ [] ∧ selection_of_options v' (value v'))).
  { intros s0 v0 Hl0 Hi0 Hload Hpend.
    destruct (catch_block_outcome _ _ _ _ _ Hl0 Hi0) as [-> ->].
    eexists _, _. split_and!; try done. left. split; [done|by left]. }
  destruct r as [|hits].
  { intros [= <-]. by apply (Hcatch s v). }
  destruct hits as [|h0 hits].
  { intros [= <-]. simpl. rewrite !list_lookup_alter_eq, Hl, Hi. simpl.
    eexists _, _. split_and!; try done. left. split; [done|].
    destruct (multiSelect v); [by right|by left]. }
  destruct (List.find _ _) as [h|]; intros [= <-].
  2: { by apply (Hcatch s v). }
  set (s1 := update_variable _ _ s).
  set (v1 := set_options (hit_options h) v).
  assert (Hi1 : values (variablesData s1) !! variableIndex l = Some v1).
  { unfold s1. simpl. by rewrite list_lookup_alter_eq, Hi. }
  assert (Hl1 : loads s1 !! p = Some l) by done.
  unfold select_value. rewrite Hi1.
  replace (negb (is_undefined (oldVariablesData s1 !! name v1))
           || negb (is_null (oldVariablesData s1 !! name v1))) with true
    by (by destruct (oldVariablesData s1 !! name v1) as [[[]|]|]).
  destruct (reconcile v1 _) as [x|] eqn:Hrec.
  2: { by apply (Hcatch s1 v1). }
  simpl. rewrite !list_lookup_alter_eq, Hl, Hi. simpl.
  eexists _, _. split_and!; try done.
  destruct (hit_options h) as [|o os] eqn:Hopts.
  - left. split; [done|]. simpl.
    unfold reconcile, handleQueryValuesLogic, selectedValues in Hrec.
    rewrite bool_decide_eq_false_2 in Hrec by (unfold v1; simpl; by rewrite Hq).
    unfold v1 in Hrec. simpl in Hrec.
    destruct (multiSelect v) eqn:Hm.
    + right. split; [done|].
      by destruct (selectAllValueForMultiSelect v); simplify_eq.
    + left. by simplify_eq.
  - right. split; [done|].
    assert (Hshape : selection_of_options v1 x).
    { eapply reconcile_shape; [|done]. done. }
    by destruct x.
Qed.

Lemma request_outcome_witness :
  ∃ l', loads (state_after region_fetched) !! 0 = Some l'
        ∧ stage l' = Returned ∧ promise l' = Fulfilled true.
Proof.
  destruct (request_outcome 0 region_hits (state_after region_requested)
              (state_after region_fetched)
              {| variableIndex := 0; promise := Pending; reacted := false;
                 stage := AwaitFieldValues "SELECT _timestamp FROM 'logs'" |}
              (set_isLoading true region))
    as (l' & v' & Hl' & Hs & Hp & _).
  - vm_compute. reflexivity.
  - vm_compute. reflexivity.
  - reflexivity.
  - vm_compute. reflexivity.
  - exists l'. split; [exact Hl'|]. split; [exact Hs|exact Hp].
Defined.

(** ** What the loader leaves alone *)

Section Evolution.
Context (env : Environment) (frozen : nat → VariableType → Prop).
Hypothesis frozen_type :
  ∀ j t, frozen j t → t ≠ query_values ∧ t ≠ custom.

Lemma configuration_type v v' :
  configuration v' = configuration v → type v' = type v.
Proof. unfold configuration. by intros [=]. Qed.

Lemma preserved_refl j v : preserved frozen j v v.
Proof. by split. Qed.

Lemma preserved_trans j v1 v2 v3 :
  preserved frozen j v1 v2 → preserved frozen j v2 v3 → preserved frozen j v1 v3.
Proof.
  intros [Hc1 Hf1] [Hc2 Hf2]. split; [congruence|]. intros Hf.
  destruct (Hf1 Hf) as [Hv1 Ho1]. destruct Hf2 as [Hv2 Ho2].
  { by rewrite (configuration_type _ _ Hc1). }
  split; congruence.
Qed.

Lemma evolves_refl vs : evolves frozen vs vs.
Proof.
  split; [done|]. intros j v v' Hj Hj'. simplify_eq. apply preserved_refl.
Qed.

Lemma evolves_trans vs1 vs2 vs3 :
  evolves frozen vs1 vs2 → evolves frozen vs2 vs3 → evolves frozen vs1 vs3.
Proof.
  intros [Hl1 H1] [Hl2 H2]. split; [congruence|]. intros j v1 v3 Hj1 Hj3.
  destruct (lookup_lt_is_Some_2 vs2 j) as [v2 Hj2].
  { rewrite Hl1. by eapply lookup_lt_Some. }
  eapply preserved_trans; [by eapply H1|by eapply H2].
Qed.

Lemma evolves_alter f i vs :
  (∀ v, vs !! i = Some v → preserved frozen i v (f v)) →
  evolves frozen vs (alter f i vs).
Proof.
  intros Hf. split; [apply length_alter|]. intros j v v' Hj Hj'.
  destruct (decide (i = j)) as [->|Hne].
  - rewrite list_lookup_alter_eq, Hj in Hj'. simplify_eq/=. by apply Hf.
  - rewrite list_lookup_alter_ne in Hj' by done. simplify_eq. apply preserved_refl.
Qed.

Lemma evolves_marked P vs vs' :
  marked_within P vs vs' → evolves frozen vs vs'.
Proof.
  intros [Hl H]. split; [done|]. intros j v v' Hj Hj'.
  destruct (H j v Hj) as [Hv|[_ Hv]]; rewrite Hv in Hj'; simplify_eq;
    by split.
Qed.

Lemma evolves_pending vs :
  evolves frozen vs (set_isVariableLoadingPending true <$> vs).
Proof.
  split; [apply length_fmap|]. intros j v v' Hj Hj'.
  rewrite list_lookup_fmap, Hj in Hj'. simplify_eq/=. by split.
Qed.

Lemma loadSingle_evolves k s :
  evolves frozen (values (variablesData s))
    (values (variablesData (loadSingleVariableDataByIndex env k s))).
Proof.
  rewrite loadSingle_values.
  destruct (values (variablesData s) !! k) as [cur|] eqn:Hk;
    [|apply evolves_refl].
  destruct (eligible env k s); [|apply evolves_refl].
  apply evolves_alter. intros v Hv. rewrite Hk in Hv. injection Hv as <-.
  unfold begin_load.
  destruct (type cur) eqn:Ht; try apply preserved_refl.
  - by split.
  - destruct (reconcile _ _); [|apply preserved_refl].
    split; [done|]. rewrite Ht. intros Hf. by destruct (frozen_type _ _ Hf).
Qed.

Lemma load_each_evolves ks s :
  evolves frozen (values (variablesData s))
    (values (variablesData (load_each env ks s))).
Proof.
  revert s. induction ks as [|k ks IH]; intros s; simpl;
    [apply evolves_refl|].
  eapply evolves_trans; [apply loadSingle_evolves|apply IH].
Qed.

Lemma loadAll_evolves s :
  evolves frozen (values (variablesData s))
    (values (variablesData (loadAllVariablesData env s))).
Proof.
  unfold loadAllVariablesData.
  destruct (invalid_time_range env s); [apply evolves_refl|].
  eapply evolves_trans; [|apply load_each_evolves]. apply evolves_pending.
Qed.

Lemma onVariablesValueUpdated_evolves i s :
  evolves frozen (values (variablesData s))
    (values (variablesData (onVariablesValueUpdated env i s))).
Proof.
  unfold onVariablesValueUpdated.
  destruct (values (variablesData s) !! i) as [cur|]; [|apply evolves_refl].
  match goal with
  | |- context [setLoadingStateToAllChildNode ?d ?g ?n ?vs] =>
      pose proof (evolves_marked _ _ _ (setLoading_within d g n vs)) as Hm;
      destruct (setLoadingStateToAllChildNode d g n vs) as [vs' completion]
  end.
  simpl in Hm. destruct completion; try done.
  eapply evolves_trans; [exact Hm|]. apply load_each_evolves.
Qed.

Lemma substitution_loop_evolves indices i p queryContext s :
  evolves frozen (values (variablesData s))
    (values (variablesData (substitution_loop env indices i p queryContext s).2)).
Proof.
  revert queryContext s.
  induction indices as [|k rest IH]; intros queryContext s; simpl;
    [apply evolves_refl|].
  destruct (values (variablesData s) !! k) as [variable|]; [|apply IH].
  destruct (negb (isLoading variable) && negb (isVariableLoadingPending variable));
    [apply IH|].
  destruct (string_includes _ _); [|apply IH].
  eapply evolves_trans; [|apply IH]. simpl.
  apply evolves_alter. intros v _. by split.
Qed.

Lemma catch_block_evolves i p s :
  (∀ v, values (variablesData s) !! i = Some v → ¬ frozen i (type v)) →
  evolves frozen (values (variablesData s))
    (values (variablesData (catch_block i p s))).
Proof.
  intros Hi. unfold catch_block. simpl. apply evolves_alter.
  intros v Hv. split; [done|]. intros Hf. by destruct (Hi v Hv).
Qed.

Lemma afterLabels_evolves p s s' :
  (∀ l v, loads s !! p = Some l → stage l ≠ Returned →
     values (variablesData s) !! variableIndex l = Some v →
     ¬ frozen (variableIndex l) (type v)) →
  afterLabels env p s = Some s' →
  evolves frozen (values (variablesData s)) (values (variablesData s')).
Proof.
  intros Hp. unfold afterLabels.
  destruct (loads s !! p) as [l|] eqn:Hl; [|done].
  destruct (stage l) eqn:Hs; try done.
  destruct (values (variablesData s) !! variableIndex l) as [cur|] eqn:Hi;
    [|done].
  specialize (Hp l cur eq_refl ltac:(by rewrite Hs) Hi).
  match goal with
  | |- context [substitution_loop env ?ks ?i ?p ?q ?s0] =>
      pose proof (substitution_loop_evolves ks i p q s0) as Hsub;
      destruct (substitution_loop env ks i p q s0) as [queryContext s1]
  end.
  simpl in Hsub. destruct (_ || _); intros [= <-]; [|done].
  eapply evolves_trans; [exact Hsub|]. apply catch_block_evolves.
  intros v Hv.
  destruct Hsub as [_ Hsub]. destruct (Hsub _ _ _ Hi Hv) as [Hc _].
  by rewrite (configuration_type _ _ Hc).
Qed.

Lemma afterFieldValues_evolves p r s s' :
  (∀ l v, loads s !! p = Some l → stage l ≠ Returned →
     values (variablesData s) !! variableIndex l = Some v →
     ¬ frozen (variableIndex l) (type v)) →
  afterFieldValues p r s = Some s' →
  evolves frozen (values (variablesData s)) (values (variablesData s')).
Proof.
  intros Hp. unfold afterFieldValues.
  destruct (loads s !! p) as [l|] eqn:Hl; [|done].
  destruct (stage l) eqn:Hs; try done.
  destruct (values (variablesData s) !! variableIndex l) as [cur|] eqn:Hi;
    [|done].
  specialize (Hp l cur eq_refl ltac:(by rewrite Hs) Hi).
  assert (Hany : ∀ f, configuration (f cur) = configuration cur →
            evolves frozen (values (variablesData s))
              (alter f (variableIndex l) (values (variablesData s)))).
  { intros f Hf. apply evolves_alter. intros v Hv.
    rewrite Hi in Hv. injection Hv as <-. split; [done|]. by intros ?. }
  destruct r as [|[|h hits]].
  - intros [= <-]. apply catch_block_evolves. intros v Hv.
    rewrite Hi in Hv. by injection Hv as <-.
  - intros [= <-]. simpl. by apply Hany.
  - destruct (List.find _ _) as [h'|]; intros [= <-].
    2: { apply catch_block_evolves. intros v Hv.
    rewrite Hi in Hv. by injection Hv as <-. }
    eapply evolves_trans; [by apply (Hany (set_options (hit_options h')))|].
    set (s1 := update_variable _ _ s).
    assert (Hi1 : values (variablesData s1) !! variableIndex l
                  = Some (set_options (hit_options h') cur)).
    { unfold s1. simpl. by rewrite list_lookup_alter_eq, Hi. }
    assert (Hany1 : ∀ f,
              (∀ v, configuration (f v) = configuration v) →
              evolves frozen (values (variablesData s1))
                (alter f (variableIndex l) (values (variablesData s1)))).
    { intros f Hf. apply evolves_alter. intros v Hv.
      rewrite Hi1 in Hv. injection Hv as <-. split; [done|]. by intros ?. }
    unfold select_value. rewrite Hi1.
    destruct (_ || _).
    + destruct (reconcile _ _).
      * simpl. by apply Hany1.
      * apply catch_block_evolves. intros v Hv. rewrite Hi1 in Hv.
        by injection Hv as <-.
    + simpl. by apply Hany1.
Qed.

Lemma react_evolves p s s' :
  react env p s = Some s' →
  evolves frozen (values (variablesData s)) (values (variablesData s')).
Proof.
  unfold react. destruct (loads s !! p) as [l|]; [|done].
  destruct (reacted l); [done|].
  destruct (promise l) as [|res|]; intros [= <-].
  - unfold onFulfilled. destruct res; [|apply evolves_refl]. simpl.
    destruct (values (variablesData s) !! variableIndex l) as [cur|];
      [|apply evolves_refl].
    set (sm := mark_loaded _ _ _).
    assert (Hm : evolves frozen (values (variablesData s))
                   (values (variablesData sm))).
    { unfold sm, mark_loaded. simpl. apply evolves_alter. by split. }
    change (variablesDependencyGraph sm) with (variablesDependencyGraph s).
    destruct (variablesDependencyGraph s !! name cur); [|exact Hm].
    eapply evolves_trans; [exact Hm|]. apply load_each_evolves.
  - unfold onRejected. simpl.
    destruct (values (variablesData s) !! variableIndex l);
      [|apply evolves_refl].
    simpl. apply evolves_alter. by split.
Qed.

Lemma exec_evolves e s s' :
  (∀ p l v, loads s !! p = Some l → stage l ≠ Returned →
     values (variablesData s) !! variableIndex l = Some v →
     ¬ frozen (variableIndex l) (type v)) →
  (∀ i x v, e = ValueEdited i x → values (variablesData s) !! i = Some v →
     ¬ frozen i (type v)) →
  exec env e s = Some s' →
  evolves frozen (values (variablesData s)) (values (variablesData s')).
Proof.
  intros Hloads Hedit. destruct e as [|t|i x|p|p r|p]; simpl.
  - intros [= <-]. apply loadAll_evolves.
  - intros [= <-].
    pose proof (loadAll_evolves (rejectAllPromises (set_selectedTimeDate t s)))
      as H.
    destruct (rejectAllPromises_values (set_selectedTimeDate t s)) as [Hv _].
    by rewrite Hv in H.
  - intros [= <-]. eapply evolves_trans;
      [|apply onVariablesValueUpdated_evolves].
    simpl. apply evolves_alter. intros v Hv. split; [done|].
    intros Hf. by destruct (Hedit i x v eq_refl Hv).
  - apply afterLabels_evolves. intros l v. apply Hloads.
  - apply afterFieldValues_evolves. intros l v. apply Hloads.
  - apply react_evolves.
Qed.
End Evolution.

Lemma evolves_configuration frozen vs vs' :
  evolves frozen vs vs' → configuration <$> vs' = configuration <$> vs.
Proof.
  intros [Hl H]. apply list_eq. intros j. rewrite !list_lookup_fmap.
  destruct (vs !! j) as [v|] eqn:Hj.
  - destruct (lookup_lt_is_Some_2 vs' j) as [v' Hj'].
    { rewrite Hl. by eapply lookup_lt_Some. }
    rewrite Hj'. simpl. f_equal. by destruct (H j v v' Hj Hj').
  - rewrite (lookup_ge_None_2 vs' j); [done|].
    rewrite Hl. by apply lookup_ge_None.
Qed.

(** X14 (the configuration is fixed).
    The configuration part of every variable (name, kind, [multiSelect],
    the select-all policy with its custom list, the query) is the same
    after any run of events: the loader, the edits and the reactions only
    write values, options and the two loading flags. *)
Theorem configuration_never_changes (env : Environment) (es : list Event)
    (s s' : State) :
  run env es s = Some s' →
  configuration <$> values (variablesData s')
  = configuration <$> values (variablesData s).
Proof.
  revert s. induction es as [|e es IH]; intros s; simpl.
  { by intros [= <-]. }
  destruct (exec env e s) as [s1|] eqn:He; [|done]. intros Hrun.
  rewrite (IH s1 Hrun).
  apply (evolves_configuration (λ _ _, False)).
  eapply (exec_evolves env (λ _ _, False)); [| | |exact He]; tauto.
Qed.

Lemma configuration_never_changes_witness :
  configuration <$> values (variablesData (state_after region_resolved))
  = configuration <$> values (variablesData (mounted last_hour)).
Proof.
  apply (configuration_never_changes sample_env region_resolved).
  vm_compute. reflexivity.
Defined.

(** ** Suspended executors *)

Lemma nothing_frozen (j : nat) (t : VariableType) :
  False → t ≠ query_values ∧ t ≠ custom.
Proof. done. Qed.

Lemma suspension_alter (f : Load → Load) q (ls : list Load) :
  (∀ l, suspension (f l) = suspension l) →
  suspension <$> alter f q ls = suspension <$> ls.
Proof.
  intros Hf. rewrite (list_fmap_alter _ _ id).
  - by rewrite list_alter_id.
  - apply Forall_forall. intros l _. apply Hf.
Qed.

Lemma suspension_set_stage g q (ls : list Load) :
  suspension <$> alter (set_stage g) q ls
  = alter (λ x, (x.1, g)) q (suspension <$> ls).
Proof. apply list_fmap_alter, Forall_forall. by intros l _. Qed.

Lemma suspended_shape s :
  suspended_are_queries s
  ↔ ∀ p i g t,
      (suspension <$> loads s) !! p = Some (i, g) → g ≠ Returned →
      (type <$> values (variablesData s)) !! i = Some t → t = query_values.
Proof.
  unfold suspended_are_queries. split.
  - intros H p i g t Hp Hg Hi.
    apply list_lookup_fmap_Some in Hp as (l & [= -> ->] & Hl).
    apply list_lookup_fmap_Some in Hi as (v & -> & Hv).
    by eapply H.
  - intros H p l v Hl Hg Hv.
    apply (H p (variableIndex l) (stage l)); [|done|].
    + by rewrite list_lookup_fmap, Hl.
    + by rewrite list_lookup_fmap, Hv.
Qed.

Lemma evolves_types frozen vs vs' :
  evolves frozen vs vs' → type <$> vs' = type <$> vs.
Proof.
  intros H%evolves_configuration.
  apply (f_equal (fmap (λ c : string * VariableType * bool * SelectAll
                               * list string * QueryData, c.1.1.1.1.2))) in H.
  by rewrite <- !list_fmap_compose in H.
Qed.

Lemma alter_last {A} (f : A → A) (l : list A) (x : A) n :
  n = List.length l → alter f n (l ++ [x])%list = (l ++ [f x])%list.
Proof.
  intros ->. induction l as [|y l IH]; [done|]. simpl. f_equal. exact IH.
Qed.

Section Suspended.
Context (env : Environment).

Lemma loadSingle_suspension k s :
  suspension <$> loads (loadSingleVariableDataByIndex env k s)
  = ((suspension <$> loads s)
     ++ [(k, match values (variablesData s) !! k with
             | Some cur =>
                 if eligible env k s && bool_decide (type cur = query_values)
                 then AwaitLabels else Returned
             | None => Returned
             end)])%list.
Proof.
  unfold loadSingleVariableDataByIndex, eligible, invalid_time_range. simpl.
  destruct (values (variablesData s) !! k) as [cur|] eqn:Hk; simpl.
  2: { rewrite suspension_alter by done. by rewrite fmap_app. }
  destruct (currentlyExecutingPromises s !! name cur) as [[q|]|]; simpl;
    destruct (isVariableLoadingPending cur); simpl;
    destruct (isInvalidDate env (start_time (selectedTimeDate s))
              || isInvalidDate env (end_time (selectedTimeDate s))); simpl;
    destruct (variablesDependencyGraph s !! name cur) as [node|]; simpl;
    try destruct (isAnyDepndentVariableLoadingPending node
                    (values (variablesData s))); simpl;
    try (destruct (type cur); simpl; try destruct (reconcile _ _); simpl);
    rewrite ?suspension_set_stage, ?suspension_alter by done;
    rewrite fmap_app; cbn [fmap list_fmap suspension variableIndex stage];
    rewrite ?alter_last by (by rewrite length_fmap);
    done.
Qed.

Lemma loadSingle_suspensions k s :
  ∃ g, suspension <$> loads (loadSingleVariableDataByIndex env k s)
       = ((suspension <$> loads s) ++ [(k, g)])%list
       ∧ (g ≠ Returned →
          ∃ cur, values (variablesData s) !! k = Some cur
                 ∧ type cur = query_values).
Proof.
  eexists. split; [apply loadSingle_suspension|].
  destruct (values (variablesData s) !! k) as [cur|]; [|done].
  destruct (eligible env k s); [|done]. simpl.
  case_bool_decide; [|done]. intros _. by exists cur.
Qed.

Lemma suspended_restage s s' p g :
  suspension <$> loads s'
  = alter (λ x, (x.1, g)) p (suspension <$> loads s) →
  type <$> values (variablesData s') = type <$> values (variablesData s) →
  (g ≠ Returned → ∃ l, loads s !! p = Some l ∧ stage l ≠ Returned) →
  suspended_are_queries s → suspended_are_queries s'.
Proof.
  rewrite !suspended_shape. intros Hshapes Htypes Hg H q i g' t.
  rewrite Hshapes, Htypes. destruct (decide (p = q)) as [->|Hne].
  - rewrite list_lookup_alter_eq.
    destruct ((suspension <$> loads s) !! q) as [[i0 g0]|] eqn:Hq; [|done].
    intros [= <- <-] Hret Hi.
    destruct (Hg Hret) as (l & Hl & Hstage).
    rewrite list_lookup_fmap, Hl in Hq. injection Hq as <- <-.
    by eapply (H q (variableIndex l) (stage l));
      [rewrite list_lookup_fmap, Hl|..].
  - rewrite list_lookup_alter_ne by done. apply H.
Qed.

Lemma suspended_same s s' :
  suspension <$> loads s' = suspension <$> loads s →
  type <$> values (variablesData s') = type <$> values (variablesData s) →
  suspended_are_queries s → suspended_are_queries s'.
Proof.
  rewrite !suspended_shape. intros -> ->. done.
Qed.

Lemma loadSingle_suspended k s :
  suspended_are_queries s →
  suspended_are_queries (loadSingleVariableDataByIndex env k s).
Proof.
  rewrite !suspended_shape. intros H p i g t.
  destruct (loadSingle_suspensions k s) as (g0 & -> & Hg0).
  rewrite (evolves_types _ _ _ (loadSingle_evolves env (λ _ _, False) nothing_frozen k s)).
  intros [Hp|[_ Hp]]%lookup_app_Some; [by apply (H p)|].
  destruct (p - _) as [|n]; [|done]. injection Hp as <- <-.
  intros Hg Hi. destruct (Hg0 Hg) as (cur & Hcur & Hq).
  rewrite list_lookup_fmap, Hcur in Hi. by injection Hi as <-.
Qed.

Lemma load_each_suspended ks s :
  suspended_are_queries s → suspended_are_queries (load_each env ks s).
Proof.
  revert s. induction ks as [|k ks IH]; intros s H; simpl; [done|].
  by apply IH, loadSingle_suspended.
Qed.

Lemma rejectAllPromises_suspensions s :
  suspension <$> loads (rejectAllPromises s) = suspension <$> loads s.
Proof.
  unfold rejectAllPromises.
  apply (map_fold_weak_ind
           (λ r _, suspension <$> loads r = suspension <$> loads s)); [done|].
  intros key [q|] m r _ IH; [|done]. simpl.
  by rewrite suspension_alter.
Qed.

Lemma substitution_loop_suspensions indices i p queryContext s :
  suspension <$> loads (substitution_loop env indices i p queryContext s).2
  = suspension <$> loads s.
Proof.
  revert queryContext s.
  induction indices as [|k rest IH]; intros queryContext s; simpl; [done|].
  destruct (values (variablesData s) !! k) as [variable|]; [|apply IH].
  destruct (negb (isLoading variable) && negb (isVariableLoadingPending variable));
    [apply IH|].
  destruct (string_includes _ _); [|apply IH].
  rewrite IH. simpl. by rewrite suspension_alter.
Qed.

Lemma catch_block_suspensions i p s :
  suspension <$> loads (catch_block i p s)
  = alter (λ x, (x.1, Returned)) p (suspension <$> loads s).
Proof.
  unfold catch_block. simpl.
  by rewrite suspension_set_stage, suspension_alter.
Qed.

Lemma afterFieldValues_suspensions p r s s' :
  afterFieldValues p r s = Some s' →
  suspension <$> loads s'
  = alter (λ x, (x.1, Returned)) p (suspension <$> loads s).
Proof.
  unfold afterFieldValues.
  destruct (loads s !! p) as [l|]; [|done].
  destruct (stage l); try done.
  destruct (values (variablesData s) !! variableIndex l) as [cur|] eqn:Hi;
    [|done].
  destruct r as [|[|h hits]].
  - intros [= <-]. apply catch_block_suspensions.
  - intros [= <-]. simpl. by rewrite suspension_set_stage, suspension_alter.
  - destruct (List.find _ _) as [h'|]; intros [= <-];
      [|apply catch_block_suspensions].
    unfold select_value. cbn [update_variable set_values values variablesData].
    rewrite list_lookup_alter_eq, Hi. cbn [fmap option_fmap option_map].
    destruct (_ || _).
    + destruct (reconcile _ _); [|by rewrite catch_block_suspensions].
      simpl. by rewrite suspension_set_stage, suspension_alter.
    + simpl. by rewrite suspension_set_stage, suspension_alter.
Qed.
End Suspended.

Section SuspendedEvents.
Context (env : Environment).

Lemma exec_types e s s' :
  exec env e s = Some s' →
  type <$> values (variablesData s') = type <$> values (variablesData s).
Proof.
  intros He. eapply (evolves_types (λ _ _, False)).
  eapply (exec_evolves env (λ _ _, False)); [| | |exact He]; tauto.
Qed.

Lemma loadAll_suspended s :
  suspended_are_queries s → suspended_are_queries (loadAllVariablesData env s).
Proof.
  intros H. unfold loadAllVariablesData.
  destruct (invalid_time_range env s); [done|].
  apply load_each_suspended. eapply suspended_same; [| |exact H]; [done|].
  simpl. by rewrite <- list_fmap_compose.
Qed.

Lemma onVariablesValueUpdated_suspended i s :
  suspended_are_queries s →
  suspended_are_queries (onVariablesValueUpdated env i s).
Proof.
  intros H. unfold onVariablesValueUpdated.
  destruct (values (variablesData s) !! i) as [cur|]; [|done].
  match goal with
  | |- context [setLoadingStateToAllChildNode ?d ?g ?n ?vs] =>
      pose proof (evolves_types (λ _ _, False) _ _
                    (evolves_marked _ _ _ _ (setLoading_within d g n vs)))
        as Hm;
      destruct (setLoadingStateToAllChildNode d g n vs) as [vs' completion]
  end.
  simpl in Hm.
  assert (H1 : suspended_are_queries
                 (set_values vs'
                    (set_oldVariablesData
                       (<[name cur:=value cur]> (oldVariablesData s)) s))).
  { eapply suspended_same; [| |exact H]; done. }
  destruct completion; try done. by apply load_each_suspended.
Qed.

Lemma exec_suspended e s s' :
  exec env e s = Some s' →
  suspended_are_queries s → suspended_are_queries s'.
Proof.
  intros He H. pose proof (exec_types e s s' He) as Htypes.
  destruct e as [|t|i x|p|p r|p]; simpl in He.
  - injection He as <-. by apply loadAll_suspended.
  - injection He as <-. apply loadAll_suspended.
    eapply suspended_same; [| |exact H].
    + by rewrite rejectAllPromises_suspensions.
    + by destruct (rejectAllPromises_values (set_selectedTimeDate t s))
        as [-> _].
  - injection He as <-. apply onVariablesValueUpdated_suspended.
    eapply suspended_same; [| |exact H]; [done|].
    simpl. eapply (evolves_types (λ _ _, False)), evolves_alter.
    intros v _. by split.
  - unfold afterLabels in He.
    destruct (loads s !! p) as [l|] eqn:Hl; [|done].
    destruct (stage l) eqn:Hs; try done.
    destruct (values (variablesData s) !! variableIndex l) as [cur|]; [|done].
    match type of He with
    | context [substitution_loop env ?ks ?i ?p ?q ?s0] =>
        pose proof (substitution_loop_suspensions env ks i p q s0) as Hsub;
        destruct (substitution_loop env ks i p q s0) as [queryContext s1]
    end.
    simpl in Hsub. destruct (_ || _); injection He as <-.
    + eapply (suspended_restage _ _ p Returned); [| |done|exact H]; [|done].
      by rewrite catch_block_suspensions, Hsub.
    + eapply (suspended_restage _ _ p); [| | |exact H]; [|done|].
      * simpl. by rewrite suspension_set_stage, Hsub.
      * intros _. exists l. by rewrite Hs.
  - eapply (suspended_restage _ _ p Returned); [| |done|exact H]; [|done].
    by eapply afterFieldValues_suspensions.
  - unfold react in He. destruct (loads s !! p) as [l|]; [|done].
    destruct (reacted l); [done|].
    set (s0 := set_loads _ s) in He.
    assert (H0 : suspended_are_queries s0).
    { eapply suspended_same; [| |exact H]; [|done].
      unfold s0. simpl. by rewrite suspension_alter. }
    destruct (promise l) as [|res|]; [done| |]; injection He as <-.
    + unfold onFulfilled. destruct res; [|done].
      destruct (values (variablesData s0) !! variableIndex l) as [cur|];
        [|done].
      set (sm := mark_loaded _ _ _).
      assert (Hm : suspended_are_queries sm).
      { eapply suspended_same; [| |exact H0]; [done|].
        unfold sm, mark_loaded. simpl.
        eapply (evolves_types (λ _ _, False)), evolves_alter.
        intros v _. by split. }
      change (variablesDependencyGraph sm) with (variablesDependencyGraph s).
      destruct (variablesDependencyGraph s !! name cur); [|exact Hm].
      by apply load_each_suspended.
    + unfold onRejected.
      destruct (values (variablesData s0) !! variableIndex l) as [cur|];
        [|done].
      eapply suspended_same; [| |exact H0]; [done|]. simpl.
      eapply (evolves_types (λ _ _, False)), evolves_alter.
      intros v _. by split.
Qed.
End SuspendedEvents.

(** X15 (constants, text boxes and filters).
    A variable that is neither [query_values] nor [custom] (a constant, a
    text box, the dynamic filters) keeps its value and its options through
    any run of events that does not edit it, in a component whose suspended
    executors all belong to [query_values] variables (as in the initial
    state, which has no executor, and in every state reached from it). *)
Theorem loader_leaves_fixed_kinds_alone (env : Environment) (es : list Event)
    (s s' : State) (j : nat) (v : VariableItem) :
  run env es s = Some s' →
  suspended_are_queries s →
  values (variablesData s) !! j = Some v →
  type v ≠ query_values → type v ≠ custom →
  (∀ x, ValueEdited j x ∉ es) →
  suspended_are_queries s'
  ∧ ∃ v', values (variablesData s') !! j = Some v'
          ∧ value v' = value v ∧ options v' = options v.
Proof.
  set (frozen := λ (k : nat) (t : VariableType),
                   k = j ∧ t ≠ query_values ∧ t ≠ custom).
  assert (Hfrozen : ∀ k t, frozen k t → t ≠ query_values ∧ t ≠ custom).
  { by intros k t [_ ?]. }
  revert s v. induction es as [|e es IH]; intros s v; simpl.
  { intros [= <-] H Hj _ _ _. split; [done|]. by exists v. }
  destruct (exec env e s) as [s1|] eqn:He; [|done].
  intros Hrun H Hj Hq Hc Hedit.
  assert (Hev : evolves frozen (values (variablesData s))
                  (values (variablesData s1))).
  { eapply (exec_evolves env frozen Hfrozen); [| |exact He].
    - intros p l w Hl Hs Hw [_ [Hwq _]]. apply Hwq. by eapply H.
    - intros i x w -> Hw [-> _]. apply (Hedit x). apply list_elem_of_here. }
  destruct Hev as [Hlen Hev].
  destruct (lookup_lt_is_Some_2 (values (variablesData s1)) j) as [v1 Hj1].
  { rewrite Hlen. by eapply lookup_lt_Some. }
  destruct (Hev j v v1 Hj Hj1) as [Hconf Hkeep].
  destruct Hkeep as [Hv1 Ho1]; [done|].
  pose proof (configuration_type _ _ Hconf) as Ht1.
  destruct (IH s1 v1) as (Hs' & v' & Hj' & Hv' & Ho'); try done.
  - by eapply exec_suspended.
  - by rewrite Ht1.
  - by rewrite Ht1.
  - intros x Hx. apply (Hedit x). by apply list_elem_of_further.
  - split; [done|]. exists v'. split_and!; congruence.
Qed.

Lemma loader_leaves_fixed_kinds_alone_witness :
  ∃ s',
    run sample_env region_resolved tiered = Some s'
    ∧ suspended_are_queries s'
    ∧ ∃ v', values (variablesData s') !! 2 = Some v'
            ∧ value v' = VScalar (SStr "prod") ∧ options v' = [].
Proof.
  destruct (run sample_env region_resolved tiered) as [s'|] eqn:Hrun;
    [|vm_compute in Hrun; discriminate].
  exists s'. split; [reflexivity|].
  apply (loader_leaves_fixed_kinds_alone sample_env region_resolved tiered s' 2
           (set_isVariableLoadingPending true tier) Hrun).
  - intros p l v Hl. vm_compute in Hl. discriminate.
  - vm_compute. reflexivity.
  - discriminate.
  - discriminate.
  - intros x Hin.
    repeat (apply elem_of_cons in Hin as [?|Hin]; [discriminate|]).
    by apply elem_of_nil in Hin.
Defined.

(** ** An attempt on a ready variable *)

(** X16 (an attempt on a ready variable).
    The converse of the ordering rule for one attempt: if the variable is
    pending, the time range is accepted, the graph has an entry for it and
    no variable named after one of its parents is loading or pending, an
    attempt on a [query_values] variable marks it loading and suspends at
    the construction of the query. *)
Theorem ready_variable_begins_loading (env : Environment) (i : nat) (s : State)
    (v : VariableItem) :
  may_load env s i →
  values (variablesData s) !! i = Some v → type v = query_values →
  values (variablesData (loadSingleVariableDataByIndex env i s)) !! i
  = Some (set_isLoading true v)
  ∧ ∃ l', loads (loadSingleVariableDataByIndex env i s) !! length (loads s)
          = Some l'
          ∧ variableIndex l' = i ∧ stage l' = AwaitLabels.
Proof.
  intros Hmay%may_load_eligible Hi Hq. split.
  - rewrite loadSingle_values, Hi, Hmay, list_lookup_alter_eq, Hi.
    unfold begin_load. by rewrite Hq.
  - pose proof (loadSingle_suspension env i s) as Hsus.
    rewrite Hi, Hmay, bool_decide_eq_true_2 in Hsus by done. simpl in Hsus.
    assert (Hl : (suspension <$> loads (loadSingleVariableDataByIndex env i s))
                   !! length (loads s) = Some (i, AwaitLabels)).
    { rewrite Hsus, lookup_app_r by (by rewrite length_fmap).
      by rewrite length_fmap, Nat.sub_diag. }
    apply list_lookup_fmap_Some in Hl as (l' & [= Hi' Hs'] & Hl').
    by exists l'.
Qed.

Lemma ready_variable_begins_loading_witness :
  values (variablesData
            (loadSingleVariableDataByIndex sample_env 0 (mounted last_hour)))
    !! 0 = Some (set_isLoading true region)
  ∧ ∃ l', loads (loadSingleVariableDataByIndex sample_env 0 (mounted last_hour))
            !! 0 = Some l'
          ∧ variableIndex l' = 0 ∧ stage l' = AwaitLabels.
Proof.
  apply (ready_variable_begins_loading sample_env 0 (mounted last_hour) region);
    [|reflexivity|reflexivity].
  exists region, {| parentVariables := []; childVariables := ["host"] |}.
  split_and!; try reflexivity.
  intros parent w Hparent. by apply elem_of_nil in Hparent.
Defined.

(** ** A change of the time range *)

Lemma load_each_time env ks s :
  selectedTimeDate (load_each env ks s) = selectedTimeDate s.
Proof.
  revert s. induction ks as [|k ks IH]; intros s; simpl; [done|].
  rewrite IH. by destruct (loadSingle_frame env k s) as (_ & _ & _ & ->).
Qed.

(** X17 (a change of the time range).
    When the time range changes, every promise stored as a handle and still
    pending is rejected, and a settled promise stays as it is; the executor
    behind a rejected promise is not stopped: it is still suspended where it
    was.  If the new range is accepted every variable is pending afterwards;
    if not, the variables are as before. *)
Theorem time_change_rejects_stored (env : Environment) (t : TimeRange)
    (s s' : State) (q : nat) (l : Load) :
  exec env (TimeChanged t) s = Some s' →
  loads s !! q = Some l →
  selectedTimeDate s' = t
  ∧ (∃ l', loads s' !! q = Some l'
           ∧ variableIndex l' = variableIndex l ∧ stage l' = stage l
           ∧ (stored (currentlyExecutingPromises s) q → promise l = Pending →
              promise l' = Rejected)
           ∧ (promise l ≠ Pending → promise l' = promise l))
  ∧ (isInvalidDate env (start_time t) || isInvalidDate env (end_time t) = false →
     all_pending (values (variablesData s')))
  ∧ (isInvalidDate env (start_time t) || isInvalidDate env (end_time t) = true →
     variablesData s' = variablesData s).
Proof.
  simpl. intros [= <-] Hq.
  set (s0 := set_selectedTimeDate t s).
  destruct (rejectAllPromises_loads s0)
    as (Hdata & _ & _ & Htime & _ & Hloads).
  destruct (Hloads q l Hq) as [Hin Hout].
  set (r := rejectAllPromises s0) in *.
  assert (Hvalid : invalid_time_range env r
                   = isInvalidDate env (start_time t)
                     || isInvalidDate env (end_time t)).
  { unfold invalid_time_range. by rewrite Htime. }
  assert (Hr : ∃ l0, loads r !! q = Some l0
                 ∧ variableIndex l0 = variableIndex l ∧ stage l0 = stage l
                 ∧ (stored (currentlyExecutingPromises s) q →
                    promise l = Pending → promise l0 = Rejected)
                 ∧ (promise l ≠ Pending → promise l0 = promise l)
                 ∧ (promise l0 = Rejected ∨ promise l0 = promise l)).
  { destruct (decide (stored (currentlyExecutingPromises s0) q)) as [Hs|Hs].
    - exists (settle Rejected l). rewrite (Hin Hs). unfold settle. simpl.
      split_and!; try done.
      + by intros _ ->.
      + by destruct (promise l).
      + destruct (promise l); [by left|by right..].
    - exists l. rewrite (Hout Hs). split_and!; try done. by right. }
  destruct Hr as (l0 & Hl0 & Hi0 & Hs0 & Hrej0 & Hkeep0 & Hcases).
  split_and!.
  - unfold loadAllVariablesData. destruct (invalid_time_range env r); [done|].
    by rewrite load_each_time.
  - unfold loadAllVariablesData. destruct (invalid_time_range env r).
    { exists l0. by split_and!. }
    match goal with
    | |- context [load_each env ?ks ?s1] =>
        destruct (load_each_promise_kept env ks s1 q l0 Hl0)
          as (l' & Hl' & Hi' & _ & Hs' & Hkeep' & _)
    end.
    exists l'. split_and!; try congruence.
    + intros Hst Hp. rewrite Hkeep'; [by apply Hrej0|].
      by rewrite (Hrej0 Hst Hp).
    + intros Hp. rewrite Hkeep'; [by apply Hkeep0|].
      by rewrite (Hkeep0 Hp).
  - intros Hok. apply loadAll_all_pending. by rewrite Hvalid.
  - intros Hbad. unfold loadAllVariablesData. by rewrite Hvalid, Hbad, Hdata.
Qed.

Lemma time_change_rejects_stored_witness :
  ∃ l',
    loads (state_after region_superseded) !! 0 = Some l'
    ∧ promise l' = Rejected
    ∧ stage l' = AwaitFieldValues "SELECT _timestamp FROM 'logs'".
Proof.
  destruct (time_change_rejects_stored sample_env next_hour
              (state_after region_requested) (state_after region_superseded) 0
              {| variableIndex := 0; promise := Pending; reacted := false;
                 stage := AwaitFieldValues "SELECT _timestamp FROM 'logs'" |})
    as (_ & (l' & Hl' & _ & Hs & Hrej & _) & _).
  - vm_compute. reflexivity.
  - vm_compute. reflexivity.
  - exists l'. split; [exact Hl'|]. split; [|exact Hs].
    apply Hrej; [|reflexivity].
    apply (stored_lookup _ "region"). vm_compute. reflexivity.
Defined.

(** ** Errors inside the executor *)

(** X18 (a malformed instant at the request).
    If an instant of the time range is a [Date] that denotes no time when
    the executor builds its request, [toISOString] raises and the [catch]
    block runs: no request is issued, the executor is over, its promise is
    settled, and the variable is left with no options and the value
    [null]. *)
Theorem malformed_instant_clears_selection (env : Environment) (p : nat)
    (s : State) (l : Load) (currentVariable : VariableItem) :
  loads s !! p = Some l → stage l = AwaitLabels →
  values (variablesData s) !! variableIndex l = Some currentVariable →
  toISOString_throws (start_time (selectedTimeDate s))
  || toISOString_throws (end_time (selectedTimeDate s)) = true →
  ∃ s' l' v',
    afterLabels env p s = Some s'
    ∧ loads s' !! p = Some l'
    ∧ stage l' = Returned ∧ promise l' ≠ Pending
    ∧ values (variablesData s') !! variableIndex l = Some v'
    ∧ value v' = VScalar SNull ∧ options v' = [].
Proof.
  intros Hl Hs Hi Hthrow. unfold afterLabels. rewrite Hl, Hs, Hi.
  match goal with
  | |- context [substitution_loop env ?ks ?i ?p ?q ?s0] =>
      pose proof (substitution_loop_suspensions env ks i p q s0) as Hsus;
      pose proof (substitution_loop_loads env ks i p q s0) as [_ Htime];
      pose proof (substitution_loop_evolves env (λ _ _, False) ks i p q s0)
        as [Hlen _];
      destruct (substitution_loop env ks i p q s0) as [queryContext s1]
  end.
  simpl in Hsus, Htime, Hlen. rewrite Htime, Hthrow.
  destruct (lookup_lt_is_Some_2 (values (variablesData s1)) (variableIndex l))
    as [v1 Hv1].
  { rewrite Hlen. by eapply lookup_lt_Some. }
  destruct (lookup_lt_is_Some_2 (loads s1) p) as [l1 Hl1].
  { rewrite <- (length_fmap suspension), Hsus, length_fmap.
    by eapply lookup_lt_Some. }
  destruct (catch_block_outcome (variableIndex l) p s1 l1 v1 Hl1 Hv1)
    as [Hload Hvalue].
  eexists _, _, _. split; [reflexivity|]. split; [exact Hload|].
  split; [done|]. split; [|by split; [exact Hvalue|]].
  unfold settle. simpl. by destruct (promise l1).
Qed.

Lemma malformed_instant_clears_selection_witness :
  ∃ s' l' v',
    afterLabels sample_env 0 first_cycle_malformed = Some s'
    ∧ loads s' !! 0 = Some l'
    ∧ stage l' = Returned ∧ promise l' ≠ Pending
    ∧ values (variablesData s') !! 0 = Some v'
    ∧ value v' = VScalar SNull ∧ options v' = [].
Proof.
  apply (malformed_instant_clears_selection sample_env 0 first_cycle_malformed
           {| variableIndex := 0; promise := Pending;
              reacted := false; stage := AwaitLabels |}
           (set_isLoading true region)).
  - vm_compute. reflexivity.
  - reflexivity.
  - vm_compute. reflexivity.
  - vm_compute. reflexivity.
Defined.

(** X19 (a variable without a graph entry).
    An attempt on a pending variable that has no entry in the dependency
    graph raises inside the executor, after the handle is stored: the
    variables are as before, the executor is over, and the promise of the
    attempt is not fulfilled, so no reaction marks the variable loaded. *)
Theorem missing_graph_entry_leaves_pending (env : Environment) (i : nat)
    (s : State) (currentVariable : VariableItem) :
  values (variablesData s) !! i = Some currentVariable →
  isVariableLoadingPending currentVariable = true →
  invalid_time_range env s = false →
  variablesDependencyGraph s !! name currentVariable = None →
  variablesData (loadSingleVariableDataByIndex env i s) = variablesData s
  ∧ currentlyExecutingPromises (loadSingleVariableDataByIndex env i s)
      !! name currentVariable = Some (Some (length (loads s)))
  ∧ ∃ l', loads (loadSingleVariableDataByIndex env i s) !! length (loads s)
          = Some l'
          ∧ variableIndex l' = i ∧ stage l' = Returned
          ∧ ∀ res, promise l' ≠ Fulfilled res.
Proof.
  intros Hi Hp Ht Hg.
  assert (Hnew : ((loads s ++ [{| variableIndex := i; promise := Pending;
                                  reacted := false; stage := Returned |}])%list
                  !! length (loads s))
                 = Some {| variableIndex := i; promise := Pending;
                           reacted := false; stage := Returned |}).
  { by rewrite lookup_app_r, Nat.sub_diag. }
  unfold loadSingleVariableDataByIndex. simpl. rewrite Hi. simpl.
  unfold invalid_time_range in *.
  destruct (currentlyExecutingPromises s !! name currentVariable)
    as [[q|]|]; simpl; rewrite Hp; simpl; rewrite Ht, Hg; simpl;
    (split; [done|]); (split; [apply lookup_insert_eq|]);
    try (eexists; split; [exact Hnew|done]).
  destruct (decide (q = length (loads s))) as [->|Hne].
  - rewrite list_lookup_alter_eq, Hnew. simpl. eexists. split; [done|]. done.
  - rewrite list_lookup_alter_ne by done. eexists. split; [exact Hnew|done].
Qed.

Lemma missing_graph_entry_leaves_pending_witness :
  variablesData (loadSingleVariableDataByIndex sample_env 0 unwired)
  = variablesData unwired
  ∧ currentlyExecutingPromises (loadSingleVariableDataByIndex sample_env 0 unwired)
      !! "region" = Some (Some 0)
  ∧ ∃ l', loads (loadSingleVariableDataByIndex sample_env 0 unwired) !! 0
          = Some l'
          ∧ variableIndex l' = 0 ∧ stage l' = Returned
          ∧ ∀ res, promise l' ≠ Fulfilled res.
Proof.
  apply (missing_graph_entry_leaves_pending sample_env 0 unwired region);
    reflexivity.
Defined.

(** ** Placeholders *)

Lemma substring_all (s : string) : String.substring 0 (String.length s) s = s.
Proof. induction s as [|c s IH]; simpl; [done|]. by rewrite IH. Qed.

Lemma prefix_split (pat s : string) :
  String.prefix pat s = true →
  s = pat +:+ String.substring (String.length pat)
                (String.length s - String.length pat) s.
Proof.
  revert pat. induction s as [|c s IH]; intros [|a pat]; simpl; try done.
  - intros _. by rewrite substring_all.
  - destruct (ascii_dec a c) as [->|]; [|done].
    intros Hp. change (String c pat +:+ ?x) with (String c (pat +:+ x)).
    f_equal. by apply IH.
Qed.

Lemma split_first_spec (pat s before after : string) :
  split_first pat s = Some (before, after) → s = before +:+ pat +:+ after.
Proof.
  revert before. induction s as [|c s IH]; intros before.
  - cbn [split_first]. destruct (String.prefix pat "") eqn:Hp; [|done].
    intros [= <- <-]. by apply prefix_split.
  - cbn [split_first]. destruct (String.prefix pat (String c s)) eqn:Hp.
    + intros [= <- <-]. by apply prefix_split.
    + destruct (split_first pat s) as [[b a]|]; [|done].
      intros [= <- <-].
      change (String c b +:+ ?x) with (String c (b +:+ x)).
      f_equal. by apply IH.
Qed.

Lemma string_includes_append (x s pat : string) :
  string_includes s pat = true → string_includes (x +:+ s) pat = true.
Proof.
  unfold string_includes. intros Hs.
  induction x as [|c x IH]; [done|].
  change (String c x +:+ s) with (String c (x +:+ s)). cbn [split_first].
  destruct (String.prefix pat (String c (x +:+ s))); [done|].
  by destruct (split_first pat (x +:+ s)) as [[b a]|].
Qed.

Lemma prefix_char (a c : ascii) (t : string) :
  String.prefix (String a "") (String c t) = Ascii.eqb a c.
Proof.
  cbn [String.prefix]. destruct (ascii_dec a c) as [->|Hne].
  - rewrite Ascii.eqb_refl. by destruct t.
  - symmetry. by apply Ascii.eqb_neq.
Qed.

Lemma get_substitution_plain (matched before after template : string) :
  string_includes template "$" = false →
  get_substitution matched before after template = template.
Proof.
  unfold string_includes.
  induction template as [|c t IH]; [done|].
  cbn [split_first get_substitution].
  rewrite prefix_char, Ascii.eqb_sym.
  destruct (Ascii.eqb c "$"); [done|].
  destruct (split_first "$" t) as [[b a]|] eqn:Ht; [done|].
  intros _. f_equal. by apply IH.
Qed.

(** X20 (placeholders are replaced once).
    [String.prototype.replace] with a string pattern replaces the first
    occurrence only.  For a resolved variable holding a single value, the
    query is the text before the first [$name], the value, and the text
    after it; a second [$name] in the text after it is still in the query
    that is sent. *)
Theorem placeholder_replaced_once (env : Environment) (variable : VariableItem)
    (x : scalar) (queryContext before after : string) :
  value variable = VScalar x →
  split_first ("$" +:+ name variable) queryContext = Some (before, after) →
  queryContext = before +:+ ("$" +:+ name variable) +:+ after
  ∧ (string_includes (scalar_to_string x) "$" = false →
     replace_placeholder env variable queryContext
     = before +:+ scalar_to_string x +:+ after)
  ∧ (string_includes after ("$" +:+ name variable) = true →
     string_includes (replace_placeholder env variable queryContext)
       ("$" +:+ name variable) = true).
Proof.
  intros Hv Hsplit. split; [by apply split_first_spec|].
  unfold replace_placeholder, string_replace. rewrite Hv, Hsplit. split.
  - intros Hplain. by rewrite get_substitution_plain.
  - intros Hafter. by do 2 apply string_includes_append.
Qed.

Lemma placeholder_replaced_once_witness :
  let v := set_value (VScalar (SStr "us-east")) region in
  let q := "SELECT a FROM t WHERE r='$region' OR s='$region'" in
  replace_placeholder sample_env v q
  = "SELECT a FROM t WHERE r='us-east' OR s='$region'"
  ∧ string_includes (replace_placeholder sample_env v q) "$region" = true.
Proof.
  destruct (placeholder_replaced_once sample_env
              (set_value (VScalar (SStr "us-east")) region)
              (SStr "us-east")
              "SELECT a FROM t WHERE r='$region' OR s='$region'"
              "SELECT a FROM t WHERE r='" "' OR s='$region'")
    as (_ & Hplain & Htwice).
  - reflexivity.
  - vm_compute. reflexivity.
  - split.
    + rewrite Hplain by (vm_compute; reflexivity). vm_compute. reflexivity.
    + apply Htwice. vm_compute. reflexivity.
Defined.

(** ** Variables that need no request *)

(** X21 (variables that need no request).
    An eligible attempt on a variable that is not [query_values], followed
    by its reaction: the promise is fulfilled with [true] before the
    executor returns, the variable is never marked loading, and after the
    reaction it is resolved.  Only a [custom] variable gets a new value, the
    one [handleCustomVariablesLogic] selects; the value is recorded as the
    old value of the name. *)
Theorem plain_variable_resolves_at_once (env : Environment) (i : nat)
    (s : State) (currentVariable : VariableItem) :
  eligible env i s = true →
  values (variablesData s) !! i = Some currentVariable →
  type currentVariable ≠ query_values →
  (∀ q, currentlyExecutingPromises s !! name currentVariable = Some (Some q) →
        q < length (loads s)) →
  let s1 := loadSingleVariableDataByIndex env i s in
  let selected :=
    if bool_decide (type currentVariable = custom) then
      handleCustomVariablesLogic currentVariable
        (oldSelectedValues (oldVariablesData s !! name currentVariable))
    else value currentVariable in
  values (variablesData s1) !! i = Some (set_value selected currentVariable)
  ∧ loads s1 !! length (loads s)
    = Some {| variableIndex := i; promise := Fulfilled true;
              reacted := false; stage := Returned |}
  ∧ ∃ s2,
      react env (length (loads s)) s1 = Some s2
      ∧ values (variablesData s2) !! i
        = Some (set_isVariableLoadingPending false
                  (set_isLoading false (set_value selected currentVariable)))
      ∧ oldVariablesData s2 !! name currentVariable = Some selected.
Proof.
  intros Hel Hi Hq Hhandles s1 selected.
  assert (Hv1 : values (variablesData s1) !! i
                = Some (set_value selected currentVariable)).
  { unfold s1. rewrite loadSingle_values, Hi, Hel, list_lookup_alter_eq, Hi.
    simpl. f_equal. unfold begin_load, selected, reconcile.
    destruct currentVariable as [n [] m x os l p pol cs qd]; simpl in *;
      try done. }
  assert (Hl1 : loads s1 !! length (loads s)
                = Some {| variableIndex := i; promise := Fulfilled true;
                          reacted := false; stage := Returned |}).
  { apply eligible_inv in Hel as (cur & node & Hi' & Hp & Ht & Hg & Hb).
    rewrite Hi in Hi'. injection Hi' as <-.
    assert (Hnew : ∀ ls0 : list Load,
              ls0 = match currentlyExecutingPromises s !! name currentVariable with
                    | Some (Some q) =>
                        alter (settle Rejected) q
                          (loads s ++ [{| variableIndex := i; promise := Pending;
                                          reacted := false; stage := Returned |}])
                    | _ => (loads s ++ [{| variableIndex := i; promise := Pending;
                                           reacted := false; stage := Returned |}])
                    end%list →
              alter (settle (Fulfilled true)) (length (loads s)) ls0
                !! length (loads s)
              = Some {| variableIndex := i; promise := Fulfilled true;
                        reacted := false; stage := Returned |}).
    { intros ls0 ->. rewrite list_lookup_alter_eq.
      destruct (currentlyExecutingPromises s !! name currentVariable)
        as [[q|]|] eqn:Hh;
        [rewrite list_lookup_alter_ne by (specialize (Hhandles q eq_refl); lia)|..];
        by rewrite lookup_app_r, Nat.sub_diag. }
    unfold s1, loadSingleVariableDataByIndex. simpl. rewrite Hi. simpl.
    unfold invalid_time_range in *.
    destruct (currentlyExecutingPromises s !! name currentVariable)
      as [[q|]|] eqn:Hh; simpl; rewrite Hp; simpl; rewrite Ht, Hg; simpl;
      rewrite Hb;
      destruct currentVariable as [n [] m x os l p pol cs qd]; simpl in *;
      try done; by apply Hnew. }
  split; [done|]. split; [done|].
  unfold react. rewrite Hl1. simpl. eexists. split; [reflexivity|].
  unfold onFulfilled. simpl. rewrite Hv1.
  match goal with
  | |- context [mark_loaded ?i ?c ?s0] => set (sm := mark_loaded i c s0)
  end.
  assert (Hvm : values (variablesData sm) !! i
                = Some (set_isVariableLoadingPending false
                          (set_isLoading false
                             (set_value selected currentVariable)))).
  { unfold sm, mark_loaded. simpl. by rewrite list_lookup_alter_eq, Hv1. }
  assert (Hom : oldVariablesData sm !! name currentVariable = Some selected).
  { unfold sm, mark_loaded. simpl. apply lookup_insert_eq. }
  change (variablesDependencyGraph sm) with (variablesDependencyGraph s1).
  destruct (variablesDependencyGraph s1 !! _) as [node|]; [|done].
  split.
  - by apply load_each_keeps_loaded.
  - match goal with
    | |- oldVariablesData (load_each env ?ks ?s0) !! _ = _ =>
        by destruct (load_each_frame env ks s0) as [-> _]
    end.
Qed.

Lemma plain_variable_resolves_at_once_witness :
  ∃ s2,
    react sample_env 0 (loadSingleVariableDataByIndex sample_env 2 tiered)
    = Some s2
    ∧ flags <$> values (variablesData s2) !! 2 = Some ("tier", false, false)
    ∧ oldVariablesData s2 !! "tier" = Some (VScalar (SStr "prod")).
Proof.
  destruct (plain_variable_resolves_at_once sample_env 2 tiered
              (set_isVariableLoadingPending true tier))
    as (_ & _ & s2 & Hr & Hv & Ho).
  - vm_compute. reflexivity.
  - vm_compute. reflexivity.
  - discriminate.
  - intros q Hq. vm_compute in Hq. discriminate.
  - exists s2. split; [exact Hr|]. split; [by rewrite Hv|exact Ho].
Defined.

(** ** Building the variable list *)

Section Initialisation.
Context (decoders : Decoders) (props : Props).

Lemma variableData_configuration item iv :
  configuration (variableData item iv) = configuration item
  ∧ options (variableData item iv) = options item
  ∧ isLoading (variableData item iv) = false
  ∧ isVariableLoadingPending (variableData item iv) = true.
Proof.
  unfold variableData. by repeat case_bool_decide.
Qed.

(** The variables pushed for the items, one for one. *)
Lemma add_variables_done items s s' :
  add_variables decoders props items s = (s', true) →
  ∃ ivs,
    Forall2 (λ item iv, initialValue decoders props item = Some iv) items ivs
    ∧ values (variablesData s')
      = (values (variablesData s) ++ zip_with variableData items ivs)%list
    ∧ isVariablesLoading (variablesData s')
      = isVariablesLoading (variablesData s)
    ∧ variablesDependencyGraph s' = variablesDependencyGraph s
    ∧ currentlyExecutingPromises s' = currentlyExecutingPromises s
    ∧ selectedTimeDate s' = selectedTimeDate s
    ∧ loads s' = loads s
    ∧ oldVariablesData s'
      = foldl (λ old '(item, iv), <[name item := iv]> old)
          (oldVariablesData s) (zip items ivs).
Proof.
  revert s. induction items as [|item rest IH]; intros s; simpl.
  { intros [= <-]. exists []. split_and!; try done. by rewrite app_nil_r. }
  destruct (initialValue decoders props item) as [iv|] eqn:Hiv; [|done].
  intros (ivs & Hall & Hvalues & Hflag & Hg & Hh & Ht & Hl & Hold)%IH.
  exists (iv :: ivs). split_and!; try done.
  - by constructor.
  - rewrite Hvalues. simpl. by rewrite <- app_assoc.
  - rewrite Hold. simpl.
    by destruct (variableData_configuration item iv) as ([= -> _ _ _ _ _] & _).
Qed.

(** The loop stops at the first item whose initial value cannot be
    decoded. *)
Lemma add_variables_raised items s s' :
  add_variables decoders props items s = (s', false) →
  (∃ before item rest,
     items = (before ++ item :: rest)%list
     ∧ Forall (λ it, is_Some (initialValue decoders props it)) before
     ∧ initialValue decoders props item = None
     ∧ name <$> values (variablesData s')
       = ((name <$> values (variablesData s)) ++ (name <$> before))%list)
  ∧ isVariablesLoading (variablesData s') = isVariablesLoading (variablesData s)
  ∧ variablesDependencyGraph s' = variablesDependencyGraph s
  ∧ currentlyExecutingPromises s' = currentlyExecutingPromises s
  ∧ loads s' = loads s
  ∧ (∀ v, v ∈ values (variablesData s') →
       v ∈ values (variablesData s)
       ∨ isLoading v = false ∧ isVariableLoadingPending v = true).
Proof.
  revert s. induction items as [|item rest IH]; intros s; simpl; [done|].
  destruct (initialValue decoders props item) as [iv|] eqn:Hiv.
  - intros ((before & item' & rest' & -> & Hbefore & Hnone & Hnames) & Hflag
            & Hg & Hh & Hl & Hvs)%IH.
    split_and!; try done.
    + exists (item :: before), item', rest'. split_and!; try done.
      * constructor; [by rewrite Hiv|done].
      * rewrite Hnames. simpl. rewrite fmap_app, <- app_assoc. simpl.
        by destruct (variableData_configuration item iv)
          as ([= -> _ _ _ _ _] & _).
    + intros v Hv. destruct (Hvs v Hv) as [Hold|?]; [|by right].
      simpl in Hold. apply elem_of_app in Hold as [?|Hnew]; [by left|].
      apply list_elem_of_singleton in Hnew as ->. right.
      by destruct (variableData_configuration item iv) as (_ & _ & ? & ?).
  - intros [= <-]. split_and!; try done; [|by left].
    exists [], item, rest. split_and!; try done. by rewrite app_nil_r.
Qed.

Lemma add_variables_raises items s item :
  item ∈ items → initialValue decoders props item = None →
  (add_variables decoders props items s).2 = false.
Proof.
  revert s. induction items as [|item0 rest IH]; intros s Hin Hnone.
  { by apply elem_of_nil in Hin. }
  simpl. destruct (initialValue decoders props item0) as [iv|] eqn:Hiv;
    [|done].
  apply elem_of_cons in Hin as [->|Hin]; [congruence|]. by apply IH.
Qed.
End Initialisation.

Lemma zip_with_variableData_names items ivs :
  length ivs = length items →
  name <$> zip_with variableData items ivs = name <$> items.
Proof.
  revert ivs. induction items as [|item rest IH]; intros [|iv ivs] Hlen;
    try done.
  simpl. f_equal; [|apply IH; by injection Hlen].
  by destruct (variableData_configuration item iv) as ([= -> _ _ _ _ _] & _).
Qed.

Lemma zip_with_variableData_flags items ivs v :
  v ∈ zip_with variableData items ivs →
  isLoading v = false ∧ isVariableLoadingPending v = true.
Proof.
  intros (item & iv & -> & _)%elem_of_zip_with.
  by destruct (variableData_configuration item iv) as (_ & _ & ? & ?).
Qed.

(** X22 (the list built by the initialisation).
    The shape of a list built by [initializeVariablesData] when no
    exception stops it: one variable per configuration item, in order,
    followed by ["Dynamic filters"] when [showDynamicFilters] is set; every
    variable pending and not loading, the snapshot flag lowered, and the
    dependency graph built from this very list.  Promises and handles of
    earlier loads are not touched. *)
Theorem initialisation_result (decoders : Decoders) (props : Props)
    (config : option (list VariableItem)) (s s' : State) :
  variablesConfig props = Some config →
  initializeVariablesData decoders props s = (s', true) →
  isVariablesLoading (variablesData s') = false
  ∧ name <$> values (variablesData s')
    = ((name <$> default [] config)
       ++ (if showDynamicFilters props then ["Dynamic filters"] else []))%list
  ∧ (∀ v, v ∈ values (variablesData s') →
       isLoading v = false ∧ isVariableLoadingPending v = true)
  ∧ variablesDependencyGraph s'
    = buildVariablesDependencyGraph decoders (values (variablesData s'))
  ∧ loads s' = loads s
  ∧ currentlyExecutingPromises s' = currentlyExecutingPromises s.
Proof.
  intros Hc. unfold initializeVariablesData. rewrite Hc.
  destruct (add_variables _ _ _ _) as [s1 [|]] eqn:Hadd; [|done].
  apply add_variables_done in Hadd
    as (ivs & Hall & Hvalues & Hflag & _ & Hh & _ & Hl & _).
  simpl in Hvalues, Hflag, Hh, Hl.
  pose proof (Forall2_length _ _ _ Hall) as Hlen.
  destruct (showDynamicFilters props).
  - destruct (decoded_filters _ _) as [iv|]; [|done]. intros [= <-]. simpl.
    split_and!; try done.
    + rewrite Hvalues. simpl.
      by rewrite fmap_app, zip_with_variableData_names.
    + intros v. rewrite Hvalues. simpl.
      intros [Hv| ->%list_elem_of_singleton]%elem_of_app; [|done].
      by eapply zip_with_variableData_flags.
  - intros [= <-]. simpl. split_and!; try done.
    + rewrite Hvalues. simpl.
      by rewrite app_nil_r, zip_with_variableData_names.
    + intros v. rewrite Hvalues. simpl.
      by apply zip_with_variableData_flags.
Qed.

Lemma initialisation_result_witness :
  let s' := set_oldVariablesData
              {[ "region" := VScalar SNull; "host" := VScalar SNull ]}
              (mounted last_hour) in
  isVariablesLoading (variablesData s') = false
  ∧ name <$> values (variablesData s') = ["region"; "host"]
  ∧ (∀ v, v ∈ values (variablesData s') →
       isLoading v = false ∧ isVariableLoadingPending v = true)
  ∧ variablesDependencyGraph s'
    = spec_buildVariablesDependencyGraph (values (variablesData s'))
  ∧ loads s' = []
  ∧ currentlyExecutingPromises s' = ∅.
Proof.
  apply (initialisation_result sample_decoders sample_props
           (Some [region; host]) (created last_hour)).
  - reflexivity.
  - exact initializeVariablesData_sample.
Defined.

(** X23 (initial values).
    How the initial values are applied to a configured variable that is
    not of the [dynamic_filters] kind: a constant keeps its configured
    value whatever is supplied; a single-select text box takes the supplied
    value and falls back to its configured one; any other single-select
    variable takes the supplied value or [null]; a multi-select variable
    that is not a constant starts with an array, the supplied value wrapped
    if need be, [[null]] when nothing is supplied. *)
Theorem initial_values_applied (decoders : Decoders) (props : Props)
    (items : list VariableItem) (s s' : State) (j : nat) (item : VariableItem) :
  variablesConfig props = Some (Some items) →
  initializeVariablesData decoders props s = (s', true) →
  items !! j = Some item → type item ≠ dynamic_filters →
  let supplied := initial_value_of props (name item) in
  ∃ v,
    values (variablesData s') !! j = Some v
    ∧ configuration v = configuration item ∧ options v = options item
    ∧ (type item = constant → value v = value item)
    ∧ (type item = textbox → multiSelect item = false →
       value v = nullish_coalesce supplied (value item))
    ∧ (type item ≠ constant → type item ≠ textbox → multiSelect item = false →
       value v = nullish_coalesce supplied (VScalar SNull))
    ∧ (type item ≠ constant → multiSelect item = true →
       value v = as_array (nullish_coalesce supplied (VScalar SNull))).
Proof.
  intros Hc Hinit Hj Hkind supplied.
  assert (Hvs : ∃ ivs rest,
            Forall2 (λ item iv, initialValue decoders props item = Some iv)
              items ivs
            ∧ values (variablesData s')
              = (zip_with variableData items ivs ++ rest)%list).
  { unfold initializeVariablesData in Hinit. rewrite Hc in Hinit.
    destruct (add_variables _ _ _ _) as [s1 [|]] eqn:Hadd; [|done].
    apply add_variables_done in Hadd as (ivs & Hall & Hvalues & _).
    simpl in Hvalues. exists ivs.
    destruct (showDynamicFilters props).
    - destruct (decoded_filters _ _) as [iv|]; [|done].
      injection Hinit as <-. simpl. rewrite Hvalues. by eexists.
    - injection Hinit as <-. simpl. rewrite Hvalues. exists [].
      by rewrite app_nil_r. }
  destruct Hvs as (ivs & rest & Hall & Hvalues).
  destruct (Forall2_lookup_l _ _ _ j item Hall Hj) as (iv & Hiv & Hinitial).
  exists (variableData item iv). split.
  { rewrite Hvalues. apply lookup_app_l_Some.
    by rewrite lookup_zip_with, Hj, Hiv. }
  destruct (variableData_configuration item iv) as (Hconf & Hopts & _).
  split; [done|]. split; [done|].
  unfold initialValue in Hinitial.
  rewrite bool_decide_eq_false_2 in Hinitial by done.
  injection Hinitial as <-. fold supplied. unfold variableData.
  split_and!.
  - intros Ht. by rewrite bool_decide_eq_false_2 by (by intros ?).
  - intros Ht Hm. rewrite Hm, bool_decide_eq_true_2, bool_decide_eq_true_2
      by (done || by rewrite Ht).
    simpl. by destruct supplied as [[]|].
  - intros Hnc Hnt Hm.
    by rewrite Hm, bool_decide_eq_true_2, bool_decide_eq_false_2.
  - intros Hnc Hm. rewrite Hm, bool_decide_eq_true_2 by done.
    case_bool_decide; [|done]. simpl. by destruct supplied as [[]|].
Qed.

Lemma initial_values_applied_witness :
  ∃ v, values (variablesData tiered) !! 2 = Some v
       ∧ value v = VScalar (SStr "prod").
Proof.
  destruct (initial_values_applied sample_decoders tiered_props
              [region; host; tier] (created last_hour) tiered 2 tier)
    as (v & Hv & _ & _ & Hconstant & _).
  - reflexivity.
  - exact initializeVariablesData_tiered.
  - reflexivity.
  - discriminate.
  - exists v. split; [exact Hv|]. by apply Hconstant.
Defined.

Lemma seeded_other (items : list VariableItem) (ivs : list jsvalue)
    (old : gmap string jsvalue) (n : string) :
  n ∉ (name <$> items) →
  foldl (λ old '(item, iv), <[name item := iv]> old) old (zip items ivs) !! n
  = old !! n.
Proof.
  revert ivs old. induction items as [|item rest IH]; intros [|iv ivs] old Hn;
    try done.
  simpl. rewrite IH.
  - apply lookup_insert_ne. intros <-. apply Hn. apply list_elem_of_here.
  - intros Hin. apply Hn. by apply list_elem_of_further.
Qed.

Lemma seeded_lookup (items : list VariableItem) (ivs : list jsvalue)
    (old : gmap string jsvalue) (j : nat) item iv :
  NoDup (name <$> items) → items !! j = Some item → ivs !! j = Some iv →
  foldl (λ old '(item, iv), <[name item := iv]> old) old (zip items ivs)
    !! name item = Some iv.
Proof.
  revert ivs old j.
  induction items as [|item0 rest IH]; intros [|iv0 ivs] old j Hnd Hj Hiv;
    try done.
  apply NoDup_cons in Hnd as [Hfresh Hnd]. destruct j as [|j]; simpl in *.
  - simplify_eq. rewrite seeded_other by done. apply lookup_insert_eq.
  - by eapply IH.
Qed.

(** X24 (initial values as old values).
    The table of old values is seeded with the initial value of every
    configured variable ([null] when none is supplied), also for a constant,
    whose own value is not taken from it; the names are taken distinct, as
    a later variable of the same name would overwrite the entry. *)
Theorem initial_values_recorded (decoders : Decoders) (props : Props)
    (items : list VariableItem) (s s' : State) (j : nat) (item : VariableItem) :
  variablesConfig props = Some (Some items) →
  initializeVariablesData decoders props s = (s', true) →
  NoDup (name <$> values (variablesData s')) →
  items !! j = Some item →
  oldVariablesData s' !! name item = initialValue decoders props item.
Proof.
  intros Hc Hinit Hnd Hj. unfold initializeVariablesData in Hinit.
  rewrite Hc in Hinit.
  destruct (add_variables _ _ _ _) as [s1 [|]] eqn:Hadd; [|done].
  apply add_variables_done in Hadd
    as (ivs & Hall & Hvalues & _ & _ & _ & _ & _ & Hold).
  simpl in Hvalues, Hold.
  destruct (Forall2_lookup_l _ _ _ j item Hall Hj) as (iv & Hiv & ->).
  pose proof (Forall2_length _ _ _ Hall) as Hlen.
  assert (Hnames : name <$> values (variablesData s1) = name <$> items).
  { rewrite Hvalues. by apply zip_with_variableData_names. }
  destruct (showDynamicFilters props).
  - destruct (decoded_filters _ _) as [iv'|]; [|done].
    injection Hinit as <-. simpl in *.
    rewrite fmap_app, Hnames in Hnd. apply NoDup_app in Hnd as (Hnd & Hne & _).
    rewrite lookup_insert_ne.
    + rewrite Hold. by eapply seeded_lookup.
    + intros He. apply (Hne (name item)).
      * apply list_elem_of_fmap_2. by eapply list_elem_of_lookup_2.
      * rewrite <- He. apply list_elem_of_here.
  - injection Hinit as <-. simpl in *. rewrite Hnames in Hnd.
    rewrite Hold. by eapply seeded_lookup.
Qed.

Lemma initial_values_recorded_witness :
  oldVariablesData tiered !! "tier" = Some (VScalar (SStr "staging")).
Proof.
  apply (initial_values_recorded sample_decoders tiered_props
           [region; host; tier] (created last_hour) tiered 2 tier).
  - reflexivity.
  - exact initializeVariablesData_tiered.
  - compute_done.
  - reflexivity.
Defined.

(** X25 (an initial value that cannot be decoded).
    If the initial value of a [dynamic_filters] item cannot be decoded
    ([decodeURIComponent] or [JSON.parse] raises), the exception leaves
    [initializeVariablesData] and the [onMounted] hook with it: the list
    holds the variables of the items before the first item that cannot be
    decoded, none of them loading, the dependency graph is not rebuilt and
    no load is started. *)
Theorem undecodable_filter_stops_mount (env : Environment)
    (decoders : Decoders) (props : Props) (items : list VariableItem)
    (item : VariableItem) (s : State) :
  variablesConfig props = Some (Some items) →
  item ∈ items → type item = dynamic_filters →
  parseFilters decoders
    (nullish_coalesce (initial_value_of props (name item))
       (VScalar (SStr "%5B%5D"))) = None →
  ∃ s' before failing rest,
    initializeVariablesData decoders props s = (s', false)
    ∧ onMounted env decoders props s = s'
    ∧ items = (before ++ failing :: rest)%list
    ∧ (∀ it, it ∈ before → is_Some (initialValue decoders props it))
    ∧ initialValue decoders props failing = None
    ∧ name <$> values (variablesData s') = name <$> before
    ∧ (∀ v, v ∈ values (variablesData s') → isLoading v = false)
    ∧ isVariablesLoading (variablesData s') = false
    ∧ variablesDependencyGraph s' = variablesDependencyGraph s
    ∧ loads s' = loads s.
Proof.
  intros Hc Hin Ht Hparse.
  assert (Hnone : initialValue decoders props item = None).
  { unfold initialValue, decoded_filters.
    by rewrite bool_decide_eq_true_2, Hparse. }
  unfold onMounted, initializeVariablesData. rewrite Hc. simpl.
  pose proof (add_variables_raises decoders props items (resetVariablesData s)
                item Hin Hnone) as Hfalse.
  destruct (add_variables _ _ _ _) as [s1 ok] eqn:Hadd. simpl in Hfalse.
  subst ok.
  apply add_variables_raised in Hadd
    as ((before & failing & rest & Hitems & Hbefore & Hfailing & Hnames)
        & Hflag & Hg & _ & Hl & Hvs).
  exists s1, before, failing, rest. split_and!; try done.
  - by apply Forall_forall.
  - intros v Hv. destruct (Hvs v Hv) as [Hold|[? _]]; [|done].
    by apply elem_of_nil in Hold.
Qed.

Lemma undecodable_filter_stops_mount_witness :
  ∃ s' before failing rest,
    initializeVariablesData sample_decoders broken_props (created last_hour)
    = (s', false)
    ∧ onMounted sample_env sample_decoders broken_props (created last_hour) = s'
    ∧ [region; filters; host] = (before ++ failing :: rest)%list
    ∧ (∀ it, it ∈ before →
         is_Some (initialValue sample_decoders broken_props it))
    ∧ initialValue sample_decoders broken_props failing = None
    ∧ name <$> values (variablesData s') = name <$> before
    ∧ (∀ v, v ∈ values (variablesData s') → isLoading v = false)
    ∧ isVariablesLoading (variablesData s') = false
    ∧ variablesDependencyGraph s' = ∅
    ∧ loads s' = [].
Proof.
  apply (undecodable_filter_stops_mount sample_env sample_decoders broken_props
           [region; filters; host] filters (created last_hour)).
  - reflexivity.
  - apply list_elem_of_further, list_elem_of_here.
  - reflexivity.
  - vm_compute. reflexivity.
Defined.

Lemma initializeVariablesData_frame decoders props s s' :
  initializeVariablesData decoders props s = (s', true) →
  loads s' = loads s
  ∧ currentlyExecutingPromises s' = currentlyExecutingPromises s
  ∧ selectedTimeDate s' = selectedTimeDate s
  ∧ ∀ v, v ∈ values (variablesData s') →
      isLoading v = false ∧ isVariableLoadingPending v = true.
Proof.
  unfold initializeVariablesData.
  destruct (variablesConfig props) as [config|].
  2: { intros [= <-]. split_and!; try done. by intros v ?%elem_of_nil. }
  destruct (add_variables _ _ _ _) as [s1 [|]] eqn:Hadd; [|done].
  apply add_variables_done in Hadd
    as (ivs & _ & Hvalues & _ & _ & Hh & Ht & Hl & _).
  simpl in Hvalues, Hh, Ht, Hl.
  destruct (showDynamicFilters props).
  - destruct (decoded_filters _ _) as [iv|]; [|done]. intros [= <-]. simpl.
    split_and!; try done. intros v. rewrite Hvalues.
    intros [Hv| ->%list_elem_of_singleton]%elem_of_app; [|done].
    by eapply zip_with_variableData_flags.
  - intros [= <-]. simpl. split_and!; try done. intros v. rewrite Hvalues.
    by apply zip_with_variableData_flags.
Qed.

Lemma rejectAllPromises_no_handle s :
  currentlyExecutingPromises s = ∅ → rejectAllPromises s = s.
Proof. unfold rejectAllPromises. intros ->. apply map_fold_empty. Qed.

(** X26 (mounting).
    Mounting the component under an accepted time range, when the
    initialisation ends normally: one attempt is started per variable, in
    list order; every variable is pending; and a [query_values] variable is
    loading exactly if it is a root of the graph just built. *)
Theorem mount_starts_the_roots (env : Environment) (decoders : Decoders)
    (props : Props) (t : TimeRange) (s0 : State) :
  initializeVariablesData decoders props (created t) = (s0, true) →
  isInvalidDate env (start_time t) || isInvalidDate env (end_time t) = false →
  names_nonempty (values (variablesData s0)) →
  all_pending (values (variablesData (onMounted env decoders props (created t))))
  ∧ variableIndex <$> loads (onMounted env decoders props (created t))
    = seq 0 (length (values (variablesData s0)))
  ∧ ∀ j v, values (variablesData s0) !! j = Some v → type v = query_values →
      ∃ v', values (variablesData (onMounted env decoders props (created t)))
              !! j = Some v'
            ∧ value v' = value v
            ∧ (isLoading v' = true
               ↔ root (variablesDependencyGraph s0)
                   (values (variablesData s0)) v).
Proof.
  intros Hinit Ht Hne. unfold onMounted. rewrite Hinit.
  destruct (initializeVariablesData_frame _ _ _ _ Hinit)
    as (Hl & Hh & Htime & Hflags).
  simpl in Hl, Hh, Htime.
  rewrite rejectAllPromises_no_handle by done.
  assert (Hvalid : invalid_time_range env s0 = false).
  { unfold invalid_time_range. by rewrite Htime. }
  split_and!.
  - by apply loadAll_all_pending.
  - unfold loadAllVariablesData. rewrite Hvalid.
    rewrite load_each_indices. simpl. by rewrite Hl, length_fmap.
  - intros j v Hj Hq.
    destruct (loadAll_wave env s0 j v Hvalid Hne Hj Hq)
      as (_ & v' & Hv' & Hval & _ & Hload).
    exists v'. split_and!; try done. rewrite Hload.
    destruct (Hflags v) as [Hf _]; [by eapply list_elem_of_lookup_2|].
    rewrite Hf. intuition discriminate.
Qed.

Lemma mount_starts_the_roots_witness :
  let s' := onMounted sample_env sample_decoders sample_props
              (created last_hour) in
  all_pending (values (variablesData s'))
  ∧ variableIndex <$> loads s' = [0; 1]
  ∧ ∀ j v, [region; host] !! j = Some v → type v = query_values →
      ∃ v', values (variablesData s') !! j = Some v'
            ∧ value v' = value v
            ∧ (isLoading v' = true ↔ root sample_graph [region; host] v).
Proof.
  apply (mount_starts_the_roots sample_env sample_decoders sample_props
           last_hour
           (set_oldVariablesData
              {[ "region" := VScalar SNull; "host" := VScalar SNull ]}
              (mounted last_hour))).
  - exact initializeVariablesData_sample.
  - reflexivity.
  - exact sample_names_nonempty.
Defined.
